(** * An on-screen piano: voice engine, input coordinator and offline cache

    A shallow embedding of [script.js] (classes [AudioEngine] and [PianoUI])
    and of the service worker that caches the page's assets, followed by the
    properties the design document states about them.

    Conventions of the embedding:
    - JavaScript numbers that hold integers (octaves, indices) are [Z];
      audio-clock times and gain levels are rationals [Q], so that
      [currentTime + 0.1] is written as it stands in the source;
    - the frequency handed to the engine is opaque to it, hence the engine is
      parametric in the type of frequencies; the piano instantiates it with
      the real numbers, idealising IEEE doubles;
    - objects created by [createOscillator]/[createGain] live in a store of
      nodes and are referred to by their index, so that the aliasing between
      the voice table and the audio graph is explicit;
    - a handler is a computation in a state-and-exception monad: a
      [TypeError] raised half-way leaves the mutations made so far. *)

From Stdlib Require Import ZArith QArith String Ascii List Reals Lia Lra.
From stdpp Require Import base option list gmap strings pretty.

Local Open Scope Z_scope.
Local Open Scope string_scope.
Local Open Scope list_scope.

(** ** The state-and-exception monad of event handlers *)

Inductive exn : Type :=
  | TypeError.

Inductive outcome (S A : Type) : Type :=
  | Normal (a : A) (s : S)
  | Thrown (e : exn) (s : S).
Arguments Normal {S A} a s.
Arguments Thrown {S A} e s.

Definition M (S A : Type) : Type := S -> outcome S A.

Definition ret {S A : Type} (a : A) : M S A := fun s => Normal a s.

Definition bind {S A B : Type} (c : M S A) (k : A -> M S B) : M S B :=
  fun s =>
    match c s with
    | Normal a s' => k a s'
    | Thrown e s' => Thrown e s'
    end.

Definition throw {S A : Type} (e : exn) : M S A := fun s => Thrown e s.
Definition get {S : Type} : M S S := fun s => Normal s s.
Definition modify {S : Type} (f : S -> S) : M S unit := fun s => Normal tt (f s).

Notation "x <~ c ;; k" := (bind c (fun x => k))
  (at level 100, c at next level, right associativity).
Notation "c ;;; k" := (bind c (fun _ => k))
  (at level 100, right associativity).

(** The state a computation leaves behind, whether it returned or threw. *)
Definition final_state {S A : Type} (o : outcome S A) : S :=
  match o with
  | Normal _ s => s
  | Thrown _ s => s
  end.

Definition returned {S A : Type} (o : outcome S A) : bool :=
  match o with
  | Normal _ _ => true
  | Thrown _ _ => false
  end.

(** [array.forEach(f)]: the callbacks run in order; an exception aborts the
    iteration. *)
Fixpoint forEach {S A : Type} (f : A -> M S unit) (l : list A) : M S unit :=
  match l with
  | [] => ret tt
  | x :: l' => f x ;;; forEach f l'
  end.

(** ** Property lookup on a plain object used as a table

    [this.oscillators = {}] is an ordinary object: [o[k]] finds the own
    property [k] when there is one and otherwise walks to [Object.prototype],
    whose members are all truthy and have neither an [osc] nor a [gain]
    property. *)

Definition Object_prototype : list string :=
  [ "constructor"; "__defineGetter__"; "__defineSetter__"; "hasOwnProperty";
    "__lookupGetter__"; "__lookupSetter__"; "isPrototypeOf";
    "propertyIsEnumerable"; "toString"; "valueOf"; "__proto__";
    "toLocaleString" ].

Inductive property (V : Type) : Type :=
  | Own (v : V)
  | Inherited
  | Undefined.
Arguments Own {V} v.
Arguments Inherited {V}.
Arguments Undefined {V}.

Definition js_get {V : Type} (o : gmap string V) (k : string) : property V :=
  match o !! k with
  | Some v => Own v
  | None => if bool_decide (k ∈ Object_prototype) then Inherited else Undefined
  end.

Definition truthy {V : Type} (p : property V) : bool :=
  match p with
  | Undefined => false
  | _ => true
  end.

(** ** The audio graph *)

(** The value given to [setValueAtTime]: a literal, or the parameter's own
    [value] read back at the moment of the call. *)
Inductive param_value : Type :=
  | Literal (q : Q)
  | CurrentValue.

Inductive automation : Type :=
  | SetValueAtTime (v : param_value) (t : Q)
  | LinearRampToValueAtTime (v : Q) (t : Q)
  | ExponentialRampToValueAtTime (v : Q) (t : Q).

Definition automation_time (a : automation) : Q :=
  match a with
  | SetValueAtTime _ t => t
  | LinearRampToValueAtTime _ t => t
  | ExponentialRampToValueAtTime _ t => t
  end.

(** An [AudioParam]: its intrinsic [value] and its timeline, oldest event
    first. *)
Record AudioParam : Type := {
  value : Q;
  timeline : list automation
}.

Definition schedule (a : automation) (p : AudioParam) : AudioParam :=
  {| value := value p; timeline := timeline p ++ [a] |}.

(** [cancelScheduledValues(t)] drops the events scheduled at or after [t]. *)
Definition cancelScheduledValues (t : Q) (p : AudioParam) : AudioParam :=
  {| value := value p;
     timeline := List.filter (fun a => negb (Qle_bool t (automation_time a)))
                             (timeline p) |}.

Inductive sink : Type :=
  | ToMasterGain
  | ToDestination.

Record GainNode : Type := {
  gain : AudioParam;
  gain_output : option sink
}.

Inductive waveform : Type :=
  | Sine
  | Triangle.

(** The state of the audio context. [Resuming] is a suspended context on
    which [resume()] has been called and whose promise has not settled yet:
    its [state] still reads ['suspended']. *)
Inductive context_state : Type :=
  | Suspended
  | Resuming
  | Running
  | Closed.

(** [ctx.state === 'suspended']. *)
Definition reads_suspended (st : context_state) : bool :=
  match st with
  | Suspended | Resuming => true
  | Running | Closed => false
  end.

Section Engine.

(** The type of the frequency values the engine is handed. *)
Context {Freq : Type}.

(** An oscillator: [frequency] lists the [setValueAtTime] calls made on its
    frequency parameter, [osc_output] is the gain node it is connected to,
    [stop_time] the argument of the last [stop] call. Every oscillator of the
    graph is started in the call that creates it, so [stop] never finds an
    oscillator that was not started. *)
Record OscillatorNode : Type := {
  osc_type : waveform;
  frequency : list (Freq * Q);
  osc_output : option nat;
  started : bool;
  stop_time : option Q
}.

(** The pair [{ osc, gain }] stored in the table: two references into the
    graph. *)
Record Voice : Type := {
  osc : nat;
  gain_ref : nat
}.

Record AudioEngine : Type := {
  currentTime : Q;
  state : context_state;
  osc_nodes : list OscillatorNode;
  gain_nodes : list GainNode;
  masterGain : GainNode;
  oscillators : gmap string Voice
}.

(** [constructor()]: a master gain at 0.5 wired to the destination and an
    empty table. The clock reading and the running state of a fresh context
    are the browser's. *)
Definition new_AudioEngine (now : Q) (st : context_state) : AudioEngine :=
  {| currentTime := now;
     state := st;
     osc_nodes := [];
     gain_nodes := [];
     masterGain := {| gain := {| value := 0.5; timeline := [] |};
                      gain_output := Some ToDestination |};
     oscillators := ∅ |}.

Definition setVolume (v : Q) : M AudioEngine unit :=
  modify (fun e =>
    {| currentTime := currentTime e;
       state := state e;
       osc_nodes := osc_nodes e;
       gain_nodes := gain_nodes e;
       masterGain :=
         {| gain := schedule (SetValueAtTime (Literal v) (currentTime e))
                             (gain (masterGain e));
            gain_output := gain_output (masterGain e) |};
       oscillators := oscillators e |}).

(** The three calls of the release on a voice's gain parameter. *)
Definition release_envelope (now : Q) (g : GainNode) : GainNode :=
  {| gain :=
       schedule (ExponentialRampToValueAtTime 0.001 (now + 0.1))
         (schedule (SetValueAtTime CurrentValue now)
            (cancelScheduledValues now (gain g)));
     gain_output := gain_output g |}.

Definition osc_stop (when : Q) (o : OscillatorNode) : OscillatorNode :=
  {| osc_type := osc_type o;
     frequency := frequency o;
     osc_output := osc_output o;
     started := started o;
     stop_time := Some when |}.

Definition stopTone (note : string) : M AudioEngine unit :=
  e <~ get ;;
  match js_get (oscillators e) note with
  | Undefined => ret tt
  | Inherited =>
      (* [osc] and [gain] destructure to undefined; [gain.gain] raises *)
      throw TypeError
  | Own v =>
      let now := currentTime e in
      modify (fun e =>
        {| currentTime := currentTime e;
           state := state e;
           osc_nodes := alter (osc_stop (now + 0.1)) (osc v) (osc_nodes e);
           gain_nodes := alter (release_envelope now) (gain_ref v) (gain_nodes e);
           masterGain := masterGain e;
           oscillators := delete note (oscillators e) |})
  end.

(** The nodes a trigger creates, configured as lines 17-31 leave them. *)
Definition new_oscillator (frequency : Freq) (now : Q) (gain_id : nat)
  : OscillatorNode :=
  {| osc_type := Triangle;
     frequency := [(frequency, now)];
     osc_output := Some gain_id;
     started := true;
     stop_time := None |}.

(** A gain node is created with gain 1; the envelope is then scheduled on
    it and the node wired to the master gain. *)
Definition attack_decay (now : Q) : GainNode :=
  {| gain :=
       {| value := 1;
          timeline := [ SetValueAtTime (Literal 0) now;
                        LinearRampToValueAtTime 1 (now + 0.02);
                        ExponentialRampToValueAtTime 0.5 (now + 0.5) ] |};
     gain_output := Some ToMasterGain |}.

Definition playTone (note : string) (frequency : Freq) : M AudioEngine unit :=
  e <~ get ;;
  (if truthy (js_get (oscillators e) note) then stopTone note else ret tt) ;;;
  modify (fun e =>
    let now := currentTime e in
    let osc_id := length (osc_nodes e) in
    let gain_id := length (gain_nodes e) in
    {| currentTime := now;
       state := state e;
       osc_nodes := osc_nodes e ++ [new_oscillator frequency now gain_id];
       gain_nodes := gain_nodes e ++ [attack_decay now];
       masterGain := masterGain e;
       oscillators :=
         <[note := {| osc := osc_id; gain_ref := gain_id |}]> (oscillators e) |}).

(** [resume()]: asks a suspended context to run again. The promise of
    [ctx.resume()] settles after the listener has returned, so the context
    still reads suspended when [resume] returns; the browser makes it run
    later, and no code of the page reads the state but this test. *)
Definition resume : M AudioEngine unit :=
  modify (fun e =>
    if reads_suspended (state e) then
      {| currentTime := currentTime e;
         state := Resuming;
         osc_nodes := osc_nodes e;
         gain_nodes := gain_nodes e;
         masterGain := masterGain e;
         oscillators := oscillators e |}
    else e).

(** The audio clock moves on between two handlers. *)
Definition advance_clock (dt : Q) (e : AudioEngine) : AudioEngine :=
  {| currentTime := currentTime e + dt;
     state := state e;
     osc_nodes := osc_nodes e;
     gain_nodes := gain_nodes e;
     masterGain := masterGain e;
     oscillators := oscillators e |}.

End Engine.

Arguments OscillatorNode : clear implicits.
Arguments Voice : clear implicits.
Arguments AudioEngine : clear implicits.

(** ** The piano *)

Definition NOTES : list string :=
  ["C"; "C#"; "D"; "D#"; "E"; "F"; "F#"; "G"; "G#"; "A"; "A#"; "B"].

Definition KEY_MAP : gmap string string :=
  list_to_map
    [ ("a", "C"); ("w", "C#"); ("s", "D"); ("e", "D#"); ("d", "E"); ("f", "F");
      ("t", "F#"); ("g", "G"); ("y", "G#"); ("h", "A"); ("u", "A#"); ("j", "B");
      ("k", "C2") ].

(** [Array.prototype.indexOf]: the first position holding the value, or -1. *)
Fixpoint indexOf (l : list string) (x : string) : Z :=
  match l with
  | [] => -1
  | y :: l' =>
      if String.eqb y x then 0
      else let i := indexOf l' x in if (i <? 0)%Z then -1 else i + 1
  end.

(** [String.prototype.includes] for a one-character needle. *)
Fixpoint includes (s : string) (c : ascii) : bool :=
  match s with
  | EmptyString => false
  | String d s' => Ascii.eqb d c || includes s' c
  end.

(** [String.prototype.toLowerCase] on ASCII text: the 26 capital letters move
    down, every other character stays. Key values are taken to be ASCII. *)
Definition lower_ascii (c : ascii) : ascii :=
  let n := N_of_ascii c in
  if ((65 <=? n) && (n <=? 90))%N then ascii_of_N (n + 32) else c.

Fixpoint toLowerCase (s : string) : string :=
  match s with
  | EmptyString => EmptyString
  | String c s' => String (lower_ascii c) (toLowerCase s')
  end.

(** A rendered key: its class list and its [dataset]. The octave attribute
    holds the decimal text of an integer and is always read through
    [parseInt], so the integer itself is kept. *)
Record KeyElement : Type := {
  classList : list string;
  data_note : string;
  data_octave : Z;
  data_touchId : option Z
}.

Definition classList_contains (c : string) (k : KeyElement) : bool :=
  bool_decide (c ∈ classList k).

Definition classList_add (c : string) (k : KeyElement) : KeyElement :=
  {| classList := if classList_contains c k then classList k
                  else classList k ++ [c];
     data_note := data_note k;
     data_octave := data_octave k;
     data_touchId := data_touchId k |}.

Definition classList_remove (c : string) (k : KeyElement) : KeyElement :=
  {| classList := List.filter (fun d => negb (String.eqb d c)) (classList k);
     data_note := data_note k;
     data_octave := data_octave k;
     data_touchId := data_touchId k |}.

Definition set_touchId (t : option Z) (k : KeyElement) : KeyElement :=
  {| classList := classList k;
     data_note := data_note k;
     data_octave := data_octave k;
     data_touchId := t |}.

(** The piano object. [piano] lists the children of the [#piano] element in
    document order, and an element is referred to by its position there; the
    page has no element of class [key] elsewhere. [octave_display] is the
    text of [#current-octave]. *)
Record PianoUI : Type := {
  engine : AudioEngine R;
  piano : list KeyElement;
  octave : Z;
  baseOctave : Z;
  isDragging : bool;
  octave_display : string
}.

Definition set_engine (e : AudioEngine R) (s : PianoUI) : PianoUI :=
  {| engine := e; piano := piano s; octave := octave s;
     baseOctave := baseOctave s; isDragging := isDragging s;
     octave_display := octave_display s |}.

Definition set_piano (p : list KeyElement) (s : PianoUI) : PianoUI :=
  {| engine := engine s; piano := p; octave := octave s;
     baseOctave := baseOctave s; isDragging := isDragging s;
     octave_display := octave_display s |}.

Definition set_octave (o : Z) (s : PianoUI) : PianoUI :=
  {| engine := engine s; piano := piano s; octave := o;
     baseOctave := baseOctave s; isDragging := isDragging s;
     octave_display := octave_display s |}.

Definition set_isDragging (b : bool) (s : PianoUI) : PianoUI :=
  {| engine := engine s; piano := piano s; octave := octave s;
     baseOctave := baseOctave s; isDragging := b;
     octave_display := octave_display s |}.

Definition set_octave_display (t : string) (s : PianoUI) : PianoUI :=
  {| engine := engine s; piano := piano s; octave := octave s;
     baseOctave := baseOctave s; isDragging := isDragging s;
     octave_display := t |}.

(** A call on [this.engine]. *)
Definition with_engine {A : Type} (c : M (AudioEngine R) A) : M PianoUI A :=
  fun s =>
    match c (engine s) with
    | Normal a e' => Normal a (set_engine e' s)
    | Thrown x e' => Thrown x (set_engine e' s)
    end.

Definition semitonesFromA4 (note : string) (octave : Z) : Z :=
  let noteIndex := indexOf NOTES note in
  (octave - 4) * 12 + (noteIndex - 9).

Definition getFrequency (note : string) (octave : Z) : R :=
  (440 * Rpower 2 (IZR (semitonesFromA4 note octave) / 12))%R.

(** One turn of the loop of [renderPiano]. *)
Definition render_key (startOctave : Z) (i : Z) : M PianoUI unit :=
  let noteIndex := i mod 12 in
  let currentOctave := startOctave + i / 12 in
  match NOTES !! Z.to_nat noteIndex with
  | None => throw TypeError
  | Some note =>
      let isBlack := includes note "#" in
      let key :=
        {| classList := ["key"; if isBlack then "black" else "white"];
           data_note := note;
           data_octave := currentOctave;
           data_touchId := None |} in
      modify (fun s => set_piano (piano s ++ [key]) s)
  end.

Definition renderPiano : M PianoUI unit :=
  modify (set_piano []) ;;;
  s <~ get ;;
  let startOctave := octave s in
  let numKeys := 13%nat in
  forEach (render_key startOctave) (map Z.of_nat (seq 0 numKeys)).

(** The table key of a voice, [`${note}${octave}`]. *)
Definition voice_key (note : string) (octave : Z) : string :=
  note +:+ pretty octave.

Definition alter_key (f : KeyElement -> KeyElement) (k : nat) : M PianoUI unit :=
  modify (fun s => set_piano (alter f k (piano s)) s).

(** [playKey(keyElement)]; a position that holds no element stands for
    [null]. *)
Definition playKey (k : nat) : M PianoUI unit :=
  s <~ get ;;
  match piano s !! k with
  | None => ret tt
  | Some keyElement =>
      with_engine resume ;;;
      alter_key (classList_add "active") k ;;;
      let note := data_note keyElement in
      let octave := data_octave keyElement in
      let freq := getFrequency note octave in
      with_engine (playTone (voice_key note octave) freq)
  end.

Definition stopKey (k : nat) : M PianoUI unit :=
  s <~ get ;;
  match piano s !! k with
  | None => ret tt
  | Some keyElement =>
      alter_key (classList_remove "active") k ;;;
      let note := data_note keyElement in
      let octave := data_octave keyElement in
      with_engine (stopTone (voice_key note octave))
  end.

Definition updateOctaveDisplay : M PianoUI unit :=
  modify (fun s => set_octave_display ("Octave: " +:+ pretty (octave s)) s).

(** *** Controls *)

Definition octave_up_click : M PianoUI unit :=
  s <~ get ;;
  if (octave s <? 7)%Z then
    modify (fun s => set_octave (octave s + 1) s) ;;;
    updateOctaveDisplay ;;;
    renderPiano
  else ret tt.

Definition octave_down_click : M PianoUI unit :=
  s <~ get ;;
  if (1 <? octave s)%Z then
    modify (fun s => set_octave (octave s - 1) s) ;;;
    updateOctaveDisplay ;;;
    renderPiano
  else ret tt.

Definition volume_input (v : Q) : M PianoUI unit :=
  with_engine (setVolume v).

(** *** Input *)

(** An event target that is one of the rendered keys; [None] stands for any
    other element. *)
Definition is_key (target : option nat) (s : PianoUI) : option nat :=
  match target with
  | None => None
  | Some k =>
      match piano s !! k with
      | Some el => if classList_contains "key" el then Some k else None
      | None => None
      end
  end.

(** [document.querySelectorAll('.key.active')]: a static list, in document
    order. *)
Definition querySelectorAll_key_active (s : PianoUI) : list nat :=
  omap (fun '(i, el) =>
          if classList_contains "key" el && classList_contains "active" el
          then Some i else None)
       (imap pair (piano s)).

(** [document.querySelector] on
    [.key[data-note="..."][data-octave="..."]]: the first match, or [null]. *)
Definition querySelector_key (note : string) (octave : Z) (s : PianoUI)
  : option nat :=
  fst <$> list_find
            (fun el => Is_true (classList_contains "key" el
                                && String.eqb (data_note el) note
                                && (data_octave el =? octave)%Z))
            (piano s).

Definition mousedown (target : option nat) : M PianoUI unit :=
  s <~ get ;;
  match is_key target s with
  | Some k => playKey k ;;; modify (set_isDragging true)
  | None => ret tt
  end.

Definition mouseup : M PianoUI unit :=
  modify (set_isDragging false) ;;;
  s <~ get ;;
  forEach stopKey (querySelectorAll_key_active s).

Definition mouseover (target : option nat) : M PianoUI unit :=
  s <~ get ;;
  match is_key target s with
  | Some k => if isDragging s then playKey k else ret tt
  | None => ret tt
  end.

Definition mouseout (target : option nat) : M PianoUI unit :=
  s <~ get ;;
  match is_key target s with
  | Some k => if isDragging s then stopKey k else ret tt
  | None => ret tt
  end.

(** A changed touch: its identifier and the element found under it by
    [document.elementFromPoint]. *)
Record Touch : Type := {
  identifier : Z;
  elementFromPoint : option nat
}.

Definition touchstart (changedTouches : list Touch) : M PianoUI unit :=
  forEach (fun touch =>
             s <~ get ;;
             match is_key (elementFromPoint touch) s with
             | Some k =>
                 playKey k ;;;
                 alter_key (set_touchId (Some (identifier touch))) k
             | None => ret tt
             end)
          changedTouches.

Definition touchend (changedTouches : list Touch) : M PianoUI unit :=
  forEach (fun touch =>
             s <~ get ;;
             let activeKeys := querySelectorAll_key_active s in
             forEach (fun k =>
                        s <~ get ;;
                        match piano s !! k with
                        | Some key =>
                            if bool_decide (data_touchId key
                                            = Some (identifier touch))
                            then stopKey k ;;; alter_key (set_touchId None) k
                            else ret tt
                        | None => ret tt
                        end)
                     activeKeys)
          changedTouches.

Record KeyboardEvent : Type := {
  key : string;
  repeat : bool
}.

(** The [keydown] listener. A [key] that names a member of
    [Object.prototype] makes [noteBase] an object whose text is the note of
    no rendered key: nothing is played. *)
Definition keydown (e : KeyboardEvent) : M PianoUI unit :=
  if repeat e then ret tt
  else
    match js_get KEY_MAP (toLowerCase (key e)) with
    | Own noteBase =>
        s <~ get ;;
        let '(targetNote, targetOctave) :=
          if String.eqb noteBase "C2" then ("C", octave s + 1)
          else (noteBase, octave s) in
        match querySelector_key targetNote targetOctave s with
        | Some k => playKey k
        | None => ret tt
        end
    | Inherited => ret tt
    | Undefined => ret tt
    end.

Definition keyup (e : KeyboardEvent) : M PianoUI unit :=
  match js_get KEY_MAP (toLowerCase (key e)) with
  | Own noteBase =>
      s <~ get ;;
      let '(targetNote, targetOctave) :=
        if String.eqb noteBase "C2" then ("C", octave s + 1)
        else (noteBase, octave s) in
      match querySelector_key targetNote targetOctave s with
      | Some k => stopKey k
      | None => ret tt
      end
  | Inherited => ret tt
  | Undefined => ret tt
  end.

(** [new PianoUI()]: octave 4 and a first rendering; [readout] is the text
    the page shows in [#current-octave] before any octave change. *)
Definition new_PianoUI (now : Q) (st : context_state) (readout : string)
  : outcome PianoUI unit :=
  renderPiano
    {| engine := new_AudioEngine now st;
       piano := [];
       octave := 4;
       baseOctave := 4;
       isDragging := false;
       octave_display := readout |}.

(** *** The event loop *)

Inductive event : Type :=
  | OctaveUp
  | OctaveDown
  | VolumeInput (v : Q)
  | MouseDown (target : option nat)
  | MouseUp
  | MouseOver (target : option nat)
  | MouseOut (target : option nat)
  | TouchStart (changedTouches : list Touch)
  | TouchEnd (changedTouches : list Touch)
  | KeyDown (e : KeyboardEvent)
  | KeyUp (e : KeyboardEvent)
  | ClockTick (dt : Q).

Definition handle (ev : event) : M PianoUI unit :=
  match ev with
  | OctaveUp => octave_up_click
  | OctaveDown => octave_down_click
  | VolumeInput v => volume_input v
  | MouseDown t => mousedown t
  | MouseUp => mouseup
  | MouseOver t => mouseover t
  | MouseOut t => mouseout t
  | TouchStart ts => touchstart ts
  | TouchEnd ts => touchend ts
  | KeyDown e => keydown e
  | KeyUp e => keyup e
  | ClockTick dt => modify (fun s => set_engine (advance_clock dt (engine s)) s)
  end.

(** The events are handled one after the other; an uncaught exception ends
    the handler it occurs in and the loop goes on from the state it left. *)
Definition run (evs : list event) (s : PianoUI) : PianoUI :=
  foldl (fun s ev => final_state (handle ev s)) s evs.

(** *** Calls on the engine alone *)

Section Calls.

Context {Freq : Type}.

Inductive call : Type :=
  | Trigger (note : string) (frequency : Freq)
  | Release (note : string)
  | Volume (v : Q)
  | Resume
  | Elapse (dt : Q).

Definition perform (c : call) : M (AudioEngine Freq) unit :=
  match c with
  | Trigger note f => playTone note f
  | Release note => stopTone note
  | Volume v => setVolume v
  | Resume => resume
  | Elapse dt => modify (advance_clock dt)
  end.

Definition perform_all (cs : list call) (e : AudioEngine Freq)
  : AudioEngine Freq :=
  foldl (fun e c => final_state (perform c e)) e cs.

(** For each oscillator of the graph, in order of creation, the note whose
    trigger created it: the history of the calls read next to the engine. *)
Definition perform_owned (c : call) (eo : AudioEngine Freq * list string)
  : AudioEngine Freq * list string :=
  let '(e, owner) := eo in
  match c, perform c e with
  | Trigger note _, Normal _ e' => (e', (owner ++ [note])%list)
  | _, o => (final_state o, owner)
  end.

Definition perform_all_owned (cs : list call) (e : AudioEngine Freq)
  : AudioEngine Freq * list string :=
  foldl (fun eo c => perform_owned c eo) (e, []) cs.

(** An oscillator that sounds and has no stop scheduled. *)
Definition live (e : AudioEngine Freq) (i : nat) : bool :=
  match osc_nodes e !! i with
  | Some o => started o && bool_decide (stop_time o = None)
  | None => false
  end.

(** The live voices of a note: the live oscillators its triggers created. *)
Definition live_voices (e : AudioEngine Freq) (owner : list string)
  (note : string) : list nat :=
  List.filter (fun i => live e i && bool_decide (owner !! i = Some note))
              (seq 0 (length (osc_nodes e))).

(** The entries the table holds under a note. *)
Definition entries (e : AudioEngine Freq) (note : string)
  : list (string * Voice) :=
  List.filter (fun kv => String.eqb (fst kv) note)
              (map_to_list (oscillators e)).

End Calls.

Arguments call : clear implicits.

(** ** The offline cache worker

    The [fetch] listener answers with a promise built from two asynchronous
    operations of the browser, [caches.match] and [fetch]. A computation is
    the tree of the operations it awaits; the browser is a cache storage and
    a network. *)

Section Worker.

Context {Request Response : Type}.

Inductive settled (A : Type) : Type :=
  | Fulfilled (a : A)
  | Rejected.

Inductive promise (A : Type) : Type :=
  | Settle (r : settled A)
  | CachesMatch (request : Request) (k : option Response -> promise A)
  | Fetch (request : Request) (k : settled Response -> promise A).
Arguments Fulfilled {A} a.
Arguments Rejected {A}.
Arguments Settle {A} r.
Arguments CachesMatch {A} request k.
Arguments Fetch {A} request k.

(** The promise handed to [event.respondWith]. *)
Definition on_fetch (request : Request) : promise Response :=
  CachesMatch request (fun response =>
    match response with
    | Some response => Settle (Fulfilled response)
    | None => Fetch request (fun r => Settle r)
    end).

(** The cache storage: the named caches in order of creation, each a list of
    stored request/response pairs. *)
Definition CacheStorage : Type := list (string * list (Request * Response)).

(** Whether a stored request answers a requested one is the Cache API's
    business. *)
Context (request_matches : Request -> Request -> bool).

Definition cache_match (request : Request) (cache : list (Request * Response))
  : option Response :=
  snd <$> List.find (fun entry => request_matches (fst entry) request) cache.

Fixpoint caches_match (request : Request) (caches : CacheStorage)
  : option Response :=
  match caches with
  | [] => None
  | (_, cache) :: caches' =>
      match cache_match request cache with
      | Some response => Some response
      | None => caches_match request caches'
      end
  end.

Inductive observation : Type :=
  | CacheLookup (request : Request)
  | NetworkRequest (request : Request).

(** Running a promise in a browser: what was asked of the cache and of the
    network, in order, and how the promise settled. *)
Fixpoint settle {A : Type} (caches : CacheStorage)
  (network : Request -> settled Response) (p : promise A)
  : list observation * settled A :=
  match p with
  | Settle r => ([], r)
  | CachesMatch request k =>
      let '(obs, r) := settle caches network (k (caches_match request caches)) in
      (CacheLookup request :: obs, r)
  | Fetch request k =>
      let '(obs, r) := settle caches network (k (network request)) in
      (NetworkRequest request :: obs, r)
  end.

End Worker.

Arguments promise : clear implicits.
Arguments observation : clear implicits.
Arguments CacheStorage : clear implicits.
Arguments Fulfilled {A} a.
Arguments Rejected {A}.
Arguments Settle {Request Response A} r.
Arguments CachesMatch {Request Response A} request k.
Arguments Fetch {Request Response A} request k.

(** ** The tuning the design document describes

    The twelve pitch classes with their index, and the equal-tempered
    frequency of an identity, as the document words them; [getFrequency]
    above is compared with this. *)

Inductive pitch_class : Type :=
  | pC | pCs | pD | pDs | pE | pF | pFs | pG | pGs | pA | pAs | pB.

Definition pitchClassIndex (p : pitch_class) : Z :=
  match p with
  | pC => 0 | pCs => 1 | pD => 2 | pDs => 3 | pE => 4 | pF => 5
  | pFs => 6 | pG => 7 | pGs => 8 | pA => 9 | pAs => 10 | pB => 11
  end.

Definition pitch_class_name (p : pitch_class) : string :=
  match p with
  | pC => "C" | pCs => "C#" | pD => "D" | pDs => "D#" | pE => "E" | pF => "F"
  | pFs => "F#" | pG => "G" | pGs => "G#" | pA => "A" | pAs => "A#" | pB => "B"
  end.

Definition semitoneDistance (p : pitch_class) (octave : Z) : Z :=
  (octave - 4) * 12 + (pitchClassIndex p - pitchClassIndex pA).

Definition frequencyOf (p : pitch_class) (octave : Z) : R :=
  (440 * Rpower 2 (IZR (semitoneDistance p octave) / 12))%R.

(** [String.prototype.toUpperCase] on ASCII text, to speak of the capital
    variant of a key. *)
Definition upper_ascii (c : ascii) : ascii :=
  let n := N_of_ascii c in
  if ((97 <=? n) && (n <=? 122))%N then ascii_of_N (n - 32) else c.

Fixpoint toUpperCase (s : string) : string :=
  match s with
  | EmptyString => EmptyString
  | String c s' => String (upper_ascii c) (toUpperCase s')
  end.

(** ** Notions the statements below are written with *)

(** *** Characters of a table key *)

Definition is_digit (c : ascii) : bool :=
  let n := N_of_ascii c in ((48 <=? n) && (n <=? 57))%N.

Definition digit_or_dash (c : ascii) : bool :=
  is_digit c || Ascii.eqb c "-".

Fixpoint all_digits (s : string) : bool :=
  match s with
  | EmptyString => true
  | String c s' => is_digit c && all_digits s'
  end.

Definition starts_numeric (s : string) : bool :=
  match s with
  | EmptyString => false
  | String c _ => digit_or_dash c
  end.

Fixpoint no_numeric (s : string) : bool :=
  match s with
  | EmptyString => true
  | String c s' => negb (digit_or_dash c) && no_numeric s'
  end.

Fixpoint ends_with_digit (s : string) : bool :=
  match s with
  | EmptyString => false
  | String c EmptyString => is_digit c
  | String _ s' => ends_with_digit s'
  end.

(** *** Shapes of the engine *)

Section EngineShapes.

Context {Freq : Type}.

(** The engine after the release of a registered voice, and after the
    creation and registration of a new one. *)
Definition released (note : string) (v : Voice) (e : AudioEngine Freq)
  : AudioEngine Freq :=
  {| currentTime := currentTime e;
     state := state e;
     osc_nodes :=
       alter (osc_stop (currentTime e + 0.1)) (osc v) (osc_nodes e);
     gain_nodes :=
       alter (release_envelope (currentTime e)) (gain_ref v) (gain_nodes e);
     masterGain := masterGain e;
     oscillators := delete note (oscillators e) |}.

Definition triggered (note : string) (f : Freq) (e : AudioEngine Freq)
  : AudioEngine Freq :=
  {| currentTime := currentTime e;
     state := state e;
     osc_nodes :=
       osc_nodes e
       ++ [new_oscillator f (currentTime e) (length (gain_nodes e))];
     gain_nodes := gain_nodes e ++ [attack_decay (currentTime e)];
     masterGain := masterGain e;
     oscillators :=
       <[note := {| osc := length (osc_nodes e);
                    gain_ref := length (gain_nodes e) |}]> (oscillators e) |}.

(** The table and the graph agree: [owner] has one note per oscillator, a
    registered voice is a live oscillator of its note, and a live oscillator
    is registered under the note that owns it. *)
Record table_inv (e : AudioEngine Freq) (owner : list string) : Prop := {
  inv_length : length owner = length (osc_nodes e);
  inv_registered :
    ∀ k v, oscillators e !! k = Some v →
           owner !! osc v = Some k ∧ live e (osc v) = true;
  inv_live :
    ∀ i k, live e i = true → owner !! i = Some k →
           ∃ v, oscillators e !! k = Some v ∧ osc v = i
}.

End EngineShapes.

(** A4 is triggered on a new engine whose clock reads 0. *)
Definition engine_A4 : AudioEngine Z :=
  final_state (playTone "A4" 440 (new_AudioEngine 0 Running)).

(** *** Shapes of the piano *)

(** The keys [renderPiano] builds, in closed form. *)
Definition rendered_key (startOctave : Z) (i : nat) : KeyElement :=
  let note := default "" (NOTES !! (i mod 12)%nat) in
  {| classList := ["key"; if includes note "#" then "black" else "white"];
     data_note := note;
     data_octave := startOctave + Z.of_nat i / 12;
     data_touchId := None |}.

Definition rendered (startOctave : Z) : list KeyElement :=
  map (rendered_key startOctave) (seq 0 13).

(** A computation that leaves the octave as it found it, whether it returns
    or throws. *)
Definition keeps_octave {A : Type} (c : M PianoUI A) : Prop :=
  ∀ s, octave (final_state (c s)) = octave s.


(** ** Further notions: the engine *)

Section EngineHistory.

Context {Freq : Type}.

(** The engine after a trigger, whether or not the note had a voice. *)
Definition retriggered (note : string) (f : Freq) (e : AudioEngine Freq)
  : AudioEngine Freq :=
  triggered note f
    match oscillators e !! note with
    | Some v => released note v e
    | None => e
    end.

(** The audio graph is wired as [playTone] wires it: oscillator and gain
    nodes come in pairs, each oscillator a started triangle wave feeding the
    gain of the same rank, each gain feeding the master gain, the master gain
    feeding the destination; a registered voice is such a pair. *)
Record wired (e : AudioEngine Freq) : Prop := {
  wired_pairs : length (osc_nodes e) = length (gain_nodes e);
  wired_osc :
    ∀ i o, osc_nodes e !! i = Some o →
           osc_type o = Triangle ∧ started o = true ∧ osc_output o = Some i;
  wired_gain :
    ∀ i g, gain_nodes e !! i = Some g → gain_output g = Some ToMasterGain;
  wired_master : gain_output (masterGain e) = Some ToDestination;
  wired_voice :
    ∀ k v, oscillators e !! k = Some v →
           gain_ref v = osc v ∧ (osc v < length (osc_nodes e))%nat
}.

(** What a later engine keeps of an earlier one: every oscillator is still
    there with its waveform, frequency and wiring, and a stop that was
    scheduled is still scheduled for the same time. *)
Definition keeps_nodes (e e' : AudioEngine Freq) : Prop :=
  ∀ i o, osc_nodes e !! i = Some o →
    ∃ o', osc_nodes e' !! i = Some o'
          ∧ osc_type o' = osc_type o
          ∧ frequency o' = frequency o
          ∧ osc_output o' = osc_output o
          ∧ started o' = started o
          ∧ (∀ t, stop_time o = Some t → stop_time o' = Some t).

End EngineHistory.

(** ** Further notions: the piano *)

(** What identifies a rendered key to the listeners: its note, its octave
    and whether it carries the class [key]. *)
Definition key_data (el : KeyElement) : string * Z * bool :=
  (data_note el, data_octave el, classList_contains "key" el).

(** The piano shows the keys of its octave, whatever marks they carry. *)
Definition well_rendered (s : PianoUI) : Prop :=
  key_data <$> piano s = key_data <$> rendered (octave s).

(** A computation on the piano that relates the state it ends in, returning
    or throwing, to the state it started from. *)
Definition preserves {A : Type} (R : PianoUI → PianoUI → Prop)
  (c : M PianoUI A) : Prop :=
  ∀ s, R s (final_state (c s)).

Definition same_keys (s s' : PianoUI) : Prop :=
  octave s' = octave s ∧ key_data <$> piano s' = key_data <$> piano s.

(** A key [el] that is the key [r] up to its marks: the class [active] at
    the end of the class list or not, and any touch tag. *)
Definition marks_of (r el : KeyElement) : Prop :=
  data_note el = data_note r ∧ data_octave el = data_octave r
  ∧ (classList el = classList r ∨ classList el = classList r ++ ["active"]).

(** The second state has the octave of the first, and shows up to marks
    each rendering the first shows up to marks. *)
Definition only_marks (s s' : PianoUI) : Prop :=
  octave s' = octave s
  ∧ ∀ o, Forall2 marks_of (rendered o) (piano s) →
         Forall2 marks_of (rendered o) (piano s').

(** The engine of the second state is the engine of the first after some
    calls. *)
Definition engine_calls (s s' : PianoUI) : Prop :=
  ∃ cs : list (call R), engine s' = perform_all cs (engine s).

(** The identity a physical key stands for at a given octave, as both
    keyboard listeners work it out from the entry of [KEY_MAP]. *)
Definition resolve (noteBase : string) (octave : Z) : string * Z :=
  if String.eqb noteBase "C2" then ("C", octave + 1) else (noteBase, octave).

(** The state [playKey] leaves for an element [el] at position [k]. *)
Definition played (k : nat) (el : KeyElement) (s : PianoUI) : PianoUI :=
  {| engine :=
       retriggered (voice_key (data_note el) (data_octave el))
                   (getFrequency (data_note el) (data_octave el))
                   (final_state (resume (engine s)));
     piano := alter (classList_add "active") k (piano s);
     octave := octave s;
     baseOctave := baseOctave s;
     isDragging := isDragging s;
     octave_display := octave_display s |}.

(** The state [stopKey] leaves for an element [el] at position [k]. *)
Definition stopped (k : nat) (el : KeyElement) (s : PianoUI) : PianoUI :=
  {| engine :=
       final_state (stopTone (voice_key (data_note el) (data_octave el))
                             (engine s));
     piano := alter (classList_remove "active") k (piano s);
     octave := octave s;
     baseOctave := baseOctave s;
     isDragging := isDragging s;
     octave_display := octave_display s |}.

(** The inner callback of the [touchend] listener: what is done, for a
    touch of identifier [t], with one key of the static list. *)
Definition touch_release (t : Z) (k : nat) : M PianoUI unit :=
  s <~ get ;;
  match piano s !! k with
  | Some key =>
      if bool_decide (data_touchId key = Some t)
      then stopKey k ;;; alter_key (set_touchId None) k
      else ret tt
  | None => ret tt
  end.

(** The table key of the identity a rendered key carries. *)
Definition identity_key (el : KeyElement) : string :=
  voice_key (data_note el) (data_octave el).

(** A key as the end of its touch leaves it. *)
Definition lifted (el : KeyElement) : KeyElement :=
  set_touchId None (classList_remove "active" el).

(** A key that is marked active and tagged with one of the identifiers. *)
Definition held_by (ids : list Z) (el : KeyElement) : bool :=
  classList_contains "key" el && classList_contains "active" el
  && match data_touchId el with
     | Some t => bool_decide (t ∈ ids)
     | None => false
     end.

(** The state the [touchstart] listener leaves for one touch of identifier
    [t] over the element [el] at position [k]. *)
Definition touched (t : Z) (k : nat) (el : KeyElement) (s : PianoUI)
  : PianoUI :=
  set_piano (alter (set_touchId (Some t)) k (piano (played k el s)))
            (played k el s).

(** ** Further notions: the life of the cache worker

    The [install] and [activate] listeners work on the cache storage through
    [caches.open], [cache.addAll], [caches.keys] and [caches.delete]; the
    asynchronous steps are taken one after the other. *)

Definition CACHE_NAME : string := "my-pwa-cache-v1".

Definition urlsToCache : list string :=
  ["/"; "index.html"; "icon-72.png"; "icon-192.png"].

Section WorkerLife.

Context {Request Response : Type}.
Context (request_matches : Request → Request → bool).

(** The request a URL stands for, and whether a response has an ok status:
    both are the browser's. *)
Context (new_Request : string → Request).
Context (ok : Response → bool).

(** [caches.open(name)]: the cache of that name, created empty after the
    others when there is none. *)
Definition caches_open (cacheName : string)
  (caches : CacheStorage Request Response) : CacheStorage Request Response :=
  if bool_decide (cacheName ∈ caches.*1) then caches
  else caches ++ [(cacheName, [])].

(** [cache.put]: the entries the request matches give way to the new one. *)
Definition cache_put (request : Request) (response : Response)
  (cache : list (Request * Response)) : list (Request * Response) :=
  List.filter (fun entry => negb (request_matches entry.1 request)) cache
  ++ [(request, response)].

(** The fetches of [cache.addAll]: one rejection, or one response whose
    status is not ok, rejects the whole. *)
Fixpoint fetch_all (network : Request → settled Response)
  (urls : list string) : settled (list (Request * Response)) :=
  match urls with
  | [] => Fulfilled []
  | url :: urls' =>
      match network (new_Request url) with
      | Fulfilled response =>
          if ok response then
            match fetch_all network urls' with
            | Fulfilled entries =>
                Fulfilled ((new_Request url, response) :: entries)
            | Rejected => Rejected
            end
          else Rejected
      | Rejected => Rejected
      end
  end.

(** The first cache of a name, changed by [f]. *)
Fixpoint with_cache (cacheName : string)
  (f : list (Request * Response) → list (Request * Response))
  (caches : CacheStorage Request Response) : CacheStorage Request Response :=
  match caches with
  | [] => []
  | (name, cache) :: caches' =>
      if String.eqb name cacheName then (name, f cache) :: caches'
      else (name, cache) :: with_cache cacheName f caches'
  end.

(** The [install] listener: the cache is opened, then [addAll] stores the
    responses to all the URLs of the list, or none. The result is the cache
    storage left and the promise given to [waitUntil]. *)
Definition on_install (network : Request → settled Response)
  (caches : CacheStorage Request Response)
  : CacheStorage Request Response * settled unit :=
  let opened := caches_open CACHE_NAME caches in
  match fetch_all network urlsToCache with
  | Fulfilled entries =>
      (with_cache CACHE_NAME
         (fun cache =>
            foldl (fun cache entry => cache_put entry.1 entry.2 cache)
                  cache entries)
         opened,
       Fulfilled tt)
  | Rejected => (opened, Rejected)
  end.

(** A cache holds an entry that answers the request. *)
Definition answers (cache : list (Request * Response)) (request : Request)
  : Prop :=
  ∃ entry, entry ∈ cache ∧ request_matches entry.1 request = true.

Definition caches_keys (caches : CacheStorage Request Response)
  : list string :=
  caches.*1.

Definition caches_delete (cacheName : string)
  (caches : CacheStorage Request Response) : CacheStorage Request Response :=
  List.filter (fun named => negb (String.eqb named.1 cacheName)) caches.

(** The [activate] listener: every cache whose name is not [CACHE_NAME] is
    deleted. *)
Definition on_activate (caches : CacheStorage Request Response)
  : CacheStorage Request Response :=
  foldl (fun caches cacheName =>
           if negb (String.eqb cacheName CACHE_NAME)
           then caches_delete cacheName caches
           else caches)
        caches (caches_keys caches).

End WorkerLife.

(** * Properties *)

(** ** Decimal text and table keys *)

Lemma pretty_N_char_digit (x : N) : is_digit (pretty_N_char x) = true.
Proof. unfold pretty_N_char. repeat case_match; reflexivity. Qed.

Lemma append_String (c : ascii) (s t : string) :
  String c s +:+ t = String c (s +:+ t).
Proof. reflexivity. Qed.

Lemma append_empty_l (t : string) : "" +:+ t = t.
Proof. reflexivity. Qed.

Lemma append_empty_r (s : string) : s +:+ "" = s.
Proof.
  induction s as [|c s IH]; [done|]. by rewrite append_String, IH.
Qed.

Lemma all_digits_app (s t : string) :
  all_digits (s +:+ t) = all_digits s && all_digits t.
Proof.
  induction s as [|c s IH]; [done|].
  rewrite append_String. simpl. rewrite IH. by destruct (is_digit c).
Qed.

Lemma string_app_assoc (s t u : string) : (s +:+ t) +:+ u = s +:+ (t +:+ u).
Proof.
  induction s as [|c s IH]; [done|]. by rewrite !append_String, IH.
Qed.

(** The digits [pretty_N_go] puts in front of its accumulator. *)
Lemma pretty_N_go_digits (x : N) (s : string) :
  ∃ t, all_digits t = true ∧ ((0 < x)%N → t ≠ "") ∧ pretty_N_go x s = t +:+ s.
Proof.
  revert s. induction (N.lt_wf_0 x) as [x _ IH]; intros s.
  destruct (decide (x = 0%N)) as [->|Hx].
  - exists "". rewrite pretty_N_go_0. split_and!; [done|lia|done].
  - rewrite pretty_N_go_step by lia.
    destruct (IH (x `div` 10)%N) with (s := String (pretty_N_char (x `mod` 10)) s)
      as (t & Ht & _ & ->).
    { apply N.div_lt; lia. }
    exists (t +:+ String (pretty_N_char (x `mod` 10)) "").
    split_and!.
    + rewrite all_digits_app, Ht. simpl. by rewrite pretty_N_char_digit.
    + intros _. by destruct t.
    + by rewrite string_app_assoc.
Qed.

Lemma pretty_N_digits (x : N) :
  all_digits (pretty x) = true ∧ pretty x ≠ "".
Proof.
  unfold pretty, pretty_N. case_decide as Hx; [done|].
  destruct (pretty_N_go_digits x "") as (t & Ht & Hne & ->).
  rewrite append_empty_r.
  split; [done|]. apply Hne. lia.
Qed.

Lemma all_digits_starts (s : string) :
  all_digits s = true → s ≠ "" → starts_numeric s = true.
Proof.
  destruct s as [|c s]; [done|]. simpl. unfold digit_or_dash.
  intros [-> _]%andb_prop _. done.
Qed.

Lemma all_digits_ends (s : string) :
  all_digits s = true → s ≠ "" → ends_with_digit s = true.
Proof.
  induction s as [|c s IH]; [done|]. simpl.
  intros [Hc Hs]%andb_prop _. destruct s as [|d s]; [done|].
  apply IH; done.
Qed.

Lemma pretty_Z_starts_numeric (z : Z) : starts_numeric (pretty z) = true.
Proof.
  destruct z as [|p|p]; [done| |done].
  destruct (pretty_N_digits (N.pos p)). by apply all_digits_starts.
Qed.

Lemma ends_with_digit_app (s t : string) :
  t ≠ "" → ends_with_digit (s +:+ t) = ends_with_digit t.
Proof.
  intros Ht. induction s as [|c s IH]; [done|].
  rewrite append_String. simpl. rewrite IH.
  destruct (s +:+ t) eqn:E; [|done].
  destruct s; [by rewrite append_empty_l in E|by rewrite append_String in E].
Qed.

Lemma pretty_Z_ends_with_digit (z : Z) :
  ends_with_digit (pretty z) = true ∧ pretty z ≠ "".
Proof.
  destruct z as [|p|p]; [done| |].
  - destruct (pretty_N_digits (N.pos p)). split; [by apply all_digits_ends|done].
  - destruct (pretty_N_digits (N.pos p)) as [Hd Hne].
    change (pretty (Z.neg p)) with ("-" +:+ pretty (N.pos p)).
    split; [|done]. rewrite ends_with_digit_app by done. by apply all_digits_ends.
Qed.

(** No key built from a note and an octave names a member of
    [Object.prototype]: it ends with a digit. *)
Lemma voice_key_not_inherited (note : string) (octave : Z) :
  voice_key note octave ∉ Object_prototype.
Proof.
  intros Hin.
  assert (ends_with_digit (voice_key note octave) = true) as Hd.
  { unfold voice_key. destruct (pretty_Z_ends_with_digit octave) as [? ?].
    by rewrite ends_with_digit_app. }
  assert (Forall (fun k => ends_with_digit k = false) Object_prototype) as Hall.
  { unfold Object_prototype. repeat constructor. }
  rewrite Forall_forall in Hall. apply Hall in Hin. congruence.
Qed.

(** Splitting a key into a note without numerals and a decimal text is
    unambiguous. *)
Lemma note_octave_split (n1 n2 d1 d2 : string) :
  no_numeric n1 = true → no_numeric n2 = true →
  starts_numeric d1 = true → starts_numeric d2 = true →
  n1 +:+ d1 = n2 +:+ d2 → n1 = n2 ∧ d1 = d2.
Proof.
  revert n2. induction n1 as [|a n1 IH]; intros [|b n2];
    rewrite ?append_String, ?append_empty_l; simpl.
  - done.
  - intros _ [Hb _]%andb_prop Hd1 _ ->. simpl in Hd1.
    rewrite Hd1 in Hb. done.
  - intros [Ha _]%andb_prop _ _ Hd2 <-. simpl in Hd2.
    rewrite Hd2 in Ha. done.
  - intros [_ H1]%andb_prop [_ H2]%andb_prop Hd1 Hd2 [= -> Heq].
    destruct (IH n2 H1 H2 Hd1 Hd2 Heq) as [-> ->]. done.
Qed.

(** ** The voice engine *)

Section EngineFacts.

Context {Freq : Type}.
Implicit Types (e : AudioEngine Freq) (v : Voice) (note k : string).

Lemma js_get_own (o : gmap string Voice) k v :
  o !! k = Some v → js_get o k = Own v.
Proof. unfold js_get. by intros ->. Qed.

Lemma js_get_none (V : Type) (o : gmap string V) k :
  o !! k = None → k ∉ Object_prototype → js_get o k = Undefined.
Proof.
  unfold js_get. intros -> Hk. by rewrite bool_decide_eq_false_2.
Qed.

Lemma js_get_inherited (V : Type) (o : gmap string V) k :
  o !! k = None → k ∈ Object_prototype → js_get o k = Inherited.
Proof.
  unfold js_get. intros -> Hk. by rewrite bool_decide_eq_true_2.
Qed.

Lemma stopTone_own e note v :
  oscillators e !! note = Some v →
  stopTone note e = Normal tt (released note v e).
Proof.
  intros Hv. unfold stopTone, bind, get. by rewrite (js_get_own _ _ _ Hv).
Qed.

Lemma stopTone_none e note :
  oscillators e !! note = None → note ∉ Object_prototype →
  stopTone note e = Normal tt e.
Proof.
  intros Hv Hk. unfold stopTone, bind, get. by rewrite js_get_none.
Qed.

Lemma stopTone_inherited e note :
  oscillators e !! note = None → note ∈ Object_prototype →
  stopTone note e = Thrown TypeError e.
Proof.
  intros Hv Hk. unfold stopTone, bind, get. by rewrite js_get_inherited.
Qed.

Lemma playTone_own e note f v :
  oscillators e !! note = Some v →
  playTone note f e = Normal tt (triggered note f (released note v e)).
Proof.
  intros Hv. unfold playTone, bind, get.
  rewrite (js_get_own _ _ _ Hv). simpl.
  by rewrite (stopTone_own _ _ _ Hv).
Qed.

Lemma playTone_none e note f :
  oscillators e !! note = None → note ∉ Object_prototype →
  playTone note f e = Normal tt (triggered note f e).
Proof.
  intros Hv Hk. unfold playTone, bind, get. by rewrite js_get_none.
Qed.

Lemma playTone_inherited e note f :
  oscillators e !! note = None → note ∈ Object_prototype →
  playTone note f e = Thrown TypeError e.
Proof.
  intros Hv Hk. unfold playTone, bind, get.
  rewrite js_get_inherited by done. simpl.
  by rewrite stopTone_inherited.
Qed.

Lemma live_lt e i : live e i = true → (i < length (osc_nodes e))%nat.
Proof.
  unfold live. destruct (osc_nodes e !! i) eqn:E; [|done].
  intros _. by eapply lookup_lt_Some.
Qed.

Lemma live_released_ne e note v i :
  i ≠ osc v → live (released note v e) i = live e i.
Proof.
  intros Hi. unfold live, released. simpl.
  by rewrite list_lookup_alter_ne by lia.
Qed.

Lemma live_released_eq e note v : live (released note v e) (osc v) = false.
Proof.
  unfold live, released. simpl. rewrite list_lookup_alter_eq.
  destruct (osc_nodes e !! osc v) as [o|]; [|done]. simpl.
  by destruct (started o).
Qed.

Lemma live_triggered_lt e note f i :
  (i < length (osc_nodes e))%nat → live (triggered note f e) i = live e i.
Proof.
  intros Hi. unfold live, triggered. simpl. by rewrite lookup_app_l.
Qed.

Lemma live_triggered_new e note f :
  live (triggered note f e) (length (osc_nodes e)) = true.
Proof.
  unfold live, triggered. simpl.
  rewrite lookup_app_r by lia. by rewrite Nat.sub_diag.
Qed.

Lemma table_inv_released e owner note v :
  table_inv e owner → oscillators e !! note = Some v →
  table_inv (released note v e) owner.
Proof.
  intros [Hlen Hreg Hlive] Hv.
  destruct (Hreg _ _ Hv) as [Hown Hl].
  split.
  - simpl. by rewrite length_alter.
  - intros k v'. simpl. rewrite lookup_delete_Some. intros [Hne Hv'].
    destruct (Hreg _ _ Hv') as [Hown' Hl']. split; [done|].
    rewrite live_released_ne; [done|]. intros Heq. rewrite Heq in Hown'.
    congruence.
  - intros i k Hi Hk.
    destruct (decide (i = osc v)) as [->|Hne].
    { by rewrite live_released_eq in Hi. }
    rewrite live_released_ne in Hi by done.
    destruct (Hlive _ _ Hi Hk) as (v' & Hv' & <-).
    exists v'. split; [|done]. simpl. apply lookup_delete_Some.
    split; [|done]. intros <-. congruence.
Qed.

Lemma table_inv_triggered e owner note f :
  table_inv e owner → oscillators e !! note = None →
  table_inv (triggered note f e) (owner ++ [note]).
Proof.
  intros [Hlen Hreg Hlive] Hnone. split.
  - simpl. rewrite !length_app, Hlen. done.
  - intros k v'. simpl. rewrite lookup_insert_Some.
    intros [[<- <-]|[Hne Hv']]; simpl.
    + split; [|apply live_triggered_new].
      rewrite lookup_app_r by lia. by rewrite Hlen, Nat.sub_diag.
    + destruct (Hreg _ _ Hv') as [Hown Hl]. split.
      * by apply lookup_app_l_Some.
      * rewrite live_triggered_lt; [done|by apply live_lt].
  - intros i k Hi Hk.
    destruct (decide (i < length (osc_nodes e))%nat) as [Hlt|Hge].
    + rewrite live_triggered_lt in Hi by done.
      rewrite lookup_app_l in Hk by lia.
      destruct (Hlive _ _ Hi Hk) as (v' & Hv' & <-).
      exists v'. split; [|done]. simpl. rewrite lookup_insert_ne; [done|].
      intros <-. congruence.
    + apply live_lt in Hi as Hi'. simpl in Hi'. rewrite length_app in Hi'.
      simpl in Hi'. assert (i = length (osc_nodes e)) as -> by lia.
      rewrite lookup_app_r in Hk by lia.
      rewrite Hlen, Nat.sub_diag in Hk. simplify_eq/=.
      eexists. split; [apply lookup_insert_eq|done].
Qed.

Lemma table_inv_frame e e' owner :
  osc_nodes e' = osc_nodes e → oscillators e' = oscillators e →
  table_inv e owner → table_inv e' owner.
Proof.
  intros Hn Ho [Hlen Hreg Hlive].
  split; unfold live in *; rewrite ?Hn, ?Ho; done.
Qed.

Lemma table_inv_new now st :
  table_inv (new_AudioEngine (Freq := Freq) now st) [].
Proof.
  split; [done| |]; simpl.
  - intros k v. by rewrite lookup_empty.
  - intros i k. by rewrite lookup_nil.
Qed.

Lemma table_inv_perform (c : call Freq) e owner :
  table_inv e owner →
  table_inv (perform_owned c (e, owner)).1 (perform_owned c (e, owner)).2.
Proof.
  intros Hinv. destruct c as [note f|note|v| |dt]; simpl.
  - destruct (oscillators e !! note) as [v|] eqn:Hv.
    + rewrite (playTone_own _ _ _ _ Hv). simpl.
      apply table_inv_triggered.
      * by apply table_inv_released.
      * simpl. apply lookup_delete_eq.
    + destruct (decide (note ∈ Object_prototype)).
      * rewrite playTone_inherited by done. done.
      * rewrite playTone_none by done. simpl. by apply table_inv_triggered.
  - destruct (oscillators e !! note) as [v|] eqn:Hv.
    + rewrite (stopTone_own _ _ _ Hv). simpl. by apply table_inv_released.
    + destruct (decide (note ∈ Object_prototype)).
      * rewrite stopTone_inherited by done. done.
      * rewrite stopTone_none by done. done.
  - by apply (table_inv_frame e).
  - unfold resume, modify. simpl. destruct (state e); by apply (table_inv_frame e).
  - by apply (table_inv_frame e).
Qed.

Lemma table_inv_foldl (cs : list (call Freq)) e owner :
  table_inv e owner →
  table_inv (foldl (fun eo c => perform_owned c eo) (e, owner) cs).1
            (foldl (fun eo c => perform_owned c eo) (e, owner) cs).2.
Proof.
  revert e owner. induction cs as [|c cs IH]; intros e owner Hinv; [done|].
  cbn [foldl]. pose proof (table_inv_perform c e owner Hinv) as Hstep.
  destruct (perform_owned c (e, owner)) as [e' owner']. by apply IH.
Qed.

Lemma filter_seq_none (p : nat → bool) (a n : nat) :
  (∀ i, (a ≤ i < a + n)%nat → p i = false) → List.filter p (seq a n) = [].
Proof.
  revert a. induction n as [|n IH]; intros a Hp; [done|]. simpl.
  rewrite Hp by lia. apply IH. intros i Hi. apply Hp. lia.
Qed.

Lemma filter_seq_one (p : nat → bool) (a n j : nat) :
  (a ≤ j < a + n)%nat →
  (∀ i, (a ≤ i < a + n)%nat → p i = bool_decide (i = j)) →
  List.filter p (seq a n) = [j].
Proof.
  revert a. induction n as [|n IH]; intros a Hj Hp; [lia|]. simpl.
  rewrite Hp by lia. case_bool_decide as Ha.
  - subst a. f_equal. apply filter_seq_none. intros i Hi.
    rewrite Hp by lia. apply bool_decide_eq_false_2. lia.
  - apply IH; [lia|]. intros i Hi. apply Hp. lia.
Qed.

(** Under the invariant, the live voices of a note are what the table holds
    for it. *)
Lemma live_voices_table e owner note :
  table_inv e owner →
  live_voices e owner note =
    match oscillators e !! note with
    | Some v => [osc v]
    | None => []
    end.
Proof.
  intros [Hlen Hreg Hlive]. unfold live_voices.
  destruct (oscillators e !! note) as [v|] eqn:Hv.
  - destruct (Hreg _ _ Hv) as [Hown Hl].
    apply filter_seq_one.
    + apply live_lt in Hl. lia.
    + intros i _. destruct (decide (i = osc v)) as [->|Hi].
      * rewrite Hl, !bool_decide_eq_true_2; done.
      * rewrite (bool_decide_eq_false_2 (i = osc v)) by done.
        destruct (live e i) eqn:Hli; [|done]. simpl.
        apply bool_decide_eq_false_2. intros Hk.
        destruct (Hlive _ _ Hli Hk) as (v' & Hv' & Heq). congruence.
  - apply filter_seq_none. intros i _.
    destruct (live e i) eqn:Hli; [|done]. simpl.
    apply bool_decide_eq_false_2. intros Hk.
    destruct (Hlive _ _ Hli Hk) as (v' & Hv' & Heq). congruence.
Qed.

Lemma entries_lookup e note :
  entries e note =
    match oscillators e !! note with
    | Some v => [(note, v)]
    | None => []
    end.
Proof.
  unfold entries.
  assert (∀ l : list (string * Voice), NoDup l.*1 →
            List.filter (fun kv => String.eqb kv.1 note) l =
            match List.find (fun kv => String.eqb kv.1 note) l with
            | Some kv => [kv]
            | None => []
            end) as Hfilter.
  { induction l as [|[k v] l IH]; [done|]. simpl.
    rewrite NoDup_cons. intros [Hk Hnd]. destruct (String.eqb_spec k note) as [->|Hne].
    - f_equal. clear IH. induction l as [|[k' v'] l IH]; [done|]. simpl.
      destruct (String.eqb_spec k' note) as [->|Hne].
      + exfalso. apply Hk. simpl. left.
      + apply IH.
        * intros Hin. apply Hk. simpl. by right.
        * simpl in Hnd. by apply NoDup_cons in Hnd as [_ ?].
    - by apply IH. }
  rewrite Hfilter by apply NoDup_fst_map_to_list.
  destruct (oscillators e !! note) as [v|] eqn:Hv.
  - apply elem_of_map_to_list in Hv.
    destruct (List.find _ _) as [[k v']|] eqn:Hf.
    + apply find_some in Hf as [Hin Hk]. simpl in Hk.
      apply String.eqb_eq in Hk as ->.
      apply list_elem_of_In, elem_of_map_to_list in Hin.
      apply elem_of_map_to_list in Hv. congruence.
    + apply list_elem_of_In in Hv.
      eapply find_none in Hf; [|exact Hv]. simpl in Hf.
      by rewrite String.eqb_refl in Hf.
  - destruct (List.find _ _) as [[k v']|] eqn:Hf; [|done].
    apply find_some in Hf as [Hin Hk]. simpl in Hk.
    apply String.eqb_eq in Hk as ->.
    apply list_elem_of_In, elem_of_map_to_list in Hin. congruence.
Qed.

End EngineFacts.

Section EngineClaims.

Context {Freq : Type}.
Implicit Types (e : AudioEngine Freq) (v : Voice) (note k : string).

Lemma perform_all_owned_fst (cs : list (call Freq)) e :
  (perform_all_owned cs e).1 = perform_all cs e.
Proof.
  unfold perform_all_owned, perform_all. generalize (@nil string) as owner.
  revert e. induction cs as [|c cs IH]; intros e owner; [done|].
  cbn [foldl].
  assert (∃ owner', perform_owned c (e, owner)
                    = (final_state (perform c e), owner')) as [owner' ->].
  { unfold perform_owned. destruct c; [|by eexists..].
    destruct (perform _ e); by eexists. }
  apply IH.
Qed.

Lemma table_inv_reachable (now : Q) (st : context_state)
  (cs : list (call Freq)) :
  table_inv (perform_all_owned cs (new_AudioEngine now st)).1
            (perform_all_owned cs (new_AudioEngine now st)).2.
Proof. apply table_inv_foldl, table_inv_new. Qed.

(** C1. Whatever calls the engine has received since it was built, every
    identity has at most one live voice and at most one entry in the table;
    and two triggers of the same identity in a row both return, the second
    stopping and unregistering the voice of the first before it registers its
    own, so that the table then holds exactly one entry for the identity and
    that entry is its only live voice. *)
Theorem one_live_voice_per_identity
  (now : Q) (st : context_state) (cs : list (call Freq))
  (note : string) (octave : Z) (f1 f2 : Freq) :
  let eo := perform_all_owned cs (new_AudioEngine now st) in
  let k := voice_key note octave in
  (length (live_voices eo.1 eo.2 k) ≤ 1)%nat ∧
  (length (entries eo.1 k) ≤ 1)%nat ∧
  ∃ e1 e2 v1 v2,
    playTone k f1 eo.1 = Normal tt e1 ∧
    playTone k f2 e1 = Normal tt e2 ∧
    oscillators e1 !! k = Some v1 ∧
    entries e2 k = [(k, v2)] ∧
    live_voices e2 (eo.2 ++ [k; k]) k = [osc v2] ∧
    osc v1 ≠ osc v2 ∧
    live e2 (osc v1) = false.
Proof.
  intros eo k. pose proof (table_inv_reachable now st cs) as Hinv.
  fold eo in Hinv. destruct eo as [e owner]. simpl in *.
  split_and!.
  - rewrite (live_voices_table _ _ _ Hinv).
    destruct (oscillators e !! k); simpl; lia.
  - rewrite entries_lookup. destruct (oscillators e !! k); simpl; lia.
  - pose proof (voice_key_not_inherited note octave) as Hk. fold k in Hk.
    assert (∃ e1, playTone k f1 e = Normal tt e1 ∧ table_inv e1 (owner ++ [k])
                  ∧ oscillators e1 !! k
                    = Some {| osc := length (osc_nodes e);
                              gain_ref := length (gain_nodes e) |}
                  ∧ length (osc_nodes e1) = S (length (osc_nodes e)))
      as (e1 & Hplay1 & Hinv1 & Hv1 & Hlen1).
    { destruct (oscillators e !! k) as [v0|] eqn:Hv0.
      - eexists. split; [by apply playTone_own|]. split_and!.
        + apply table_inv_triggered; [by apply table_inv_released|].
          simpl. apply lookup_delete_eq.
        + simpl. rewrite !length_alter. apply lookup_insert_eq.
        + simpl. rewrite length_app, length_alter. simpl. lia.
      - eexists. split; [by apply playTone_none|]. split_and!.
        + by apply table_inv_triggered.
        + simpl. apply lookup_insert_eq.
        + simpl. rewrite length_app. simpl. lia. }
    set (v1 := {| osc := length (osc_nodes e);
                  gain_ref := length (gain_nodes e) |}) in *.
    exists e1, (triggered k f2 (released k v1 e1)), v1,
      {| osc := length (osc_nodes (released k v1 e1));
         gain_ref := length (gain_nodes (released k v1 e1)) |}.
    assert (table_inv (triggered k f2 (released k v1 e1))
                      ((owner ++ [k]) ++ [k])) as Hinv2.
    { apply table_inv_triggered; [by apply table_inv_released|].
      simpl. apply lookup_delete_eq. }
    split_and!.
    + done.
    + by apply playTone_own.
    + done.
    + rewrite entries_lookup. simpl. by rewrite lookup_insert_eq.
    + replace (owner ++ [k; k]) with ((owner ++ [k]) ++ [k])
        by (by rewrite <- app_assoc).
      rewrite (live_voices_table _ _ _ Hinv2). simpl.
      by rewrite lookup_insert_eq.
    + simpl. rewrite length_alter. lia.
    + rewrite live_triggered_lt.
      * apply live_released_eq.
      * simpl. rewrite length_alter. simpl. lia.
Qed.

(** C3, as the code has it. A trigger that finds a voice registered for its
    note returns, and before the new voice is created the old one is released
    as [stopTone] releases it: the changes scheduled on its gain from the
    current time on are cancelled, the gain is held and then ramped down to
    0.001 over the next 0.1 s, the source is told to stop at the end of that
    ramp, which is later than the current time, and the entry is removed; the
    entry the table holds afterwards is a fresh, live oscillator. *)
Theorem retrigger_releases_old_voice e note (f : Freq) v o g :
  oscillators e !! note = Some v →
  osc_nodes e !! osc v = Some o →
  gain_nodes e !! gain_ref v = Some g →
  let now := currentTime e in
  ∃ e' o' g' v',
    playTone note f e = Normal tt e' ∧
    osc_nodes e' !! osc v = Some o' ∧
    stop_time o' = Some (now + 0.1)%Q ∧
    (now < now + 0.1)%Q ∧
    gain_nodes e' !! gain_ref v = Some g' ∧
    timeline (gain g') =
      List.filter (fun a => negb (Qle_bool now (automation_time a)))
                  (timeline (gain g))
      ++ [ SetValueAtTime CurrentValue now;
           ExponentialRampToValueAtTime 0.001 (now + 0.1) ] ∧
    oscillators e' !! note = Some v' ∧
    osc v' = length (osc_nodes e) ∧
    osc v' ≠ osc v ∧
    live e' (osc v') = true ∧
    live e' (osc v) = false.
Proof.
  intros Hv Ho Hg now.
  pose proof (lookup_lt_Some _ _ _ Ho) as Hlto.
  pose proof (lookup_lt_Some _ _ _ Hg) as Hltg.
  exists (triggered note f (released note v e)),
    (osc_stop (now + 0.1) o), (release_envelope now g),
    {| osc := length (osc_nodes (released note v e));
       gain_ref := length (gain_nodes (released note v e)) |}.
  split_and!.
  - by apply playTone_own.
  - simpl. rewrite lookup_app_l by (by rewrite length_alter).
    by rewrite list_lookup_alter_eq, Ho.
  - done.
  - rewrite <- (Qplus_0_r now) at 1. apply Qplus_lt_r. reflexivity.
  - simpl. rewrite lookup_app_l by (by rewrite length_alter).
    by rewrite list_lookup_alter_eq, Hg.
  - simpl. by rewrite <- app_assoc.
  - simpl. by rewrite lookup_insert_eq.
  - simpl. by rewrite length_alter.
  - simpl. rewrite length_alter. lia.
  - exact (live_triggered_new (released note v e) note f).
  - rewrite live_triggered_lt.
    + apply live_released_eq.
    + simpl. by rewrite length_alter.
Qed.

(** C4. Releasing an identity for which the table holds no voice returns
    without raising and leaves the whole engine as it was. *)
Theorem release_without_voice_is_noop e (note : string) (octave : Z) :
  oscillators e !! voice_key note octave = None →
  stopTone (voice_key note octave) e = Normal tt e.
Proof.
  intros Hnone. apply stopTone_none; [done|]. apply voice_key_not_inherited.
Qed.

End EngineClaims.

(** C3, as stated, fails: re-triggering A4 at time 0 leaves the old source
    with a stop scheduled at 0.1, after the current time, and the old gain
    with a ramp down to 0.001 ending at 0.1. *)
Lemma retrigger_is_not_immediate :
  ∃ v e' o g,
    oscillators engine_A4 !! "A4" = Some v ∧
    playTone "A4" 440 engine_A4 = Normal tt e' ∧
    osc_nodes e' !! osc v = Some o ∧
    gain_nodes e' !! gain_ref v = Some g ∧
    stop_time o = Some 0.1%Q ∧
    ¬ (0.1 == currentTime engine_A4)%Q ∧
    (currentTime engine_A4 < 0.1)%Q ∧
    last (timeline (gain g)) = Some (ExponentialRampToValueAtTime 0.001 0.1).
Proof.
  eexists _, _, _, _. split_and!.
  - vm_compute. reflexivity.
  - vm_compute. reflexivity.
  - vm_compute. reflexivity.
  - vm_compute. reflexivity.
  - reflexivity.
  - vm_compute. discriminate.
  - vm_compute. reflexivity.
  - reflexivity.
Qed.

Lemma retrigger_releases_old_voice_witness :
  ∃ e' o' g' v',
    playTone "A4" 880 engine_A4 = Normal tt e' ∧
    osc_nodes e' !! 0%nat = Some o' ∧
    stop_time o' = Some (0 + 0.1)%Q ∧
    (0 < 0 + 0.1)%Q ∧
    gain_nodes e' !! 0%nat = Some g' ∧
    timeline (gain g') =
      [ SetValueAtTime CurrentValue 0;
        ExponentialRampToValueAtTime 0.001 (0 + 0.1) ] ∧
    oscillators e' !! "A4" = Some v' ∧
    osc v' = 1%nat ∧
    osc v' ≠ 0%nat ∧
    live e' (osc v') = true ∧
    live e' 0 = false.
Proof.
  apply (retrigger_releases_old_voice engine_A4 "A4" 880
           {| osc := 0; gain_ref := 0 |}
           (new_oscillator 440 0 0) (attack_decay 0)).
  - vm_compute. reflexivity.
  - reflexivity.
  - reflexivity.
Defined.

Lemma release_without_voice_is_noop_witness :
  oscillators engine_A4 !! voice_key "C#" 4 = None ∧
  stopTone (voice_key "C#" 4) engine_A4 = Normal tt engine_A4.
Proof.
  split.
  - vm_compute. reflexivity.
  - apply (release_without_voice_is_noop engine_A4 "C#" 4).
    vm_compute. reflexivity.
Defined.

(** ** The piano *)

Lemma renderPiano_rendered (s : PianoUI) :
  renderPiano s = Normal tt (set_piano (rendered (octave s)) s).
Proof. reflexivity. Qed.

Lemma indexOf_pitch_class (p : pitch_class) :
  indexOf NOTES (pitch_class_name p) = pitchClassIndex p.
Proof. destruct p; reflexivity. Qed.

(** C2. Over the reals, for each of the twelve pitch classes and every
    octave, the frequency computed for the identity is 440 * 2^(d/12) with d
    the distance in semitones from A4, the pitch classes being indexed from
    C = 0 to B = 11 with A = 9; A4 is 440 Hz and A5 is 880 Hz. *)
Theorem getFrequency_equal_tempered (p : pitch_class) (octave : Z) :
  getFrequency (pitch_class_name p) octave
  = (440 * Rpower 2
             (IZR ((octave - 4) * 12 + (pitchClassIndex p - pitchClassIndex pA))
              / 12))%R
  ∧ getFrequency (pitch_class_name p) octave = frequencyOf p octave
  ∧ map pitch_class_name [pC; pCs; pD; pDs; pE; pF; pFs; pG; pGs; pA; pAs; pB]
    = NOTES
  ∧ map pitchClassIndex [pC; pCs; pD; pDs; pE; pF; pFs; pG; pGs; pA; pAs; pB]
    = [0; 1; 2; 3; 4; 5; 6; 7; 8; 9; 10; 11]
  ∧ getFrequency "A" 4 = 440%R
  ∧ getFrequency "A" 5 = 880%R.
Proof.
  assert (getFrequency (pitch_class_name p) octave = frequencyOf p octave) as H.
  { unfold getFrequency, frequencyOf, semitonesFromA4, semitoneDistance.
    by rewrite indexOf_pitch_class. }
  split_and!; [by rewrite H|done|done|done| |].
  - unfold getFrequency.
    replace (semitonesFromA4 "A" 4) with 0 by reflexivity.
    replace (0 / 12)%R with 0%R by lra.
    rewrite Rpower_O by lra. lra.
  - unfold getFrequency.
    replace (semitonesFromA4 "A" 5) with 12 by reflexivity.
    replace (12 / 12)%R with 1%R by lra.
    rewrite Rpower_1 by lra. lra.
Qed.

Section KeyFacts.

Context {Freq : Type}.
Implicit Types (e : AudioEngine Freq).

Lemma NOTES_no_numeric (n : string) : n ∈ NOTES → no_numeric n = true.
Proof.
  assert (Forall (fun n => no_numeric n = true) NOTES) as Hall.
  { unfold NOTES. repeat constructor. }
  rewrite Forall_forall in Hall. apply Hall.
Qed.




End KeyFacts.


(** ** The keyboard *)

Lemma keydown_lowercase (e e' : KeyboardEvent) :
  toLowerCase (key e) = toLowerCase (key e') → repeat e = repeat e' →
  keydown e = keydown e'.
Proof. unfold keydown. by intros -> ->. Qed.

Lemma keyup_lowercase (e e' : KeyboardEvent) :
  toLowerCase (key e) = toLowerCase (key e') → keyup e = keyup e'.
Proof. unfold keyup. by intros ->. Qed.

Lemma KEY_MAP_keys (k : string) :
  is_Some (KEY_MAP !! k) →
  k ∈ ["a"; "w"; "s"; "e"; "d"; "f"; "t"; "g"; "y"; "h"; "u"; "j"; "k"].
Proof.
  intros [v Hv]. unfold KEY_MAP in Hv.
  apply elem_of_list_to_map_2 in Hv.
  repeat (apply elem_of_cons in Hv as [[= -> ->]|Hv]; [set_solver|]).
  by apply elem_of_nil in Hv.
Qed.

Lemma js_get_KEY_MAP (k noteBase : string) :
  KEY_MAP !! k = Some noteBase → js_get KEY_MAP k = Own noteBase.
Proof. unfold js_get. by intros ->. Qed.

Lemma keydown_eq (e : KeyboardEvent) (noteBase : string) (s : PianoUI) :
  repeat e = false → KEY_MAP !! toLowerCase (key e) = Some noteBase →
  keydown e s
  = match querySelector_key (resolve noteBase (octave s)).1
                            (resolve noteBase (octave s)).2 s with
    | Some k => playKey k s
    | None => Normal tt s
    end.
Proof.
  intros Hr Hk. unfold keydown. rewrite Hr, (js_get_KEY_MAP _ _ Hk).
  unfold bind, get, resolve. destruct (String.eqb noteBase "C2"); simpl;
    by destruct (querySelector_key _ _ s).
Qed.

Lemma keyup_eq (e : KeyboardEvent) (noteBase : string) (s : PianoUI) :
  KEY_MAP !! toLowerCase (key e) = Some noteBase →
  keyup e s
  = match querySelector_key (resolve noteBase (octave s)).1
                            (resolve noteBase (octave s)).2 s with
    | Some k => stopKey k s
    | None => Normal tt s
    end.
Proof.
  intros Hk. unfold keyup. rewrite (js_get_KEY_MAP _ _ Hk).
  unfold bind, get, resolve. destruct (String.eqb noteBase "C2"); simpl;
    by destruct (querySelector_key _ _ s).
Qed.

(** C10. Both keyboard listeners consult the key table with the lowercased
    key. For each of the thirteen mapped keys the capital letter is a
    different key value that lowercases to the mapped one and finds the same
    entry of the table; so both listeners do for it exactly what they do for
    the small letter, and what they do is this: the entry is resolved to an
    identity at the current octave, the entry [C2] standing for C of the next
    octave, the first rendered key of that note and octave is looked up, and
    the key-down listener plays that key, the key-up listener stops it;
    when no such key is shown the listener returns without doing anything. *)
Theorem keyboard_is_case_insensitive (k noteBase : string) (r : bool) :
  KEY_MAP !! k = Some noteBase →
  toUpperCase k ≠ k
  ∧ toLowerCase (toUpperCase k) = toLowerCase k
  ∧ js_get KEY_MAP (toLowerCase (toUpperCase k)) = js_get KEY_MAP k
  ∧ keydown {| key := toUpperCase k; repeat := r |}
    = keydown {| key := k; repeat := r |}
  ∧ keyup {| key := toUpperCase k; repeat := r |}
    = keyup {| key := k; repeat := r |}
  ∧ js_get KEY_MAP (toLowerCase (toUpperCase k)) = Own noteBase
  ∧ ∀ s : PianoUI,
      let target :=
        querySelector_key (resolve noteBase (octave s)).1
                          (resolve noteBase (octave s)).2 s in
      keydown {| key := toUpperCase k; repeat := false |} s
      = match target with
        | Some i => playKey i s
        | None => Normal tt s
        end
      ∧ keyup {| key := toUpperCase k; repeat := r |} s
        = match target with
          | Some i => stopKey i s
          | None => Normal tt s
          end.
Proof.
  intros Hmap.
  assert (is_Some (KEY_MAP !! k)) as Hk%KEY_MAP_keys by (by eexists).
  assert (toUpperCase k ≠ k ∧ toLowerCase (toUpperCase k) = toLowerCase k
          ∧ toLowerCase k = k) as (Hne & Hlow & Hid).
  { repeat (apply elem_of_cons in Hk as [->|Hk]; [by split_and!|]).
    by apply elem_of_nil in Hk. }
  assert (KEY_MAP !! toLowerCase (toUpperCase k) = Some noteBase) as Hup
    by (by rewrite Hlow, Hid).
  split_and!; [done|done| | | | |].
  - by rewrite Hlow, Hid.
  - by apply keydown_lowercase.
  - by apply keyup_lowercase.
  - unfold js_get. by rewrite Hup.
  - intros s target. split.
    + unfold keydown. cbn [repeat key]. unfold js_get. rewrite Hup.
      unfold bind, get, target, resolve. clear target.
      destruct (String.eqb noteBase "C2"); simpl;
        by destruct (querySelector_key _ _ s).
    + unfold keyup. cbn [key]. unfold js_get. rewrite Hup.
      unfold bind, get, target, resolve. clear target.
      destruct (String.eqb noteBase "C2"); simpl;
        by destruct (querySelector_key _ _ s).
Qed.

Lemma keyboard_is_case_insensitive_witness :
  toUpperCase "h" ≠ "h"
  ∧ toLowerCase (toUpperCase "h") = toLowerCase "h"
  ∧ js_get KEY_MAP (toLowerCase (toUpperCase "h")) = js_get KEY_MAP "h"
  ∧ keydown {| key := toUpperCase "h"; repeat := false |}
    = keydown {| key := "h"; repeat := false |}
  ∧ keyup {| key := toUpperCase "h"; repeat := false |}
    = keyup {| key := "h"; repeat := false |}
  ∧ js_get KEY_MAP (toLowerCase (toUpperCase "h")) = Own "A"
  ∧ ∀ s : PianoUI,
      let target :=
        querySelector_key (resolve "A" (octave s)).1
                          (resolve "A" (octave s)).2 s in
      keydown {| key := toUpperCase "h"; repeat := false |} s
      = match target with
        | Some i => playKey i s
        | None => Normal tt s
        end
      ∧ keyup {| key := toUpperCase "h"; repeat := false |} s
        = match target with
          | Some i => stopKey i s
          | None => Normal tt s
          end.
Proof.
  apply (keyboard_is_case_insensitive "h" "A" false).
  vm_compute. reflexivity.
Defined.

(** ** Handlers that leave the octave alone *)

Lemma keeps_ret {A : Type} (a : A) : keeps_octave (ret a).
Proof. by intros s. Qed.

Lemma keeps_get : keeps_octave get.
Proof. by intros s. Qed.

Lemma keeps_modify (f : PianoUI → PianoUI) :
  (∀ s, octave (f s) = octave s) → keeps_octave (modify f).
Proof. intros Hf s. apply Hf. Qed.

Lemma keeps_bind {A B : Type} (c : M PianoUI A) (k : A → M PianoUI B) :
  keeps_octave c → (∀ a, keeps_octave (k a)) → keeps_octave (bind c k).
Proof.
  intros Hc Hk s. unfold bind. specialize (Hc s).
  destruct (c s) as [a s'|x s']; simpl in *; [|done].
  by rewrite Hk.
Qed.

Lemma keeps_forEach {A : Type} (f : A → M PianoUI unit) (l : list A) :
  (∀ x, keeps_octave (f x)) → keeps_octave (forEach f l).
Proof.
  intros Hf. induction l as [|x l IH]; simpl.
  - apply keeps_ret.
  - apply keeps_bind; [apply Hf|by intros _].
Qed.

Lemma keeps_with_engine {A : Type} (c : M (AudioEngine R) A) :
  keeps_octave (with_engine c).
Proof. intros s. unfold with_engine. by destruct (c (engine s)). Qed.

Lemma keeps_alter_key (f : KeyElement → KeyElement) (k : nat) :
  keeps_octave (alter_key f k).
Proof. by intros s. Qed.

Ltac keeps_octave_step :=
  first
    [ apply keeps_ret | apply keeps_get | apply keeps_with_engine
    | apply keeps_alter_key | apply keeps_bind | apply keeps_forEach
    | (apply keeps_modify; done) ].

Ltac keeps_octave_tac :=
  repeat (intros; first [ keeps_octave_step | case_match ]).

Lemma keeps_playKey (k : nat) : keeps_octave (playKey k).
Proof. unfold playKey. keeps_octave_tac. Qed.

Lemma keeps_stopKey (k : nat) : keeps_octave (stopKey k).
Proof. unfold stopKey. keeps_octave_tac. Qed.

Lemma keeps_other_handlers (ev : event) :
  ev ≠ OctaveUp → ev ≠ OctaveDown → keeps_octave (handle ev).
Proof.
  intros Hup Hdown.
  destruct ev; try done; simpl;
    unfold volume_input, mousedown, mouseup, mouseover, mouseout, touchstart,
      touchend, keydown, keyup;
    repeat (intros; first [ apply keeps_playKey | apply keeps_stopKey
                          | keeps_octave_step | case_match ]).
Qed.

Lemma octave_up_click_eq (s : PianoUI) :
  octave_up_click s =
  Normal tt
    (if (octave s <? 7)%Z then
       {| engine := engine s;
          piano := rendered (octave s + 1);
          octave := octave s + 1;
          baseOctave := baseOctave s;
          isDragging := isDragging s;
          octave_display := "Octave: " +:+ pretty (octave s + 1) |}
     else s).
Proof.
  unfold octave_up_click, bind, get. by destruct (octave s <? 7)%Z.
Qed.

Lemma octave_down_click_eq (s : PianoUI) :
  octave_down_click s =
  Normal tt
    (if (1 <? octave s)%Z then
       {| engine := engine s;
          piano := rendered (octave s - 1);
          octave := octave s - 1;
          baseOctave := baseOctave s;
          isDragging := isDragging s;
          octave_display := "Octave: " +:+ pretty (octave s - 1) |}
     else s).
Proof.
  unfold octave_down_click, bind, get. by destruct (1 <? octave s)%Z.
Qed.

Lemma octave_range_step (ev : event) (s : PianoUI) :
  (1 ≤ octave s ≤ 7)%Z → (1 ≤ octave (final_state (handle ev s)) ≤ 7)%Z.
Proof.
  intros Hs.
  destruct ev; try (by rewrite keeps_other_handlers).
  - simpl. rewrite octave_up_click_eq. simpl.
    destruct (Z.ltb_spec (octave s) 7); simpl; lia.
  - simpl. rewrite octave_down_click_eq. simpl.
    destruct (Z.ltb_spec 1 (octave s)); simpl; lia.
Qed.

Lemma octave_range_run (evs : list event) (s : PianoUI) :
  (1 ≤ octave s ≤ 7)%Z → (1 ≤ octave (run evs s) ≤ 7)%Z.
Proof.
  revert s. induction evs as [|ev evs IH]; intros s Hs; [done|].
  apply IH, octave_range_step, Hs.
Qed.

(** C6. In every state the piano reaches from its construction, whatever
    the events, the octave is an integer between 1 and 7; there, an octave-up
    click at 7 and an octave-down click at 1 return without raising and leave
    the state as it is, octave, readout and rendered keys included. *)
Theorem octave_stays_in_range
  (now : Q) (st : context_state) (readout : string) (evs : list event) :
  let s := run evs (final_state (new_PianoUI now st readout)) in
  (1 ≤ octave s ≤ 7)%Z
  ∧ (octave s = 7 → handle OctaveUp s = Normal tt s)
  ∧ (octave s = 1 → handle OctaveDown s = Normal tt s).
Proof.
  intros s. split; [|split].
  - apply octave_range_run. simpl. lia.
  - intros H7. change (handle OctaveUp s) with (octave_up_click s).
    rewrite octave_up_click_eq, H7. done.
  - intros H1. change (handle OctaveDown s) with (octave_down_click s).
    rewrite octave_down_click_eq, H1. done.
Qed.

Lemma octave_stays_in_range_witness :
  let top := run [OctaveUp; OctaveUp; OctaveUp; OctaveUp]
                 (final_state (new_PianoUI 0 Suspended "Octave: 4")) in
  let bottom := run [OctaveDown; OctaveDown; OctaveDown]
                    (final_state (new_PianoUI 0 Suspended "Octave: 4")) in
  (octave top = 7 ∧ handle OctaveUp top = Normal tt top)
  ∧ (octave bottom = 1 ∧ handle OctaveDown bottom = Normal tt bottom).
Proof.
  intros top bottom.
  assert (octave top = 7) as H7 by (vm_compute; reflexivity).
  assert (octave bottom = 1) as H1 by (vm_compute; reflexivity).
  split; (split; [assumption|]).
  - exact (proj1 (proj2 (octave_stays_in_range 0 Suspended "Octave: 4"
                           [OctaveUp; OctaveUp; OctaveUp; OctaveUp])) H7).
  - exact (proj2 (proj2 (octave_stays_in_range 0 Suspended "Octave: 4"
                           [OctaveDown; OctaveDown; OctaveDown])) H1).
Defined.

(** C7. An octave-up or octave-down click returns without raising and
    leaves the engine untouched, table of voices and audio graph alike: when
    it is within range it changes the octave by one, the readout, and the
    rendered keys, which are those of the new octave, and nothing else. *)
Theorem octave_change_keeps_voices (s : PianoUI) :
  (∃ s', handle OctaveUp s = Normal tt s'
         ∧ engine s' = engine s
         ∧ oscillators (engine s') = oscillators (engine s)
         ∧ isDragging s' = isDragging s
         ∧ octave s' = (if (octave s <? 7)%Z then octave s + 1 else octave s)
         ∧ (if (octave s <? 7)%Z then piano s' = rendered (octave s')
            else s' = s))
  ∧ (∃ s', handle OctaveDown s = Normal tt s'
           ∧ engine s' = engine s
           ∧ oscillators (engine s') = oscillators (engine s)
           ∧ isDragging s' = isDragging s
           ∧ octave s' = (if (1 <? octave s)%Z then octave s - 1 else octave s)
           ∧ (if (1 <? octave s)%Z then piano s' = rendered (octave s')
              else s' = s)).
Proof.
  split; eexists; simpl.
  - rewrite octave_up_click_eq. split; [reflexivity|].
    by destruct (octave s <? 7)%Z.
  - rewrite octave_down_click_eq. split; [reflexivity|].
    by destruct (1 <? octave s)%Z.
Qed.

(** ** Key repeat *)

Lemma keydown_repeat (e : KeyboardEvent) (s : PianoUI) :
  repeat e = true → keydown e s = Normal tt s.
Proof. unfold keydown. by intros ->. Qed.

Lemma run_keydown_skips_repeats (evs : list KeyboardEvent) (s : PianoUI) :
  run (map KeyDown evs) s
  = run (map KeyDown (List.filter (fun e => negb (repeat e)) evs)) s.
Proof.
  revert s. induction evs as [|e evs IH]; intros s; [done|]. simpl.
  destruct (repeat e) eqn:Hr; simpl.
  - rewrite keydown_repeat by done. apply IH.
  - apply IH.
Qed.

Lemma playTone_nodes {Freq : Type} (e : AudioEngine Freq) (k : string) (f : Freq) :
  (length (osc_nodes (final_state (playTone k f e))) ≤ S (length (osc_nodes e)))%nat.
Proof.
  destruct (oscillators e !! k) as [v|] eqn:Hv.
  - rewrite (playTone_own _ _ _ _ Hv). simpl.
    rewrite length_app, length_alter. simpl. lia.
  - destruct (decide (k ∈ Object_prototype)).
    + rewrite playTone_inherited by done. simpl. lia.
    + rewrite playTone_none by done. simpl. rewrite length_app. simpl. lia.
Qed.

Lemma playKey_nodes (k : nat) (s : PianoUI) :
  (length (osc_nodes (engine (final_state (playKey k s))))
   ≤ S (length (osc_nodes (engine s))))%nat.
Proof.
  unfold playKey, bind, get. destruct (piano s !! k) as [el|]; [|simpl; lia].
  unfold with_engine at 2. unfold resume, modify, alter_key. simpl.
  unfold with_engine.
  match goal with
  | |- context [playTone ?key ?f ?e] =>
      pose proof (playTone_nodes e key f) as Hn;
      destruct (playTone key f e) as [u e'|x e']
  end; simpl in *; destruct (state (engine s)); simpl in *; lia.
Qed.

Lemma keydown_nodes (e : KeyboardEvent) (s : PianoUI) :
  (length (osc_nodes (engine (final_state (keydown e s))))
   ≤ (if repeat e then 0 else 1) + length (osc_nodes (engine s)))%nat.
Proof.
  unfold keydown. destruct (repeat e); [simpl; lia|].
  destruct (js_get KEY_MAP (toLowerCase (key e))); [|simpl; lia..].
  unfold bind, get.
  destruct (if String.eqb v "C2" then ("C", octave s + 1) else (v, octave s))
    as [targetNote targetOctave].
  destruct (querySelector_key targetNote targetOctave s) as [k|]; [|simpl; lia].
  pose proof (playKey_nodes k s). simpl. lia.
Qed.

(** C5. A key-down flagged as a repeat returns at once and leaves the whole
    state as it is, so it starts no oscillator and makes no call on the
    engine; a sequence of key-downs therefore ends in the state it reaches
    with its repeats taken out, and creates at most one oscillator per
    key-down that is not a repeat. *)
Theorem key_repeat_never_triggers (evs : list KeyboardEvent) (s : PianoUI) :
  (∀ e s', repeat e = true → handle (KeyDown e) s' = Normal tt s')
  ∧ run (map KeyDown evs) s
    = run (map KeyDown (List.filter (fun e => negb (repeat e)) evs)) s
  ∧ (length (osc_nodes (engine (run (map KeyDown evs) s)))
     ≤ length (List.filter (fun e => negb (repeat e)) evs)
       + length (osc_nodes (engine s)))%nat.
Proof.
  split_and!.
  - intros e s' Hr. by apply keydown_repeat.
  - apply run_keydown_skips_repeats.
  - revert s. induction evs as [|e evs IH]; intros s; [simpl; lia|].
    change (run (map KeyDown (e :: evs)) s)
      with (run (map KeyDown evs) (final_state (keydown e s))).
    specialize (IH (final_state (keydown e s))).
    pose proof (keydown_nodes e s) as Hn.
    cbn [List.filter]. destruct (repeat e); cbn [negb length] in *; lia.
Qed.

(** The piano as built, then the key [a] pressed and held: one voice. *)
Lemma key_repeat_never_triggers_witness :
  let s := run [KeyDown {| key := "a"; repeat := false |}]
               (final_state (new_PianoUI 0 Suspended "Octave: 4")) in
  length (osc_nodes (engine s)) = 1%nat
  ∧ handle (KeyDown {| key := "a"; repeat := true |}) s = Normal tt s.
Proof.
  intros s. split.
  - vm_compute. reflexivity.
  - apply (proj1 (key_repeat_never_triggers [] s)). reflexivity.
Defined.

(** ** The offline cache *)

Section WorkerFacts.

Context {Request Response : Type}.
Context (request_matches : Request → Request → bool).

Lemma cache_match_Some (request : Request) (cache : list (Request * Response))
  (response : Response) :
  cache_match request_matches request cache = Some response →
  ∃ stored, (stored, response) ∈ cache
            ∧ request_matches stored request = true.
Proof.
  unfold cache_match.
  destruct (List.find _ cache) as [[stored r]|] eqn:Hf; [|done].
  intros [= <-]. apply find_some in Hf as [Hin Hm].
  exists stored. split; [by apply list_elem_of_In|done].
Qed.

Lemma cache_match_None (request : Request) (cache : list (Request * Response)) :
  cache_match request_matches request cache = None →
  Forall (fun entry => request_matches entry.1 request = false) cache.
Proof.
  unfold cache_match.
  destruct (List.find _ cache) as [[stored r]|] eqn:Hf; [done|].
  intros _. apply Forall_forall. intros entry Hin%list_elem_of_In.
  by apply (find_none _ _ Hf).
Qed.

(** C8. The promise the worker answers a fetch with first asks the cache
    storage. When a stored entry matches the request, the promise settles
    with that entry's response and the network is not asked; when none does,
    and only then, the network is asked, once and after the cache, and its
    outcome is the answer. *)
Theorem cache_first (caches : CacheStorage Request Response)
  (network : Request → settled Response) (request : Request) :
  match caches_match request_matches request caches with
  | Some response =>
      settle request_matches caches network (on_fetch request)
      = ([CacheLookup request], Fulfilled response)
      ∧ ∃ name cache stored,
          (name, cache) ∈ caches ∧ (stored, response) ∈ cache
          ∧ request_matches stored request = true
  | None =>
      settle request_matches caches network (on_fetch request)
      = ([CacheLookup request; NetworkRequest request], network request)
      ∧ Forall (fun named =>
                  Forall (fun entry => request_matches entry.1 request = false)
                         named.2)
               caches
  end.
Proof.
  destruct (caches_match request_matches request caches) as [response|] eqn:Hm.
  - split; [simpl; by rewrite Hm|].
    induction caches as [|[name cache] caches IH]; [done|]. simpl in Hm.
    destruct (cache_match request_matches request cache) as [r|] eqn:Hc.
    + injection Hm as ->. apply cache_match_Some in Hc as (stored & Hin & Hs).
      exists name, cache, stored. split_and!; [left|done|done].
    + destruct (IH Hm) as (name' & cache' & stored & Hin & Hin' & Hs).
      exists name', cache', stored. split_and!; [by right|done|done].
  - split; [simpl; rewrite Hm; simpl; by destruct (network request)|].
    induction caches as [|[name cache] caches IH]; [done|]. simpl in Hm.
    destruct (cache_match request_matches request cache) as [r|] eqn:Hc; [done|].
    constructor; [by apply cache_match_None|by apply IH].
Qed.

End WorkerFacts.

(** * Further properties *)

(** ** The voice engine *)

Section EngineMore.

Context {Freq : Type}.
Implicit Types (e : AudioEngine Freq) (v : Voice) (note k : string).

Lemma playTone_voice_key e (note : string) (octave : Z) (f : Freq) :
  playTone (voice_key note octave) f e
  = Normal tt (retriggered (voice_key note octave) f e).
Proof.
  unfold retriggered.
  destruct (oscillators e !! voice_key note octave) as [v|] eqn:Hv.
  - by apply playTone_own.
  - apply playTone_none; [done|apply voice_key_not_inherited].
Qed.

Lemma length_osc_retriggered e k (f : Freq) :
  length (osc_nodes (retriggered k f e)) = S (length (osc_nodes e)).
Proof.
  unfold retriggered. destruct (oscillators e !! k); simpl;
    rewrite length_app, ?length_alter; simpl; lia.
Qed.

Lemma retriggered_lookup e k (f : Freq) :
  oscillators (retriggered k f e) !! k
  = Some {| osc := length (osc_nodes e); gain_ref := length (gain_nodes e) |}.
Proof.
  unfold retriggered. destruct (oscillators e !! k); simpl;
    rewrite ?length_alter; apply lookup_insert_eq.
Qed.

Lemma retriggered_new_node e k (f : Freq) :
  osc_nodes (retriggered k f e) !! length (osc_nodes e)
  = Some (new_oscillator f (currentTime e) (length (gain_nodes e))).
Proof.
  unfold retriggered. destruct (oscillators e !! k); simpl;
    rewrite lookup_app_r, ?length_alter by (rewrite ?length_alter; lia);
    by rewrite Nat.sub_diag.
Qed.

Lemma retriggered_table e k (f : Freq) :
  delete k (oscillators (retriggered k f e)) = delete k (oscillators e)
  ∧ currentTime (retriggered k f e) = currentTime e.
Proof.
  unfold retriggered. destruct (oscillators e !! k) eqn:Hk; simpl.
  - by rewrite delete_insert_eq, delete_delete_eq.
  - by rewrite delete_insert_eq.
Qed.

(** X1. A trigger of an identity followed by its release: both return, the
    table is the one before the trigger without the identity, and the
    oscillator the trigger created is in the graph with its stop scheduled
    0.1 s after the release. *)
Theorem trigger_then_release e (note : string) (octave : Z) (f : Freq) :
  let k := voice_key note octave in
  ∃ e1 e2 o,
    playTone k f e = Normal tt e1
    ∧ stopTone k e1 = Normal tt e2
    ∧ oscillators e2 = delete k (oscillators e)
    ∧ length (osc_nodes e2) = S (length (osc_nodes e))
    ∧ osc_nodes e2 !! length (osc_nodes e) = Some o
    ∧ frequency o = [(f, currentTime e)]
    ∧ stop_time o = Some (currentTime e + 0.1)%Q.
Proof.
  intros k.
  set (v := {| osc := length (osc_nodes e); gain_ref := length (gain_nodes e) |}).
  pose proof (retriggered_lookup e k f) as Hv. fold v in Hv.
  destruct (retriggered_table e k f) as [Htab Hnow].
  exists (retriggered k f e), (released k v (retriggered k f e)),
    (osc_stop (currentTime e + 0.1)
       (new_oscillator f (currentTime e) (length (gain_nodes e)))).
  split_and!.
  - apply playTone_voice_key.
  - by apply stopTone_own.
  - exact Htab.
  - cbn [osc_nodes released].
    by rewrite length_alter, length_osc_retriggered.
  - cbn [osc_nodes released]. unfold v. cbn [osc].
    by rewrite list_lookup_alter_eq, retriggered_new_node, Hnow.
  - done.
  - done.
Qed.

(** X2. Releasing an identity twice in a row: the second release returns
    without raising and changes nothing. *)
Theorem release_twice e (note : string) (octave : Z) :
  let k := voice_key note octave in
  ∃ e1, stopTone k e = Normal tt e1 ∧ stopTone k e1 = Normal tt e1.
Proof.
  intros k. pose proof (voice_key_not_inherited note octave) as Hk. fold k in Hk.
  destruct (oscillators e !! k) as [v|] eqn:Hv.
  - exists (released k v e). split; [by apply stopTone_own|].
    apply stopTone_none; [|done]. simpl. apply lookup_delete_eq.
  - exists e. split; by apply stopTone_none.
Qed.

Lemma perform_all_app (cs1 cs2 : list (call Freq)) e :
  perform_all (cs1 ++ cs2) e = perform_all cs2 (perform_all cs1 e).
Proof. unfold perform_all. apply foldl_app. Qed.

Lemma perform_all_ind (P : AudioEngine Freq → Prop) (cs : list (call Freq)) e :
  (∀ c e, P e → P (final_state (perform c e))) → P e → P (perform_all cs e).
Proof.
  intros Hstep. revert e. induction cs as [|c cs IH]; intros e He; [done|].
  apply IH, Hstep, He.
Qed.

(** No name of [Object.prototype] is ever registered. *)
Lemma no_inherited_entry_step (c : call Freq) e :
  (∀ k, k ∈ Object_prototype → oscillators e !! k = None) →
  ∀ k, k ∈ Object_prototype →
       oscillators (final_state (perform c e)) !! k = None.
Proof.
  intros He k Hk. destruct c as [note f|note|v| |dt]; simpl; auto.
  - destruct (oscillators e !! note) as [v|] eqn:Hv.
    + rewrite (playTone_own _ _ _ _ Hv). simpl.
      assert (note ≠ k) by (intros ->; rewrite He in Hv; done).
      rewrite lookup_insert_ne, lookup_delete_ne by done. auto.
    + destruct (decide (note ∈ Object_prototype)).
      * rewrite playTone_inherited by done. simpl. auto.
      * rewrite playTone_none by done. simpl.
        rewrite lookup_insert_ne by (intros ->; done). auto.
  - destruct (oscillators e !! note) as [v|] eqn:Hv.
    + rewrite (stopTone_own _ _ _ Hv). simpl.
      assert (note ≠ k) by (intros ->; rewrite He in Hv; done).
      rewrite lookup_delete_ne by done. auto.
    + destruct (decide (note ∈ Object_prototype)).
      * rewrite stopTone_inherited by done. simpl. auto.
      * rewrite stopTone_none by done. simpl. auto.
  - unfold resume, modify. simpl. destruct (state e); simpl; auto.
Qed.

(** X3. Whatever calls the engine has received, a name that belongs to
    [Object.prototype] has no entry in the table, and a trigger or a release
    of such a name raises a [TypeError] and leaves the engine as it was. *)
Theorem inherited_name_raises (now : Q) (st : context_state)
  (cs : list (call Freq)) (k : string) (f : Freq) :
  k ∈ Object_prototype →
  let e := perform_all cs (new_AudioEngine now st) in
  oscillators e !! k = None
  ∧ playTone k f e = Thrown TypeError e
  ∧ stopTone k e = Thrown TypeError e.
Proof.
  intros Hk e.
  assert (oscillators e !! k = None) as Hnone.
  { revert k Hk. unfold e. apply perform_all_ind.
    - apply no_inherited_entry_step.
    - intros k _. apply lookup_empty. }
  split_and!; [done|by apply playTone_inherited|by apply stopTone_inherited].
Qed.

Lemma keeps_nodes_refl e : keeps_nodes e e.
Proof. intros i o Ho. exists o. by split_and!. Qed.

Lemma keeps_nodes_trans e1 e2 e3 :
  keeps_nodes e1 e2 → keeps_nodes e2 e3 → keeps_nodes e1 e3.
Proof.
  intros H12 H23 i o Ho.
  destruct (H12 _ _ Ho) as (o2 & Ho2 & Ht & Hf & Hout & Hs & Hstop).
  destruct (H23 _ _ Ho2) as (o3 & Ho3 & Ht' & Hf' & Hout' & Hs' & Hstop').
  exists o3. split_and!; [done|congruence..|]. intros t Hto. auto.
Qed.

Lemma keeps_nodes_same e e' :
  osc_nodes e' = osc_nodes e → keeps_nodes e e'.
Proof. intros Heq i o Ho. exists o. rewrite Heq. by split_and!. Qed.

Lemma keeps_nodes_released e owner note v :
  table_inv e owner → oscillators e !! note = Some v →
  keeps_nodes e (released note v e).
Proof.
  intros Hinv Hv i o Ho. simpl.
  destruct (decide (i = osc v)) as [->|Hne].
  - exists (osc_stop (currentTime e + 0.1) o).
    rewrite list_lookup_alter_eq, Ho. split_and!; [done..|].
    intros t Ht. destruct (inv_registered _ _ Hinv _ _ Hv) as [_ Hlive].
    unfold live in Hlive. rewrite Ho, Ht in Hlive.
    by rewrite andb_false_r in Hlive.
  - exists o. rewrite list_lookup_alter_ne by done. by split_and!.
Qed.

Lemma keeps_nodes_triggered e note (f : Freq) :
  keeps_nodes e (triggered note f e).
Proof.
  intros i o Ho. exists o. simpl.
  rewrite lookup_app_l by (by eapply lookup_lt_Some). by split_and!.
Qed.

Lemma keeps_nodes_step (c : call Freq) e owner :
  table_inv e owner → keeps_nodes e (final_state (perform c e)).
Proof.
  intros Hinv. destruct c as [note f|note|v| |dt]; simpl;
    try (by apply keeps_nodes_same).
  - destruct (oscillators e !! note) as [v|] eqn:Hv.
    + rewrite (playTone_own _ _ _ _ Hv). simpl.
      eapply keeps_nodes_trans; [by eapply keeps_nodes_released|].
      apply keeps_nodes_triggered.
    + destruct (decide (note ∈ Object_prototype)).
      * rewrite playTone_inherited by done. apply keeps_nodes_refl.
      * rewrite playTone_none by done. apply keeps_nodes_triggered.
  - destruct (oscillators e !! note) as [v|] eqn:Hv.
    + rewrite (stopTone_own _ _ _ Hv). simpl. by eapply keeps_nodes_released.
    + destruct (decide (note ∈ Object_prototype)).
      * rewrite stopTone_inherited by done. apply keeps_nodes_refl.
      * rewrite stopTone_none by done. apply keeps_nodes_refl.
  - unfold resume, modify. simpl.
    destruct (state e); by apply keeps_nodes_same.
Qed.

Lemma table_inv_step (c : call Freq) e owner :
  table_inv e owner → ∃ owner', table_inv (final_state (perform c e)) owner'.
Proof.
  intros Hinv. pose proof (table_inv_perform c e owner Hinv) as Hstep.
  assert ((perform_owned c (e, owner)).1 = final_state (perform c e)) as Heq.
  { unfold perform_owned. destruct c; try done. by destruct (perform _ e). }
  rewrite Heq in Hstep. eauto.
Qed.

(** X4. The graph only grows, and a scheduled stop is final: an oscillator
    the engine has at some point is still there after any further calls,
    with the same waveform, frequency, wiring and start, and if its stop had
    been scheduled it is still scheduled for the same time. *)
Theorem scheduled_stop_is_final (now : Q) (st : context_state)
  (cs1 cs2 : list (call Freq)) :
  keeps_nodes (perform_all cs1 (new_AudioEngine now st))
              (perform_all (cs1 ++ cs2) (new_AudioEngine now st)).
Proof.
  rewrite perform_all_app.
  assert (∃ owner, table_inv (perform_all cs1 (new_AudioEngine now st)) owner)
    as [owner Hinv].
  { eexists. rewrite <- perform_all_owned_fst. apply table_inv_reachable. }
  revert Hinv. generalize (perform_all cs1 (new_AudioEngine (Freq := Freq) now st)).
  intros e Hinv. revert e owner Hinv.
  induction cs2 as [|c cs IH]; intros e owner Hinv; [apply keeps_nodes_refl|].
  destruct (table_inv_step c e owner Hinv) as [owner' Hinv'].
  eapply keeps_nodes_trans; [by eapply keeps_nodes_step|].
  exact (IH _ _ Hinv').
Qed.

Lemma wired_same e e' :
  osc_nodes e' = osc_nodes e → gain_nodes e' = gain_nodes e →
  oscillators e' = oscillators e →
  gain_output (masterGain e') = gain_output (masterGain e) →
  wired e → wired e'.
Proof.
  intros Ho Hg Ht Hm [H1 H2 H3 H4 H5].
  split; rewrite ?Ho, ?Hg, ?Ht, ?Hm; done.
Qed.

Lemma wired_released e note v :
  wired e → oscillators e !! note = Some v → wired (released note v e).
Proof.
  intros [H1 H2 H3 H4 H5] Hv. split; simpl.
  - by rewrite !length_alter.
  - intros i o. destruct (decide (i = osc v)) as [->|Hne].
    + rewrite list_lookup_alter_eq.
      destruct (osc_nodes e !! osc v) as [o0|] eqn:Ho; [|done].
      intros [= <-]. simpl. by eapply H2.
    + rewrite list_lookup_alter_ne by done. apply H2.
  - intros i g. destruct (decide (i = gain_ref v)) as [->|Hne].
    + rewrite list_lookup_alter_eq.
      destruct (gain_nodes e !! gain_ref v) as [g0|] eqn:Hg; [|done].
      intros [= <-]. simpl. by eapply H3.
    + rewrite list_lookup_alter_ne by done. apply H3.
  - done.
  - intros k v'. rewrite lookup_delete_Some, length_alter. intros [_ Hv'].
    by apply H5 in Hv'.
Qed.

Lemma wired_triggered e note (f : Freq) : wired e → wired (triggered note f e).
Proof.
  intros [H1 H2 H3 H4 H5]. split; simpl.
  - rewrite !length_app. simpl. lia.
  - intros i o Ho. apply lookup_app_Some in Ho as [Ho|[Hi Ho]]; [by apply H2|].
    apply list_lookup_singleton_Some in Ho as [Hi0 <-]. simpl.
    split_and!; [done..|]. f_equal. lia.
  - intros i g Hg. apply lookup_app_Some in Hg as [Hg|[Hi Hg]]; [by eapply H3|].
    by apply list_lookup_singleton_Some in Hg as [_ <-].
  - done.
  - intros k v. rewrite lookup_insert_Some, length_app. simpl.
    intros [[_ <-]|[_ Hv]]; simpl; [lia|].
    apply H5 in Hv. lia.
Qed.

Lemma wired_step (c : call Freq) e :
  wired e → wired (final_state (perform c e)).
Proof.
  intros Hw. destruct c as [note f|note|v| |dt]; simpl;
    try (by apply (wired_same e)).
  - destruct (oscillators e !! note) as [v|] eqn:Hv.
    + rewrite (playTone_own _ _ _ _ Hv). simpl.
      by apply wired_triggered, wired_released.
    + destruct (decide (note ∈ Object_prototype)).
      * by rewrite playTone_inherited.
      * rewrite playTone_none by done. by apply wired_triggered.
  - destruct (oscillators e !! note) as [v|] eqn:Hv.
    + rewrite (stopTone_own _ _ _ Hv). simpl. by apply wired_released.
    + destruct (decide (note ∈ Object_prototype)).
      * by rewrite stopTone_inherited.
      * by rewrite stopTone_none.
  - unfold resume, modify. simpl.
    destruct (state e); by apply (wired_same e).
Qed.

(** X5. Whatever calls the engine has received, its graph is wired as the
    triggers wired it: as many gains as oscillators, every oscillator a
    started triangle wave feeding the gain of its rank, every gain feeding
    the master gain, the master gain feeding the destination, and every
    registered voice an oscillator of the graph with the gain of its rank. *)
Theorem graph_stays_wired (now : Q) (st : context_state)
  (cs : list (call Freq)) :
  wired (perform_all cs (new_AudioEngine now st)).
Proof.
  apply perform_all_ind; [apply wired_step|].
  split; simpl; try done; intros ? ?;
    by rewrite ?lookup_nil, ?lookup_empty.
Qed.

(** X6. The release of a registered voice leaves nothing scheduled on its
    gain after the stop of its source: every change kept or added lies at or
    before the current time + 0.1 s, the last being the end of the ramp down
    to 0.001, and the entry is gone. *)
Theorem release_schedules_nothing_later e note v g :
  oscillators e !! note = Some v →
  gain_nodes e !! gain_ref v = Some g →
  let now := currentTime e in
  ∃ e' g',
    stopTone note e = Normal tt e'
    ∧ oscillators e' !! note = None
    ∧ gain_nodes e' !! gain_ref v = Some g'
    ∧ Forall (fun a => (automation_time a <= now + 0.1)%Q) (timeline (gain g'))
    ∧ last (timeline (gain g'))
      = Some (ExponentialRampToValueAtTime 0.001 (now + 0.1)).
Proof.
  intros Hv Hg now.
  assert (now <= now + 0.1)%Q as Hle.
  { rewrite <- (Qplus_0_r now) at 1. apply Qplus_le_r. discriminate. }
  exists (released note v e), (release_envelope now g).
  split_and!.
  - by apply stopTone_own.
  - simpl. apply lookup_delete_eq.
  - simpl. by rewrite list_lookup_alter_eq, Hg.
  - simpl. rewrite <- app_assoc. apply Forall_app. split.
    + apply Forall_forall. intros a Ha%list_elem_of_In.
      apply filter_In in Ha as [_ Ha]. apply negb_true_iff in Ha.
      destruct (Qlt_le_dec (automation_time a) now) as [Hlt|Hge].
      * apply Qlt_le_weak. eapply Qlt_le_trans; [exact Hlt|exact Hle].
      * apply Qle_bool_iff in Hge. congruence.
    + repeat constructor; simpl; [exact Hle|apply Qle_refl].
  - simpl. by rewrite !last_snoc.
Qed.

End EngineMore.

Lemma inherited_name_raises_witness :
  let e : AudioEngine Z :=
    perform_all [Trigger "A4" 440; Release "A4"] (new_AudioEngine 0 Running) in
  oscillators e !! "constructor" = None
  ∧ playTone "constructor" 440 e = Thrown TypeError e
  ∧ stopTone "constructor" e = Thrown TypeError e.
Proof.
  apply (inherited_name_raises 0 Running [Trigger "A4" 440; Release "A4"]
           "constructor" 440).
  apply (bool_decide_unpack _). vm_compute. exact I.
Defined.

Lemma release_schedules_nothing_later_witness :
  ∃ e' g',
    stopTone "A4" engine_A4 = Normal tt e'
    ∧ oscillators e' !! "A4" = None
    ∧ gain_nodes e' !! 0%nat = Some g'
    ∧ Forall (fun a => (automation_time a <= 0 + 0.1)%Q) (timeline (gain g'))
    ∧ last (timeline (gain g'))
      = Some (ExponentialRampToValueAtTime 0.001 (0 + 0.1)).
Proof.
  apply (release_schedules_nothing_later engine_A4 "A4"
           {| osc := 0; gain_ref := 0 |} (attack_decay 0)).
  - vm_compute. reflexivity.
  - reflexivity.
Defined.

(** ** Frequencies *)


(** Reduces the octave offset [i / 12] of a key of known rank. *)
Ltac eval_key_octave :=
  repeat match goal with
         | |- context [Z.of_nat ?n `div` 12] =>
             let r := eval vm_compute in (Z.of_nat n `div` 12) in
             change (Z.of_nat n `div` 12) with r
         end.

Lemma semitones_rendered_key (startOctave : Z) (i : nat) :
  (i < 13)%nat →
  semitonesFromA4 (data_note (rendered_key startOctave i))
                  (data_octave (rendered_key startOctave i))
  = (startOctave - 4) * 12 + Z.of_nat i - 9.
Proof.
  intros Hi. unfold semitonesFromA4.
  do 13 (destruct i as [|i];
         [simpl; eval_key_octave; cbn [Z.of_nat Pos.of_succ_nat Pos.succ]; lia|]).
  lia.
Qed.



Lemma indexOf_absent (l : list string) (x : string) :
  x ∉ l → indexOf l x = -1.
Proof.
  induction l as [|y l IH]; [done|]. simpl.
  intros Hx. apply not_elem_of_cons in Hx as [Hne Hx].
  destruct (String.eqb_spec y x) as [->|_]; [done|].
  by rewrite IH.
Qed.

(** X9. A note that is none of the twelve is given the index -1: its
    frequency is that of B in the octave below. *)
Theorem unknown_note_frequency (note : string) (octave : Z) :
  note ∉ NOTES →
  indexOf NOTES note = -1
  ∧ getFrequency note octave = getFrequency "B" (octave - 1).
Proof.
  intros Hn. pose proof (indexOf_absent NOTES note Hn) as Hi.
  split; [done|]. unfold getFrequency, semitonesFromA4. rewrite Hi.
  replace (indexOf NOTES "B") with 11 by reflexivity.
  assert ((octave - 4) * 12 + (-1 - 9) = (octave - 1 - 4) * 12 + (11 - 9))
    as -> by lia.
  done.
Qed.

Lemma unknown_note_frequency_witness :
  indexOf NOTES "H" = -1
  ∧ getFrequency "H" 4 = getFrequency "B" (4 - 1).
Proof.
  apply (unknown_note_frequency "H" 4).
  apply (bool_decide_unpack _). vm_compute. exact I.
Defined.

(** ** The piano: what the handlers keep *)

Section Preserves.

Context (R : PianoUI → PianoUI → Prop) `{!PreOrder R}.

Lemma preserves_ret {A : Type} (a : A) : preserves R (ret a).
Proof. intros s. simpl. reflexivity. Qed.

Lemma preserves_get : preserves R get.
Proof. intros s. simpl. reflexivity. Qed.

Lemma preserves_modify (f : PianoUI → PianoUI) :
  (∀ s, R s (f s)) → preserves R (modify f).
Proof. intros Hf s. apply Hf. Qed.

Lemma preserves_bind {A B : Type} (c : M PianoUI A) (k : A → M PianoUI B) :
  preserves R c → (∀ a, preserves R (k a)) → preserves R (bind c k).
Proof.
  intros Hc Hk s. unfold bind. specialize (Hc s).
  destruct (c s) as [a s'|x s']; simpl in *; [|done].
  etrans; [exact Hc|apply Hk].
Qed.

Lemma preserves_forEach {A : Type} (f : A → M PianoUI unit) (l : list A) :
  (∀ x, preserves R (f x)) → preserves R (forEach f l).
Proof.
  intros Hf. induction l as [|x l IH]; simpl.
  - apply preserves_ret.
  - apply preserves_bind; [apply Hf|by intros _].
Qed.

Lemma preserves_run (evs : list event) (s : PianoUI) :
  (∀ ev, preserves R (handle ev)) → R s (run evs s).
Proof.
  intros Hev. revert s. induction evs as [|ev evs IH]; intros s; [done|].
  etrans; [apply (Hev ev)|apply IH].
Qed.

End Preserves.

Ltac preserves_step :=
  lazymatch goal with
  | |- PreOrder _ => apply _
  | |- _ =>
      first
        [ apply preserves_ret | apply preserves_get | apply preserves_bind
        | apply preserves_forEach ]
  end.

Global Instance same_keys_preorder : PreOrder same_keys.
Proof.
  split.
  - by intros s.
  - intros s1 s2 s3 [H1 H2] [H3 H4]. split; congruence.
Qed.

Global Instance engine_calls_preorder : PreOrder engine_calls.
Proof.
  split.
  - intros s. by exists [].
  - intros s1 s2 s3 [cs1 H1] [cs2 H2]. exists (cs1 ++ cs2).
    by rewrite perform_all_app, <- H1.
Qed.

(** *** The keys *)

Lemma contains_key_add_active (el : KeyElement) :
  classList_contains "key" (classList_add "active" el)
  = classList_contains "key" el.
Proof.
  unfold classList_add. destruct (classList_contains "active" el); [done|].
  unfold classList_contains. simpl. apply bool_decide_ext.
  rewrite elem_of_app, list_elem_of_singleton.
  split; [intros [?|?]; [done|discriminate]|by left].
Qed.

Lemma contains_key_remove_active (el : KeyElement) :
  classList_contains "key" (classList_remove "active" el)
  = classList_contains "key" el.
Proof.
  unfold classList_contains, classList_remove. simpl. apply bool_decide_ext.
  rewrite !list_elem_of_In, filter_In. split; [by intros [? _]|].
  intros Hin. split; [done|]. reflexivity.
Qed.

Lemma key_data_add_active (el : KeyElement) :
  key_data (classList_add "active" el) = key_data el.
Proof. unfold key_data. by rewrite contains_key_add_active. Qed.

Lemma key_data_remove_active (el : KeyElement) :
  key_data (classList_remove "active" el) = key_data el.
Proof. unfold key_data. by rewrite contains_key_remove_active. Qed.

Lemma key_data_set_touchId (t : option Z) (el : KeyElement) :
  key_data (set_touchId t el) = key_data el.
Proof. done. Qed.

Lemma map_key_data_alter (f : KeyElement → KeyElement) (k : nat)
  (p : list KeyElement) :
  (∀ el, key_data (f el) = key_data el) →
  key_data <$> alter f k p = key_data <$> p.
Proof.
  intros Hf. apply list_eq. intros i. rewrite !list_lookup_fmap.
  destruct (decide (i = k)) as [->|Hne].
  - rewrite list_lookup_alter_eq. destruct (p !! k); simpl; [|done].
    by rewrite Hf.
  - by rewrite list_lookup_alter_ne.
Qed.

Lemma same_keys_alter_key (f : KeyElement → KeyElement) (k : nat) :
  (∀ el, key_data (f el) = key_data el) →
  preserves same_keys (alter_key f k).
Proof.
  intros Hf s. split; [done|]. simpl. by apply map_key_data_alter.
Qed.

Lemma same_keys_with_engine {A : Type} (c : M (AudioEngine R) A) :
  preserves same_keys (with_engine c).
Proof. intros s. unfold with_engine. by destruct (c (engine s)). Qed.

Ltac same_keys_step :=
  first
    [ apply same_keys_with_engine
    | apply same_keys_alter_key;
        first [ apply key_data_add_active | apply key_data_remove_active
              | apply key_data_set_touchId ]
    | (apply preserves_modify; done)
    | preserves_step ].

Lemma same_keys_playKey (k : nat) : preserves same_keys (playKey k).
Proof. unfold playKey. repeat (intros; first [same_keys_step | case_match]). Qed.

Lemma same_keys_stopKey (k : nat) : preserves same_keys (stopKey k).
Proof. unfold stopKey. repeat (intros; first [same_keys_step | case_match]). Qed.

Lemma same_keys_other_handlers (ev : event) :
  ev ≠ OctaveUp → ev ≠ OctaveDown → preserves same_keys (handle ev).
Proof.
  intros Hup Hdown.
  destruct ev; try done; simpl;
    unfold volume_input, mousedown, mouseup, mouseover, mouseout, touchstart,
      touchend, keydown, keyup;
    repeat (intros; first [ apply same_keys_playKey | apply same_keys_stopKey
                          | same_keys_step | case_match ]).
Qed.

Lemma well_rendered_step (ev : event) (s : PianoUI) :
  well_rendered s → well_rendered (final_state (handle ev s)).
Proof.
  intros Hs. unfold well_rendered.
  destruct ev;
    try (match goal with
         | |- context [handle ?ev s] =>
             destruct (same_keys_other_handlers ev ltac:(done) ltac:(done) s)
               as [Ho Hp]
         end; rewrite Ho, Hp; exact Hs).
  - simpl. rewrite octave_up_click_eq. simpl. by destruct (octave s <? 7)%Z.
  - simpl. rewrite octave_down_click_eq. simpl. by destruct (1 <? octave s)%Z.
Qed.

Lemma well_rendered_run (evs : list event) (s : PianoUI) :
  well_rendered s → well_rendered (run evs s).
Proof.
  revert s. induction evs as [|ev evs IH]; intros s Hs; [done|].
  apply IH, well_rendered_step, Hs.
Qed.

Lemma rendered_lookup (startOctave : Z) (i : nat) :
  (i < 13)%nat → rendered startOctave !! i = Some (rendered_key startOctave i).
Proof.
  intros Hi. unfold rendered.
  change (map (rendered_key startOctave) (seq 0 13))
    with (rendered_key startOctave <$> seq 0 13).
  rewrite list_lookup_fmap, lookup_seq_lt by done. done.
Qed.

Lemma well_rendered_lookup (s : PianoUI) (i : nat) :
  well_rendered s → (i < 13)%nat →
  ∃ el, piano s !! i = Some el
        ∧ key_data el = key_data (rendered_key (octave s) i).
Proof.
  intros Hs Hi.
  assert ((key_data <$> piano s) !! i
          = Some (key_data (rendered_key (octave s) i))) as Hl.
  { rewrite Hs, list_lookup_fmap. by rewrite rendered_lookup. }
  rewrite list_lookup_fmap in Hl.
  destruct (piano s !! i) as [el|]; [|done]. simpl in Hl.
  exists el. split; [done|congruence].
Qed.

Global Instance only_marks_preorder : PreOrder only_marks.
Proof.
  split.
  - by intros s.
  - intros s1 s2 s3 [H1 H2] [H3 H4]. split; [congruence|].
    intros o Ho. by apply H4, H2.
Qed.

Lemma rendered_key_no_active (startOctave : Z) (i : nat) :
  "active" ∉ classList (rendered_key startOctave i).
Proof.
  unfold rendered_key. cbn [classList].
  destruct (includes _ "#"); intros Hin;
    repeat (apply elem_of_cons in Hin as [Hin|Hin]; [discriminate|]);
    by apply elem_of_nil in Hin.
Qed.

Lemma rendered_no_active (startOctave : Z) (i : nat) (r : KeyElement) :
  rendered startOctave !! i = Some r → "active" ∉ classList r.
Proof.
  unfold rendered.
  change (map (rendered_key startOctave) (seq 0 13))
    with (rendered_key startOctave <$> seq 0 13).
  rewrite list_lookup_fmap. destruct (seq 0 13 !! i) as [j|]; [|done].
  intros [= <-]. apply rendered_key_no_active.
Qed.

Lemma filter_no_active (l : list string) :
  "active" ∉ l → List.filter (fun d => negb (String.eqb d "active")) l = l.
Proof.
  induction l as [|c l IH]; [done|]. intros Hl.
  apply not_elem_of_cons in Hl as [Hc Hl]. simpl.
  destruct (String.eqb_spec c "active") as [->|_]; [done|]. simpl.
  by rewrite IH.
Qed.

Lemma marks_of_refl (r : KeyElement) : marks_of r r.
Proof. split_and!; [done|done|by left]. Qed.

Lemma marks_of_add_active (r el : KeyElement) :
  "active" ∉ classList r → marks_of r el →
  marks_of r (classList_add "active" el).
Proof.
  intros Hr (Hn & Ho & Hc). split_and!; [done|done|]. cbn [classList_add classList].
  unfold classList_contains.
  destruct Hc as [Hc|Hc]; rewrite Hc.
  - rewrite bool_decide_eq_false_2 by done. by right.
  - rewrite bool_decide_eq_true_2 by (apply elem_of_app; right; by left).
    by right.
Qed.

Lemma classList_remove_marks (r el : KeyElement) :
  "active" ∉ classList r → marks_of r el →
  classList (classList_remove "active" el) = classList r.
Proof.
  intros Hr (_ & _ & Hc). cbn [classList_remove classList].
  destruct Hc as [Hc|Hc]; rewrite Hc.
  - by apply filter_no_active.
  - rewrite List.filter_app, filter_no_active by done. simpl.
    by rewrite app_nil_r.
Qed.

Lemma marks_of_remove_active (r el : KeyElement) :
  "active" ∉ classList r → marks_of r el →
  marks_of r (classList_remove "active" el).
Proof.
  intros Hr Hm. pose proof (classList_remove_marks r el Hr Hm) as Hc.
  destruct Hm as (Hn & Ho & _). split_and!; [done|done|by left].
Qed.

Lemma marks_of_set_touchId (t : option Z) (r el : KeyElement) :
  "active" ∉ classList r → marks_of r el → marks_of r (set_touchId t el).
Proof. by intros _ H. Qed.

Lemma marks_of_unmarked (r el el' : KeyElement) :
  "active" ∉ classList r → marks_of r el → marks_of r el' →
  data_note el' = data_note el ∧ data_octave el' = data_octave el
  ∧ classList (classList_remove "active" el')
    = classList (classList_remove "active" el).
Proof.
  intros Hr Hel Hel'.
  rewrite (classList_remove_marks r el Hr Hel),
    (classList_remove_marks r el' Hr Hel').
  destruct Hel as (Hn & Ho & _), Hel' as (Hn' & Ho' & _).
  split_and!; congruence.
Qed.

Lemma only_marks_alter_key (f : KeyElement → KeyElement) (k : nat) :
  (∀ r el, "active" ∉ classList r → marks_of r el → marks_of r (f el)) →
  preserves only_marks (alter_key f k).
Proof.
  intros Hf s. split; [done|]. intros o Ho. simpl.
  apply Forall2_alter_r; [done|]. intros r el Hr _ Hm.
  apply Hf; [|done]. by eapply rendered_no_active.
Qed.

Lemma only_marks_with_engine {A : Type} (c : M (AudioEngine R) A) :
  preserves only_marks (with_engine c).
Proof. intros s. unfold with_engine. by destruct (c (engine s)). Qed.

Ltac only_marks_step :=
  first
    [ apply only_marks_with_engine
    | apply only_marks_alter_key;
        first [ apply marks_of_add_active | apply marks_of_remove_active
              | apply marks_of_set_touchId ]
    | (apply preserves_modify; done)
    | preserves_step ].

Lemma only_marks_playKey (k : nat) : preserves only_marks (playKey k).
Proof. unfold playKey. repeat (intros; first [only_marks_step | case_match]). Qed.

Lemma only_marks_stopKey (k : nat) : preserves only_marks (stopKey k).
Proof. unfold stopKey. repeat (intros; first [only_marks_step | case_match]). Qed.

Lemma only_marks_other_handlers (ev : event) :
  ev ≠ OctaveUp → ev ≠ OctaveDown → preserves only_marks (handle ev).
Proof.
  intros Hup Hdown.
  destruct ev; try done; simpl;
    unfold volume_input, mousedown, mouseup, mouseover, mouseout, touchstart,
      touchend, keydown, keyup;
    repeat (intros; first [ apply only_marks_playKey | apply only_marks_stopKey
                          | only_marks_step | case_match ]).
Qed.

Lemma shown_step (ev : event) (s : PianoUI) :
  Forall2 marks_of (rendered (octave s)) (piano s) →
  Forall2 marks_of (rendered (octave (final_state (handle ev s))))
          (piano (final_state (handle ev s))).
Proof.
  intros Hs.
  assert (∀ o, Forall2 marks_of (rendered o) (rendered o)) as Hrefl.
  { intros o. apply Forall2_same_length_lookup_2; [done|].
    intros i r r' Hr Hr'. rewrite Hr in Hr'. injection Hr' as <-.
    apply marks_of_refl. }
  destruct ev;
    try (match goal with
         | |- context [handle ?ev s] =>
             destruct (only_marks_other_handlers ev ltac:(done) ltac:(done) s)
               as [Ho Hp]
         end; rewrite Ho; by apply Hp).
  - simpl. rewrite octave_up_click_eq. simpl.
    destruct (octave s <? 7)%Z; [apply Hrefl|done].
  - simpl. rewrite octave_down_click_eq. simpl.
    destruct (1 <? octave s)%Z; [apply Hrefl|done].
Qed.

Lemma shown_run (evs : list event) (s : PianoUI) :
  Forall2 marks_of (rendered (octave s)) (piano s) →
  Forall2 marks_of (rendered (octave (run evs s))) (piano (run evs s)).
Proof.
  revert s. induction evs as [|ev evs IH]; intros s Hs; [done|].
  apply IH, shown_step, Hs.
Qed.

Lemma shown_reachable
  (now : Q) (st : context_state) (readout : string) (evs : list event) :
  let s := run evs (final_state (new_PianoUI now st readout)) in
  Forall2 marks_of (rendered (octave s)) (piano s).
Proof.
  apply shown_run. unfold new_PianoUI. rewrite renderPiano_rendered.
  cbn [final_state set_piano piano octave].
  apply Forall2_same_length_lookup_2; [done|].
  intros i r r' Hr Hr'. rewrite Hr in Hr'. injection Hr' as <-.
  apply marks_of_refl.
Qed.

(** X10. In every state the piano reaches, whatever the events, it shows
    thirteen keys. The key of rank [i] carries the note of rank [i mod 12]
    of [NOTES] and the octave of the piano plus [i / 12], so the twelve notes
    from C to B in that octave, then C in the next; its class list is [key],
    then [black] for a sharp and [white] otherwise, then [active] or nothing;
    only its touch tag is free. A listener other than the two octave buttons
    leaves the octave as it is and, key for key, the note, the octave and the
    classes other than [active]: playing, touching and releasing only change
    marks and touch tags. *)
Theorem keys_follow_octave
  (now : Q) (st : context_state) (readout : string) (evs : list event) :
  let s := run evs (final_state (new_PianoUI now st readout)) in
  length (piano s) = 13%nat
  ∧ (∀ i el, piano s !! i = Some el →
       ∃ note active,
         NOTES !! (i mod 12)%nat = Some note
         ∧ data_note el = note
         ∧ data_octave el = octave s + Z.of_nat i / 12
         ∧ classList el
           = ["key"; if includes note "#" then "black" else "white"]
             ++ (if active : bool then ["active"] else []))
  ∧ (∀ ev, ev ≠ OctaveUp → ev ≠ OctaveDown →
       let s' := final_state (handle ev s) in
       octave s' = octave s
       ∧ length (piano s') = 13%nat
       ∧ ∀ i el el', piano s !! i = Some el → piano s' !! i = Some el' →
           data_note el' = data_note el
           ∧ data_octave el' = data_octave el
           ∧ classList (classList_remove "active" el')
             = classList (classList_remove "active" el)).
Proof.
  intros s.
  pose proof (shown_reachable now st readout evs) as Hs. fold s in Hs.
  cbv zeta in Hs.
  assert (length (piano s) = 13%nat) as Hlen
    by (by rewrite <- (Forall2_length _ _ _ Hs)).
  split_and!.
  - exact Hlen.
  - intros i el Hel.
    assert (i < 13)%nat as Hi by (rewrite <- Hlen; by eapply lookup_lt_Some).
    destruct (Forall2_lookup_r _ _ _ _ _ Hs Hel) as (r & Hr & Hn & Ho & Hc).
    rewrite rendered_lookup in Hr by done. injection Hr as <-.
    assert (∃ note, NOTES !! (i mod 12)%nat = Some note) as [note Hnote].
    { apply lookup_lt_is_Some. simpl.
      pose proof (Nat.mod_upper_bound i 12). lia. }
    unfold rendered_key in Hn, Ho, Hc. rewrite Hnote in Hn, Hc.
    cbn [data_note data_octave classList default] in Hn, Ho, Hc.
    destruct Hc as [Hc|Hc].
    + exists note, false. split_and!; [done|done|done|].
      by rewrite Hc, app_nil_r.
    + exists note, true. by split_and!.
  - intros ev Hup Hdown s'.
    destruct (only_marks_other_handlers ev Hup Hdown s) as [Ho Hp].
    fold s' in Ho, Hp.
    pose proof (Hp _ Hs) as Hs'. rewrite <- Ho in Hs.
    split_and!.
    + exact Ho.
    + by rewrite <- (Forall2_length _ _ _ Hs').
    + intros i el el' Hel Hel'. rewrite Ho in Hs.
      destruct (Forall2_lookup_r _ _ _ _ _ Hs Hel) as (r & Hr & Hm).
      destruct (Forall2_lookup_r _ _ _ _ _ Hs' Hel') as (r' & Hr' & Hm').
      rewrite Hr in Hr'. injection Hr' as <-.
      apply (marks_of_unmarked r); [|done|done].
      by eapply rendered_no_active.
Qed.

(** *** The engine behind the piano *)

Lemma engine_calls_perform (c : call R) :
  preserves engine_calls (with_engine (perform c)).
Proof.
  intros s. exists [c]. unfold with_engine, perform_all. cbn [foldl].
  by destruct (perform c (engine s)).
Qed.

Lemma engine_calls_unchanged (f : PianoUI → PianoUI) :
  (∀ s, engine (f s) = engine s) → preserves engine_calls (modify f).
Proof. intros Hf s. exists []. apply Hf. Qed.

Lemma engine_calls_renderPiano : preserves engine_calls renderPiano.
Proof. intros s. rewrite renderPiano_rendered. by exists []. Qed.

Ltac engine_calls_step :=
  lazymatch goal with
  | |- preserves _ (with_engine resume) => apply (engine_calls_perform Resume)
  | |- preserves _ (with_engine (playTone ?k ?f)) =>
      apply (engine_calls_perform (Trigger k f))
  | |- preserves _ (with_engine (stopTone ?k)) =>
      apply (engine_calls_perform (Release k))
  | |- preserves _ (with_engine (setVolume ?v)) =>
      apply (engine_calls_perform (Volume v))
  | |- preserves _ (modify _) => apply engine_calls_unchanged; done
  | |- preserves _ (alter_key _ _) => apply engine_calls_unchanged; done
  | |- preserves _ renderPiano => apply engine_calls_renderPiano
  | |- _ => preserves_step
  end.

Lemma engine_calls_playKey (k : nat) : preserves engine_calls (playKey k).
Proof.
  unfold playKey. repeat (intros; first [engine_calls_step | case_match]).
Qed.

Lemma engine_calls_stopKey (k : nat) : preserves engine_calls (stopKey k).
Proof.
  unfold stopKey. repeat (intros; first [engine_calls_step | case_match]).
Qed.

Ltac engine_calls_handler :=
  repeat (intros;
          lazymatch goal with
          | |- preserves _ (playKey _) => apply engine_calls_playKey
          | |- preserves _ (stopKey _) => apply engine_calls_stopKey
          | |- _ => first [engine_calls_step | case_match]
          end).

Lemma engine_calls_handle (ev : event) : preserves engine_calls (handle ev).
Proof.
  destruct ev; simpl.
  - unfold octave_up_click, updateOctaveDisplay. engine_calls_handler.
  - unfold octave_down_click, updateOctaveDisplay. engine_calls_handler.
  - unfold volume_input. engine_calls_handler.
  - unfold mousedown. engine_calls_handler.
  - unfold mouseup. engine_calls_handler.
  - unfold mouseover. engine_calls_handler.
  - unfold mouseout. engine_calls_handler.
  - unfold touchstart. engine_calls_handler.
  - unfold touchend. engine_calls_handler.
  - unfold keydown. engine_calls_handler.
  - unfold keyup. engine_calls_handler.
  - intros s. by exists [Elapse dt].
Qed.

(** X11. The piano drives its engine through the engine's own operations
    only: the engine of every state the piano reaches is the engine a
    sequence of triggers, releases, volume settings and resumptions, with the
    clock moving in between, makes of a new one. *)
Theorem engine_reached_by_calls
  (now : Q) (st : context_state) (readout : string) (evs : list event) :
  ∃ cs : list (call R),
    engine (run evs (final_state (new_PianoUI now st readout)))
    = perform_all cs (new_AudioEngine now st).
Proof.
  destruct (preserves_run engine_calls evs
              (final_state (new_PianoUI now st readout)) engine_calls_handle)
    as [cs Hcs].
  exists cs. exact Hcs.
Qed.

Lemma piano_table_inv
  (now : Q) (st : context_state) (readout : string) (evs : list event) :
  ∃ owner,
    table_inv (engine (run evs (final_state (new_PianoUI now st readout))))
              owner.
Proof.
  destruct (preserves_run engine_calls evs
              (final_state (new_PianoUI now st readout)) engine_calls_handle)
    as [cs Hcs].
  change (engine (final_state (new_PianoUI now st readout)))
    with (new_AudioEngine (Freq := R) now st) in Hcs. rewrite Hcs.
  eexists. rewrite <- perform_all_owned_fst. apply table_inv_reachable.
Qed.

(** *** Playing and stopping a key *)

Lemma stopTone_voice_key {Freq : Type} (e : AudioEngine Freq)
  (note : string) (octave : Z) :
  stopTone (voice_key note octave) e
  = Normal tt (final_state (stopTone (voice_key note octave) e)).
Proof.
  destruct (oscillators e !! voice_key note octave) as [v|] eqn:Hv.
  - by rewrite (stopTone_own _ _ _ Hv).
  - rewrite stopTone_none; [done..|]. apply voice_key_not_inherited.
Qed.

Lemma playKey_eq (k : nat) (el : KeyElement) (s : PianoUI) :
  piano s !! k = Some el → playKey k s = Normal tt (played k el s).
Proof.
  intros Hel. unfold playKey, bind, get. rewrite Hel.
  unfold with_engine at 2. unfold resume at 1, modify, alter_key.
  unfold with_engine. simpl. by rewrite playTone_voice_key.
Qed.

Lemma playKey_null (k : nat) (s : PianoUI) :
  piano s !! k = None → playKey k s = Normal tt s.
Proof. intros Hel. unfold playKey, bind, get. by rewrite Hel. Qed.

Lemma stopKey_eq (k : nat) (el : KeyElement) (s : PianoUI) :
  piano s !! k = Some el → stopKey k s = Normal tt (stopped k el s).
Proof.
  intros Hel. unfold stopKey, bind, get. rewrite Hel.
  unfold alter_key, modify, with_engine. simpl.
  by rewrite stopTone_voice_key.
Qed.

Lemma querySelector_key_Some (note : string) (octave : Z) (s : PianoUI)
  (k : nat) :
  querySelector_key note octave s = Some k →
  ∃ el, piano s !! k = Some el ∧ key_data el = (note, octave, true).
Proof.
  unfold querySelector_key.
  destruct (list_find _ (piano s)) as [[i el]|] eqn:Hf; [|done].
  intros [= <-]. apply list_find_Some in Hf as (Hel & HP & _).
  exists el. split; [done|].
  apply andb_prop_elim in HP as [HP Ho]. apply andb_prop_elim in HP as [Hk Hn].
  apply Is_true_eq_true in Hk, Hn, Ho.
  apply String.eqb_eq in Hn. apply Z.eqb_eq in Ho.
  unfold key_data. by rewrite Hk, Hn, Ho.
Qed.

Lemma querySelector_key_found (note : string) (octave : Z) (s : PianoUI)
  (i : nat) (el : KeyElement) :
  piano s !! i = Some el → key_data el = (note, octave, true) →
  is_Some (querySelector_key note octave s).
Proof.
  intros Hel [= Hn Ho Hk]. unfold querySelector_key.
  apply fmap_is_Some. eapply list_find_elem_of.
  - by eapply list_elem_of_lookup_2.
  - rewrite Hk, Hn, Ho. simpl. by rewrite String.eqb_refl, Z.eqb_refl.
Qed.

Lemma KEY_MAP_entries (k noteBase : string) :
  KEY_MAP !! k = Some noteBase →
  noteBase ∈ ["C"; "C#"; "D"; "D#"; "E"; "F"; "F#"; "G"; "G#"; "A"; "A#"; "B";
              "C2"].
Proof.
  intros Hv. unfold KEY_MAP in Hv. apply elem_of_list_to_map_2 in Hv.
  repeat (apply elem_of_cons in Hv as [[= -> ->]|Hv]; [set_solver|]).
  by apply elem_of_nil in Hv.
Qed.

(** The key a mapped physical key stands for is one of the rendering. *)
Lemma resolve_rendered (k noteBase : string) (octave : Z) :
  KEY_MAP !! k = Some noteBase →
  ∃ i, (i < 13)%nat
       ∧ key_data (rendered_key octave i)
         = ((resolve noteBase octave).1, (resolve noteBase octave).2, true)
       ∧ (resolve noteBase octave).1 ∈ NOTES.
Proof.
  intros Hk%KEY_MAP_entries.
  assert (∀ i : nat, (i < 12)%nat →
            data_octave (rendered_key octave i) = octave) as Hoct.
  { intros i Hi. unfold rendered_key. simpl.
    rewrite Z.div_small by lia. lia. }
  assert (data_octave (rendered_key octave 12) = octave + 1) as Hoct'.
  { done. }
  repeat (apply elem_of_cons in Hk as [->|Hk];
          [match goal with
           | |- context [resolve ?nb _] =>
               let i := eval vm_compute in
                 (Z.to_nat (if String.eqb nb "C2" then 12
                            else indexOf NOTES nb)) in
               exists i;
               split; [lia|];
               split; [unfold key_data; rewrite ?Hoct, ?Hoct' by lia; done
                      |apply (bool_decide_unpack _); vm_compute; exact I]
           end|]).
  by apply elem_of_nil in Hk.
Qed.

Lemma resume_state {Freq : Type} (e : AudioEngine Freq) :
  state (final_state (resume e))
  = if reads_suspended (state e) then Resuming else state e.
Proof.
  unfold resume, modify. simpl. by destruct (state e) eqn:E; simpl; rewrite ?E.
Qed.

Lemma resume_nodes {Freq : Type} (e : AudioEngine Freq) :
  osc_nodes (final_state (resume e)) = osc_nodes e
  ∧ gain_nodes (final_state (resume e)) = gain_nodes e
  ∧ currentTime (final_state (resume e)) = currentTime e
  ∧ oscillators (final_state (resume e)) = oscillators e.
Proof. unfold resume, modify. simpl. by destruct (state e). Qed.

Lemma keydown_played (e : KeyboardEvent) (noteBase : string) (s : PianoUI) :
  well_rendered s → repeat e = false →
  KEY_MAP !! toLowerCase (key e) = Some noteBase →
  ∃ k el,
    keydown e s = Normal tt (played k el s)
    ∧ piano s !! k = Some el
    ∧ key_data el
      = ((resolve noteBase (octave s)).1, (resolve noteBase (octave s)).2, true).
Proof.
  intros Hs Hr Hk.
  destruct (resolve_rendered _ _ (octave s) Hk) as (i & Hi & Hdata & _).
  destruct (well_rendered_lookup s i Hs Hi) as (el0 & Hel0 & Hd0).
  rewrite Hdata in Hd0.
  destruct (querySelector_key_found _ _ s i el0 Hel0 Hd0) as [k Hq].
  destruct (querySelector_key_Some _ _ _ _ Hq) as (el & Hel & Hd).
  exists k, el. split_and!; [|done..].
  rewrite (keydown_eq e noteBase s Hr Hk), Hq. by apply playKey_eq.
Qed.

Lemma keyup_stopped (e : KeyboardEvent) (noteBase : string) (s : PianoUI) :
  well_rendered s →
  KEY_MAP !! toLowerCase (key e) = Some noteBase →
  ∃ k el,
    keyup e s = Normal tt (stopped k el s)
    ∧ piano s !! k = Some el
    ∧ key_data el
      = ((resolve noteBase (octave s)).1, (resolve noteBase (octave s)).2, true).
Proof.
  intros Hs Hk.
  destruct (resolve_rendered _ _ (octave s) Hk) as (i & Hi & Hdata & _).
  destruct (well_rendered_lookup s i Hs Hi) as (el0 & Hel0 & Hd0).
  rewrite Hdata in Hd0.
  destruct (querySelector_key_found _ _ s i el0 Hel0 Hd0) as [k Hq].
  destruct (querySelector_key_Some _ _ _ _ Hq) as (el & Hel & Hd).
  exists k, el. split_and!; [|done..].
  rewrite (keyup_eq e noteBase s Hk), Hq. by apply stopKey_eq.
Qed.

(** X12. In a state that shows the keys of its octave, a key-down that is
    not a repeat, of a physical key the table maps, returns without raising
    and triggers the identity the key stands for at the current octave: the
    rendered key of that identity is marked active, a context that reads
    suspended has been asked to resume and still reads suspended, a context
    in another state is left in it, and the table holds for the identity a
    new oscillator, the last of the graph, set to the frequency of the
    identity. *)
Theorem keydown_triggers_identity (e : KeyboardEvent) (noteBase : string)
  (s : PianoUI) :
  well_rendered s → repeat e = false →
  KEY_MAP !! toLowerCase (key e) = Some noteBase →
  let note := (resolve noteBase (octave s)).1 in
  let oct := (resolve noteBase (octave s)).2 in
  ∃ s' k el o,
    keydown e s = Normal tt s'
    ∧ piano s !! k = Some el
    ∧ key_data el = (note, oct, true)
    ∧ piano s' = alter (classList_add "active") k (piano s)
    ∧ state (engine s')
      = (if reads_suspended (state (engine s)) then Resuming
         else state (engine s))
    ∧ oscillators (engine s') !! voice_key note oct
      = Some {| osc := length (osc_nodes (engine s));
                gain_ref := length (gain_nodes (engine s)) |}
    ∧ osc_nodes (engine s') !! length (osc_nodes (engine s)) = Some o
    ∧ frequency o = [(getFrequency note oct, currentTime (engine s))]
    ∧ stop_time o = None.
Proof.
  intros Hs Hr Hk note oct.
  destruct (keydown_played e noteBase s Hs Hr Hk) as (k & el & Hplay & Hel & Hd).
  fold note oct in Hd.
  pose proof Hd as Hd'. injection Hd' as Hn Ho _.
  pose proof (resume_nodes (engine s)) as (Hosc & Hgain & Hnow & _).
  exists (played k el s), k, el,
    (new_oscillator (getFrequency note oct) (currentTime (engine s))
       (length (gain_nodes (engine s)))).
  split_and!.
  - exact Hplay.
  - done.
  - exact Hd.
  - done.
  - unfold played. cbn [engine]. unfold retriggered.
    destruct (oscillators _ !! _); simpl; apply resume_state.
  - unfold played. cbn [engine].
    rewrite Hn, Ho, retriggered_lookup. by rewrite Hosc, Hgain.
  - unfold played. cbn [engine]. rewrite Hn, Ho. rewrite <- Hosc at 1.
    by rewrite retriggered_new_node, Hgain, Hnow.
  - done.
  - done.
Qed.

Lemma keydown_triggers_identity_witness :
  let s := final_state (new_PianoUI 0 Suspended "Octave: 4") in
  ∃ s' k el o,
    keydown {| key := "K"; repeat := false |} s = Normal tt s'
    ∧ piano s !! k = Some el
    ∧ key_data el = ("C", 5, true)
    ∧ piano s' = alter (classList_add "active") k (piano s)
    ∧ state (engine s') = Resuming
    ∧ oscillators (engine s') !! voice_key "C" 5
      = Some {| osc := 0; gain_ref := 0 |}
    ∧ osc_nodes (engine s') !! 0%nat = Some o
    ∧ frequency o = [(getFrequency "C" 5, 0%Q)]
    ∧ stop_time o = None.
Proof.
  intros s.
  apply (keydown_triggers_identity {| key := "K"; repeat := false |} "C2" s).
  - reflexivity.
  - reflexivity.
  - vm_compute. reflexivity.
Defined.

Lemma stopTone_table {Freq : Type} (e : AudioEngine Freq)
  (note : string) (octave : Z) :
  oscillators (final_state (stopTone (voice_key note octave) e))
  = delete (voice_key note octave) (oscillators e)
  ∧ length (osc_nodes (final_state (stopTone (voice_key note octave) e)))
    = length (osc_nodes e).
Proof.
  destruct (oscillators e !! voice_key note octave) as [v|] eqn:Hv.
  - rewrite (stopTone_own _ _ _ Hv). simpl. by rewrite length_alter.
  - rewrite stopTone_none; [|done|apply voice_key_not_inherited]. simpl.
    by rewrite delete_id.
Qed.

(** X13. In a state that shows the keys of its octave, the key-up of a
    mapped physical key returns without raising and releases the identity the
    key stands for at the octave displayed when the key goes up: that
    identity leaves the table, every other entry stays, no oscillator is
    created, and the mark is taken off the rendered key of that identity. *)
Theorem keyup_releases_displayed_identity (e : KeyboardEvent)
  (noteBase : string) (s : PianoUI) :
  well_rendered s →
  KEY_MAP !! toLowerCase (key e) = Some noteBase →
  let note := (resolve noteBase (octave s)).1 in
  let oct := (resolve noteBase (octave s)).2 in
  ∃ s' k el,
    keyup e s = Normal tt s'
    ∧ piano s !! k = Some el
    ∧ key_data el = (note, oct, true)
    ∧ piano s' = alter (classList_remove "active") k (piano s)
    ∧ oscillators (engine s')
      = delete (voice_key note oct) (oscillators (engine s))
    ∧ length (osc_nodes (engine s')) = length (osc_nodes (engine s))
    ∧ octave s' = octave s.
Proof.
  intros Hs Hk note oct.
  destruct (keyup_stopped e noteBase s Hs Hk) as (k & el & Hup & Hel & Hd).
  fold note oct in Hd. pose proof Hd as Hd'. injection Hd' as Hn Ho _.
  exists (stopped k el s), k, el.
  destruct (stopTone_table (engine s) note oct) as [Ht Hl].
  split_and!; [done..| | |done]; unfold stopped; cbn [engine];
    by rewrite Hn, Ho.
Qed.

Lemma keyup_releases_displayed_identity_witness :
  let s := run [KeyDown {| key := "a"; repeat := false |}]
               (final_state (new_PianoUI 0 Suspended "Octave: 4")) in
  ∃ s' k el,
    keyup {| key := "A"; repeat := false |} s = Normal tt s'
    ∧ piano s !! k = Some el
    ∧ key_data el = ("C", 4, true)
    ∧ piano s' = alter (classList_remove "active") k (piano s)
    ∧ oscillators (engine s')
      = delete (voice_key "C" 4) (oscillators (engine s))
    ∧ length (osc_nodes (engine s')) = length (osc_nodes (engine s))
    ∧ octave s' = octave s.
Proof.
  intros s.
  apply (keyup_releases_displayed_identity
           {| key := "A"; repeat := false |} "C" s).
  - reflexivity.
  - vm_compute. reflexivity.
Defined.

(** *** Keys marked active *)

Lemma active_elem (s : PianoUI) (k : nat) :
  k ∈ querySelectorAll_key_active s ↔
  ∃ el, piano s !! k = Some el
        ∧ classList_contains "key" el = true
        ∧ classList_contains "active" el = true.
Proof.
  unfold querySelectorAll_key_active. rewrite list_elem_of_omap. split.
  - intros ([i0 el0] & Hin & Hf). apply elem_of_lookup_imap in Hin
      as (i & el & Heq & Hel). injection Heq as -> ->.
    destruct (classList_contains "key" el) eqn:Hk; [|done].
    destruct (classList_contains "active" el) eqn:Ha; [|done].
    simpl in Hf. injection Hf as <-. by exists el.
  - intros (el & Hel & Hk & Ha). exists (k, el). split.
    + apply elem_of_lookup_imap. by exists k, el.
    + by rewrite Hk, Ha.
Qed.

Lemma active_nil (s : PianoUI) :
  (∀ k el, piano s !! k = Some el →
           classList_contains "key" el && classList_contains "active" el
           = false) →
  querySelectorAll_key_active s = [].
Proof.
  intros Hno. apply elem_of_nil_inv. intros k Hk.
  apply active_elem in Hk as (el & Hel & Hkey & Hact).
  specialize (Hno k el Hel). by rewrite Hkey, Hact in Hno.
Qed.

Lemma contains_active_remove (el : KeyElement) :
  classList_contains "active" (classList_remove "active" el) = false.
Proof.
  unfold classList_contains, classList_remove. simpl.
  apply bool_decide_eq_false_2. rewrite list_elem_of_In, filter_In.
  by intros [_ ?].
Qed.

Lemma rendered_key_not_active (startOctave : Z) (i : nat) :
  classList_contains "active" (rendered_key startOctave i) = false.
Proof.
  unfold classList_contains, rendered_key. simpl.
  by destruct (includes _ _).
Qed.

Lemma remove_active_idemp (el : KeyElement) :
  classList_remove "active" (classList_remove "active" el)
  = classList_remove "active" el.
Proof.
  unfold classList_remove. simpl. f_equal.
  induction (classList el) as [|c l IH]; [done|]. simpl.
  destruct (negb (String.eqb c "active")) eqn:Hc; simpl; [|done].
  by rewrite Hc, IH.
Qed.

(** The loop of a global release: every listed key is stopped. *)
Lemma forEach_stopKey (l : list nat) (s : PianoUI) :
  (∀ k, k ∈ l → is_Some (piano s !! k)) →
  ∃ s',
    forEach stopKey l s = Normal tt s'
    ∧ isDragging s' = isDragging s
    ∧ octave s' = octave s
    ∧ length (osc_nodes (engine s')) = length (osc_nodes (engine s))
    ∧ (∀ j, piano s' !! j
            = (if bool_decide (j ∈ l) then classList_remove "active"
               else fun el => el)
              <$> piano s !! j)
    ∧ (∀ K, oscillators (engine s) !! K = None →
            oscillators (engine s') !! K = None)
    ∧ (∀ k el, k ∈ l → piano s !! k = Some el →
               oscillators (engine s')
                 !! voice_key (data_note el) (data_octave el) = None).
Proof.
  revert s. induction l as [|k l IH]; intros s Hl.
  - exists s. split_and!; try done.
    + intros j. rewrite bool_decide_eq_false_2 by apply not_elem_of_nil.
      by destruct (piano s !! j).
    + intros k el Hk. by apply elem_of_nil in Hk.
  - destruct (Hl k) as [el Hel]; [left|].
    destruct (stopTone_table (engine s) (data_note el) (data_octave el))
      as [Htab Hlen].
    destruct (IH (stopped k el s)) as (s' & Hrun & Hd & Ho & Hn & Hp & Hnone & Hrel).
    { intros k' Hk'. simpl. apply lookup_lt_is_Some. rewrite length_alter.
      apply lookup_lt_is_Some, Hl. by right. }
    exists s'. split_and!.
    + simpl. unfold bind. by rewrite (stopKey_eq _ _ _ Hel).
    + done.
    + done.
    + rewrite Hn. unfold stopped. cbn [engine]. exact Hlen.
    + intros j. rewrite Hp. simpl.
      destruct (decide (j = k)) as [->|Hne].
      * rewrite list_lookup_alter_eq, Hel. simpl.
        rewrite (bool_decide_eq_true_2 (k ∈ k :: l)) by left.
        case_bool_decide; [by rewrite remove_active_idemp|done].
      * rewrite list_lookup_alter_ne by done.
        destruct (piano s !! j) as [elj|]; [|done]. simpl.
        assert (j ∈ k :: l ↔ j ∈ l) as Hiff.
        { rewrite elem_of_cons. split; [by intros [?|?]|by right]. }
        by rewrite (bool_decide_ext _ _ Hiff).
    + intros K HK. apply Hnone. unfold stopped. cbn [engine].
      rewrite Htab. apply lookup_delete_None. by right.
    + intros k' el' Hk' Hel'.
      apply elem_of_cons in Hk' as [->|Hk'].
      * assert (el' = el) as -> by congruence.
        apply Hnone. unfold stopped. cbn [engine]. rewrite Htab.
        apply lookup_delete_eq.
      * destruct (decide (k' = k)) as [->|Hne].
        -- assert (el' = el) as -> by congruence.
           apply Hnone. unfold stopped. cbn [engine]. rewrite Htab.
           apply lookup_delete_eq.
        -- apply (Hrel k' el' Hk'). simpl.
           by rewrite list_lookup_alter_ne.
Qed.

Lemma mouseup_shape (s : PianoUI) :
  ∃ s',
    mouseup s = Normal tt s'
    ∧ isDragging s' = false
    ∧ querySelectorAll_key_active s' = []
    ∧ length (osc_nodes (engine s')) = length (osc_nodes (engine s))
    ∧ ∀ k el, k ∈ querySelectorAll_key_active s → piano s !! k = Some el →
              oscillators (engine s')
                !! voice_key (data_note el) (data_octave el) = None.
Proof.
  destruct (forEach_stopKey (querySelectorAll_key_active s)
              (set_isDragging false s))
    as (s' & Hrun & Hd & Ho & Hn & Hp & Hnone & Hrel).
  { intros k (el & Hel & _)%active_elem. by exists el. }
  exists s'. split_and!.
  - exact Hrun.
  - by rewrite Hd.
  - apply active_nil. intros k el'. rewrite Hp. simpl.
    destruct (piano s !! k) as [el|] eqn:Hel; [|done]. simpl.
    case_bool_decide as Hk; intros [= <-].
    + by rewrite contains_active_remove, andb_false_r.
    + simpl. apply not_true_is_false. intros [Hkey Hact]%andb_prop.
      apply Hk, active_elem. by exists el.
  - by rewrite Hn.
  - exact Hrel.
Qed.

(** X14. A pointer-up anywhere returns without raising, ends the dragging,
    and releases every key marked active: afterwards no key is marked, none
    of the identities of the keys that were marked has an entry in the
    table, and no oscillator has been created. *)
Theorem mouseup_releases_all_active (s : PianoUI) :
  ∃ s',
    mouseup s = Normal tt s'
    ∧ isDragging s' = false
    ∧ querySelectorAll_key_active s' = []
    ∧ length (osc_nodes (engine s')) = length (osc_nodes (engine s))
    ∧ Forall (fun k =>
                match piano s !! k with
                | Some el =>
                    oscillators (engine s')
                      !! voice_key (data_note el) (data_octave el) = None
                | None => True
                end)
             (querySelectorAll_key_active s).
Proof.
  destruct (mouseup_shape s) as (s' & Hup & Hdrag & Hact & Hlen & Hrel).
  exists s'. split_and!; [done..|].
  apply Forall_forall. intros k Hk.
  destruct (piano s !! k) as [el|] eqn:Hel; [|done].
  by apply (Hrel k el).
Qed.

(** *** Octave changes while keys are held *)

Lemma run_app (evs1 evs2 : list event) (s : PianoUI) :
  run (evs1 ++ evs2) s = run evs2 (run evs1 s).
Proof. unfold run. apply foldl_app. Qed.

Lemma resolve_next_octave (noteBase : string) (octave : Z) :
  resolve noteBase (octave + 1)
  = ((resolve noteBase octave).1, (resolve noteBase octave).2 + 1).
Proof. unfold resolve. by destruct (String.eqb noteBase "C2"). Qed.

Lemma voice_key_octave_ne (note : string) (o1 o2 : Z) :
  o1 ≠ o2 → voice_key note o1 ≠ voice_key note o2.
Proof.
  intros Hne Heq. unfold voice_key in Heq.
  apply (inj (String.app note)) in Heq. by apply (inj pretty) in Heq.
Qed.

Lemma rendered_not_active (startOctave : Z) (j : nat) (el : KeyElement) :
  rendered startOctave !! j = Some el →
  classList_contains "active" el = false.
Proof.
  intros Hel. assert (j < 13)%nat as Hj.
  { by apply lookup_lt_Some in Hel. }
  rewrite rendered_lookup in Hel by done. injection Hel as <-.
  apply rendered_key_not_active.
Qed.

(** X15. In a state the piano reaches with its octave below 7, a mapped
    physical key is pressed, the octave is raised while the key is held, and
    the key is let go. The key-up resolves the key at the new octave, so the
    voice the key-down started stays registered and live, with no stop
    scheduled, while no rendered key is marked active any more. *)
Theorem held_key_outlives_octave_change
  (now : Q) (st : context_state) (readout : string) (evs : list event)
  (e : KeyboardEvent) (noteBase : string) :
  let s := run evs (final_state (new_PianoUI now st readout)) in
  octave s < 7 → repeat e = false →
  KEY_MAP !! toLowerCase (key e) = Some noteBase →
  let note := (resolve noteBase (octave s)).1 in
  let oct := (resolve noteBase (octave s)).2 in
  let s' := run [KeyDown e; OctaveUp; KeyUp e] s in
  octave s' = octave s + 1
  ∧ querySelectorAll_key_active s' = []
  ∧ ∃ v, oscillators (engine s') !! voice_key note oct = Some v
         ∧ osc v = length (osc_nodes (engine s))
         ∧ live (engine s') (osc v) = true.
Proof.
  intros s Hoct Hr Hk note oct s'.
  assert (well_rendered s) as Hs by (by apply well_rendered_run).
  destruct (keydown_played e noteBase s Hs Hr Hk) as (k & el & Hdown & Hel & Hd).
  fold note oct in Hd. injection Hd as Hn Ho _.
  set (s1 := played k el s) in *.
  set (s2 := {| engine := engine s1;
                piano := rendered (octave s + 1);
                octave := octave s + 1;
                baseOctave := baseOctave s1;
                isDragging := isDragging s1;
                octave_display := "Octave: " +:+ pretty (octave s + 1) |}).
  assert (final_state (handle OctaveUp s1) = s2) as Hup.
  { simpl. rewrite octave_up_click_eq. simpl.
    by rewrite (proj2 (Z.ltb_lt _ _) Hoct). }
  assert (well_rendered s2) as Hs2 by done.
  destruct (keyup_stopped e noteBase s2 Hs2 Hk) as (k2 & el2 & Hkeyup & Hel2 & Hd2).
  simpl in Hd2. rewrite resolve_next_octave in Hd2. fold note oct in Hd2.
  injection Hd2 as Hn2 Ho2 _.
  assert (s' = stopped k2 el2 s2) as Hs'.
  { unfold s', run. cbn [foldl handle].
    rewrite Hdown. cbn [final_state]. fold s1.
    change (octave_up_click s1) with (handle OctaveUp s1). rewrite Hup.
    by rewrite Hkeyup. }
  split_and!.
  - by rewrite Hs'.
  - rewrite Hs'. apply active_nil. intros j elj.
    unfold stopped. cbn [piano]. unfold s2 in Hel2 |- *. cbn [piano] in Hel2 |- *.
    destruct (decide (j = k2)) as [->|Hne].
    + rewrite list_lookup_alter_eq, Hel2. intros [= <-].
      by rewrite contains_active_remove, andb_false_r.
    + rewrite list_lookup_alter_ne by done. intros Helj.
      by rewrite (rendered_not_active _ _ _ Helj), andb_false_r.
  - destruct (piano_table_inv now st readout (evs ++ [KeyDown e; OctaveUp; KeyUp e]))
      as [owner Hinv].
    rewrite run_app in Hinv. fold s s' in Hinv.
    assert (oscillators (engine s') !! voice_key note oct
            = Some {| osc := length (osc_nodes (engine s));
                      gain_ref := length (gain_nodes (engine s)) |}) as Hv.
    { rewrite Hs'. unfold stopped. cbn [engine].
      rewrite Hn2, Ho2.
      rewrite (proj1 (stopTone_table _ note (oct + 1))).
      rewrite lookup_delete_ne by (apply voice_key_octave_ne; lia).
      unfold s2, s1, played. cbn [engine]. rewrite Hn, Ho.
      rewrite retriggered_lookup.
      destruct (resume_nodes (engine s)) as (-> & -> & _). done. }
    eexists. split_and!; [exact Hv|done|].
    by destruct (inv_registered _ _ Hinv _ _ Hv).
Qed.

Lemma held_key_outlives_octave_change_witness :
  let s := run [] (final_state (new_PianoUI 0 Suspended "Octave: 4")) in
  let e := {| key := "a"; repeat := false |} in
  let s' := run [KeyDown e; OctaveUp; KeyUp e] s in
  octave s' = 4 + 1
  ∧ querySelectorAll_key_active s' = []
  ∧ ∃ v, oscillators (engine s') !! voice_key "C" 4 = Some v
         ∧ osc v = 0%nat
         ∧ live (engine s') (osc v) = true.
Proof.
  intros s e s'.
  apply (held_key_outlives_octave_change 0 Suspended "Octave: 4" [] e "C").
  - vm_compute. reflexivity.
  - reflexivity.
  - vm_compute. reflexivity.
Defined.

(** X16. With the octave below 7 and at least 1, an octave-up followed by
    an octave-down comes back to the same octave: the engine and the
    dragging flag are untouched, the readout shows the octave, and the keys
    are those of a fresh rendering, so every mark and touch tag is gone. *)
Theorem octave_up_down_round_trip (s : PianoUI) :
  1 ≤ octave s < 7 →
  run [OctaveUp; OctaveDown] s
  = {| engine := engine s;
       piano := rendered (octave s);
       octave := octave s;
       baseOctave := baseOctave s;
       isDragging := isDragging s;
       octave_display := "Octave: " +:+ pretty (octave s) |}.
Proof.
  intros [H1 H7]. unfold run. cbn [foldl handle].
  rewrite octave_up_click_eq. cbn [final_state].
  rewrite (proj2 (Z.ltb_lt _ _) H7).
  rewrite octave_down_click_eq. cbn [final_state octave].
  rewrite (proj2 (Z.ltb_lt 1 (octave s + 1))) by lia.
  cbn [engine baseOctave isDragging]. by rewrite Z.add_simpl_r.
Qed.

Lemma octave_up_down_round_trip_witness :
  let s := run [KeyDown {| key := "a"; repeat := false |}]
               (final_state (new_PianoUI 0 Suspended "Octave: 4")) in
  run [OctaveUp; OctaveDown] s
  = {| engine := engine s;
       piano := rendered (octave s);
       octave := octave s;
       baseOctave := baseOctave s;
       isDragging := isDragging s;
       octave_display := "Octave: " +:+ pretty (octave s) |}.
Proof.
  intros s. apply (octave_up_down_round_trip s). vm_compute.
  split; [discriminate|reflexivity].
Defined.

(** X17. In every state the piano reaches, an oscillator that sounds with
    no stop scheduled is the oscillator of a registered voice: none is left
    that a release could not reach. *)
Theorem sounding_oscillators_are_registered
  (now : Q) (st : context_state) (readout : string) (evs : list event)
  (i : nat) :
  let s := run evs (final_state (new_PianoUI now st readout)) in
  live (engine s) i = true →
  ∃ k v, oscillators (engine s) !! k = Some v ∧ osc v = i.
Proof.
  intros s Hlive.
  destruct (piano_table_inv now st readout evs) as [owner Hinv]. fold s in Hinv.
  pose proof (live_lt _ _ Hlive) as Hlt.
  rewrite <- (inv_length _ _ Hinv) in Hlt.
  apply lookup_lt_is_Some in Hlt as [k Hk].
  destruct (inv_live _ _ Hinv i k Hlive Hk) as (v & Hv & Hosc).
  by exists k, v.
Qed.

Lemma sounding_oscillators_are_registered_witness :
  let s := run [KeyDown {| key := "a"; repeat := false |}]
               (final_state (new_PianoUI 0 Suspended "Octave: 4")) in
  live (engine s) 0 = true
  ∧ ∃ k v, oscillators (engine s) !! k = Some v ∧ osc v = 0%nat.
Proof.
  intros s.
  assert (live (engine s) 0 = true) as Hlive by (vm_compute; reflexivity).
  split; [exact Hlive|].
  exact (sounding_oscillators_are_registered 0 Suspended "Octave: 4"
           [KeyDown {| key := "a"; repeat := false |}] 0%nat Hlive).
Defined.

(** *** Touches *)

Lemma touchend_loops (ts : list Touch) :
  touchend ts
  = forEach (fun touch =>
               s <~ get ;;
               forEach (touch_release (identifier touch))
                       (querySelectorAll_key_active s))
            ts.
Proof. reflexivity. Qed.

(** One pass of the inner loop over a list of keys. *)
Lemma forEach_touch_release (t : Z) (l : list nat) (s : PianoUI) :
  (∀ k, k ∈ l → is_Some (piano s !! k)) →
  ∃ s',
    forEach (touch_release t) l s = Normal tt s'
    ∧ length (osc_nodes (engine s')) = length (osc_nodes (engine s))
    ∧ (∀ j, piano s' !! j
            = (fun el => if bool_decide (j ∈ l)
                            && bool_decide (data_touchId el = Some t)
                         then lifted el else el) <$> piano s !! j)
    ∧ (∀ K, (∃ j el, j ∈ l ∧ piano s !! j = Some el
                     ∧ data_touchId el = Some t ∧ K = identity_key el) →
            oscillators (engine s') !! K = None)
    ∧ (∀ K, ¬ (∃ j el, j ∈ l ∧ piano s !! j = Some el
                       ∧ data_touchId el = Some t ∧ K = identity_key el) →
            oscillators (engine s') !! K = oscillators (engine s) !! K)
    ∧ (∀ K, oscillators (engine s) !! K = None →
            oscillators (engine s') !! K = None).
Proof.
  revert s. induction l as [|k l IH]; intros s Hl.
  { exists s. split_and!; try done.
    - intros j. rewrite bool_decide_eq_false_2 by apply not_elem_of_nil.
      by destruct (piano s !! j).
    - intros K (j & el & Hj & _). by apply elem_of_nil in Hj. }
  destruct (Hl k) as [el Hel]; [left|].
  destruct (decide (data_touchId el = Some t)) as [Ht|Ht].
  - (* the key carries the tag: it is stopped and untagged *)
    set (s1 := {| engine := engine (stopped k el s);
                  piano := alter (set_touchId None) k (piano (stopped k el s));
                  octave := octave s;
                  baseOctave := baseOctave s;
                  isDragging := isDragging s;
                  octave_display := octave_display s |}).
    assert (touch_release t k s = Normal tt s1) as Hstep.
    { unfold touch_release, bind, get. rewrite Hel.
      rewrite bool_decide_eq_true_2 by done.
      by rewrite (stopKey_eq _ _ _ Hel). }
    assert (∀ j, piano s1 !! j
                 = (fun e => if bool_decide (j = k) then lifted e else e)
                   <$> piano s !! j) as Hp1.
    { intros j. unfold s1, stopped. cbn [piano].
      destruct (decide (j = k)) as [->|Hne].
      - rewrite !list_lookup_alter_eq, Hel. simpl.
        by rewrite bool_decide_eq_true_2.
      - rewrite !list_lookup_alter_ne by done.
        rewrite bool_decide_eq_false_2 by done. by destruct (piano s !! j). }
    destruct (stopTone_table (engine s) (data_note el) (data_octave el))
      as [Htab Hlen].
    destruct (IH s1) as (s' & Hrun & Hn & Hp & Hnone & Hsame & Hmono).
    { intros k' Hk'. rewrite Hp1. apply fmap_is_Some, Hl. by right. }
    exists s'. split_and!.
    + simpl. unfold bind. by rewrite Hstep.
    + rewrite Hn. exact Hlen.
    + intros j. rewrite Hp, Hp1.
      destruct (piano s !! j) as [elj|] eqn:Helj; [|done]. simpl. f_equal.
      destruct (decide (j = k)) as [->|Hne].
      * assert (elj = el) as -> by congruence.
        rewrite (bool_decide_eq_true_2 (k = k)) by done.
        rewrite (bool_decide_eq_true_2 (k ∈ k :: l)) by left.
        rewrite (bool_decide_eq_true_2 (data_touchId el = Some t)) by done.
        rewrite (bool_decide_eq_false_2 (data_touchId (lifted el) = Some t))
          by done.
        by rewrite andb_false_r.
      * rewrite (bool_decide_eq_false_2 (j = k)) by done.
        assert (j ∈ k :: l ↔ j ∈ l) as Hiff.
        { rewrite elem_of_cons. split; [by intros [?|?]|by right]. }
        by rewrite (bool_decide_ext _ _ Hiff).
    + intros K (j & elj & Hj & Helj & Htj & ->).
      destruct (decide (j = k)) as [->|Hne].
      * assert (elj = el) as -> by congruence.
        apply Hmono. unfold s1, stopped. cbn [engine]. rewrite Htab.
        apply lookup_delete_eq.
      * apply Hnone. exists j, elj.
        apply elem_of_cons in Hj as [?|Hj]; [done|].
        split_and!; [done| |done..].
        rewrite Hp1, Helj. simpl. by rewrite bool_decide_eq_false_2.
    + intros K Hno.
      assert (K ≠ identity_key el) as HK.
      { intros ->. apply Hno. exists k, el. split_and!; [left|done..]. }
      rewrite Hsame.
      * unfold s1, stopped. cbn [engine]. rewrite Htab.
        by rewrite lookup_delete_ne.
      * intros (j & elj & Hj & Helj & Htj & ->). apply Hno.
        rewrite Hp1 in Helj.
        destruct (piano s !! j) as [el0|] eqn:Hel0; [|done].
        simpl in Helj. injection Helj as <-.
        case_bool_decide as Hjk; [done|].
        exists j, el0. split_and!; [by right|done..].
    + intros K HK. apply Hmono. unfold s1, stopped. cbn [engine].
      rewrite Htab. apply lookup_delete_None. by right.
  - (* the key carries another tag, or none: nothing is done *)
    assert (touch_release t k s = Normal tt s) as Hstep.
    { unfold touch_release, bind, get. rewrite Hel.
      by rewrite bool_decide_eq_false_2. }
    destruct (IH s) as (s' & Hrun & Hn & Hp & Hnone & Hsame & Hmono).
    { intros k' Hk'. apply Hl. by right. }
    exists s'. split_and!.
    + simpl. unfold bind. by rewrite Hstep.
    + done.
    + intros j. rewrite Hp.
      destruct (piano s !! j) as [elj|] eqn:Helj; [|done]. simpl. f_equal.
      destruct (decide (j = k)) as [->|Hne].
      * assert (elj = el) as -> by congruence.
        by rewrite (bool_decide_eq_false_2 (data_touchId el = Some t)),
          !andb_false_r.
      * assert (j ∈ k :: l ↔ j ∈ l) as Hiff.
        { rewrite elem_of_cons. split; [by intros [?|?]|by right]. }
        by rewrite (bool_decide_ext _ _ Hiff).
    + intros K (j & elj & Hj & Helj & Htj & ->). apply Hnone.
      exists j, elj. split_and!; [|done..].
      apply elem_of_cons in Hj as [->|Hj]; [congruence|done].
    + intros K Hno. apply Hsame.
      intros (j & elj & Hj & Helj & Htj & ->). apply Hno.
      exists j, elj. split_and!; [by right|done..].
    + done.
Qed.

Lemma held_by_lifted (ids : list Z) (el : KeyElement) :
  held_by ids (lifted el) = false.
Proof.
  unfold held_by, lifted.
  change (classList_contains "active" (set_touchId None (classList_remove "active" el)))
    with (classList_contains "active" (classList_remove "active" el)).
  by rewrite contains_active_remove, andb_false_r.
Qed.

Lemma held_by_cons (t : Z) (ids : list Z) (el : KeyElement) :
  held_by (t :: ids) el = held_by [t] el || held_by ids el.
Proof.
  unfold held_by.
  destruct (classList_contains "key" el), (classList_contains "active" el);
    simpl; try done.
  destruct (data_touchId el) as [t'|]; [|done].
  destruct (decide (t' = t)) as [->|Hne].
  - rewrite !bool_decide_eq_true_2 by left. done.
  - rewrite (bool_decide_eq_false_2 (t' ∈ [t]))
      by (by intros ?%list_elem_of_singleton).
    simpl. apply bool_decide_ext. rewrite elem_of_cons.
    split; [by intros [?|?]|by right].
Qed.

Lemma held_by_single (t : Z) (j : nat) (el : KeyElement) (s : PianoUI) :
  piano s !! j = Some el →
  bool_decide (j ∈ querySelectorAll_key_active s)
  && bool_decide (data_touchId el = Some t)
  = held_by [t] el.
Proof.
  intros Hel. unfold held_by.
  assert (bool_decide (j ∈ querySelectorAll_key_active s)
          = classList_contains "key" el && classList_contains "active" el)
    as ->.
  { destruct (classList_contains "key" el) eqn:Hk,
      (classList_contains "active" el) eqn:Ha; simpl.
    - apply bool_decide_eq_true_2, active_elem. by exists el.
    - apply bool_decide_eq_false_2. intros (el' & Hel' & _ & Ha')%active_elem.
      congruence.
    - apply bool_decide_eq_false_2. intros (el' & Hel' & Hk' & _)%active_elem.
      congruence.
    - apply bool_decide_eq_false_2. intros (el' & Hel' & Hk' & _)%active_elem.
      congruence. }
  f_equal. destruct (data_touchId el) as [t'|].
  - apply bool_decide_ext. rewrite list_elem_of_singleton.
    split; [by intros [= ->]|by intros ->].
  - by apply bool_decide_eq_false_2.
Qed.

Lemma identity_key_lifted (el : KeyElement) :
  identity_key (lifted el) = identity_key el.
Proof. done. Qed.

(** The end of one touch. *)
Lemma touch_end_one (t : Z) (s : PianoUI) :
  ∃ s',
    forEach (touch_release t) (querySelectorAll_key_active s) s = Normal tt s'
    ∧ length (osc_nodes (engine s')) = length (osc_nodes (engine s))
    ∧ piano s' = (fun el => if held_by [t] el then lifted el else el)
                 <$> piano s
    ∧ ∀ K, oscillators (engine s') !! K
           = if bool_decide
                  (K ∈ identity_key <$> List.filter (held_by [t]) (piano s))
             then None else oscillators (engine s) !! K.
Proof.
  destruct (forEach_touch_release t (querySelectorAll_key_active s) s)
    as (s' & Hrun & Hn & Hp & Hnone & Hsame & _).
  { intros k (el & Hel & _)%active_elem. by exists el. }
  exists s'. split_and!; [done..| |].
  - apply list_eq. intros j. rewrite Hp, list_lookup_fmap.
    destruct (piano s !! j) as [el|] eqn:Hel; [|done]. simpl.
    by rewrite (held_by_single t j el s Hel).
  - intros K. case_bool_decide as HK.
    + apply Hnone. apply list_elem_of_fmap in HK as (el & -> & Hin).
      apply list_elem_of_In, filter_In in Hin as [Hin Hheld].
      apply list_elem_of_In, list_elem_of_lookup in Hin as [j Hel].
      rewrite <- (held_by_single t j el s Hel) in Hheld.
      apply andb_prop in Hheld as [Hj Ht].
      apply bool_decide_eq_true_1 in Hj, Ht. by exists j, el.
    + apply Hsame. intros (j & el & Hj & Hel & Ht & ->). apply HK.
      apply list_elem_of_fmap. exists el. split; [done|].
      apply list_elem_of_In, filter_In. split.
      * by apply list_elem_of_In, list_elem_of_lookup_2 with j.
      * rewrite <- (held_by_single t j el s Hel).
        by rewrite !bool_decide_eq_true_2.
Qed.

Lemma touchend_single (t : Z) (x : option nat) (s s' : PianoUI) :
  forEach (touch_release t) (querySelectorAll_key_active s) s = Normal tt s' →
  touchend [ {| identifier := t; elementFromPoint := x |} ] s = Normal tt s'.
Proof.
  intros Hrun. rewrite touchend_loops. cbn [forEach identifier].
  unfold bind at 1. unfold bind at 1, get. by rewrite Hrun.
Qed.

(** X18. The end of touches returns without raising and lifts exactly the
    keys that are marked active and tagged with the identifier of one of the
    touches: such a key loses its mark and its tag and its identity leaves
    the table; every other key and every other entry of the table is as
    before, and no oscillator is created. *)
Theorem touchend_lifts_tagged_keys (ts : list Touch) (s : PianoUI) :
  let ids := identifier <$> ts in
  ∃ s',
    touchend ts s = Normal tt s'
    ∧ length (osc_nodes (engine s')) = length (osc_nodes (engine s))
    ∧ piano s' = (fun el => if held_by ids el then lifted el else el)
                 <$> piano s
    ∧ ∀ K, oscillators (engine s') !! K
           = if bool_decide
                  (K ∈ identity_key <$> List.filter (held_by ids) (piano s))
             then None else oscillators (engine s) !! K.
Proof.
  rewrite touchend_loops. revert s.
  induction ts as [|touch ts IH]; intros s ids.
  { exists s. split_and!; [done..| |].
    - apply list_eq. intros j. rewrite list_lookup_fmap.
      destruct (piano s !! j) as [el|]; [|done]. simpl. f_equal.
      unfold ids, held_by. simpl.
      destruct (data_touchId el); by rewrite ?andb_false_r.
    - intros K. rewrite bool_decide_eq_false_2; [done|].
      intros (el & -> & Hin)%list_elem_of_fmap.
      apply list_elem_of_In, filter_In in Hin as [_ Hheld].
      unfold ids, held_by in Hheld. simpl in Hheld.
      destruct (data_touchId el); by rewrite ?andb_false_r in Hheld. }
  set (t := identifier touch).
  destruct (touch_end_one t s) as (s1 & Hrun1 & Hn1 & Hp1 & Ht1).
  destruct (IH s1) as (s' & Hrun & Hn & Hp & Ht).
  exists s'. split_and!.
  - simpl. unfold bind at 1. unfold bind at 1, get. fold t. by rewrite Hrun1.
  - by rewrite Hn.
  - rewrite Hp, Hp1, <- list_fmap_compose.
    apply list_fmap_ext. intros _ el _. simpl.
    unfold ids. rewrite fmap_cons. fold t.
    rewrite (held_by_cons t (identifier <$> ts)).
    destruct (held_by [t] el) eqn:H1; simpl.
    + by rewrite held_by_lifted.
    + done.
  - intros K. rewrite Ht, Ht1, Hp1.
    assert (K ∈ identity_key <$> List.filter (held_by ids) (piano s)
            ↔ K ∈ identity_key
                    <$> List.filter (held_by (identifier <$> ts))
                          ((fun el => if held_by [t] el then lifted el else el)
                           <$> piano s)
              ∨ K ∈ identity_key <$> List.filter (held_by [t]) (piano s))
      as Hiff.
    { unfold ids. rewrite fmap_cons. fold t.
      rewrite !list_elem_of_fmap. split.
      - intros (el & -> & Hin).
        apply list_elem_of_In, filter_In in Hin as [Hin Hheld].
        rewrite (held_by_cons t (identifier <$> ts)) in Hheld.
        destruct (held_by [t] el) eqn:H1.
        + right. exists el. split; [done|].
          apply list_elem_of_In, filter_In. by split.
        + left. exists el. split; [done|].
          apply list_elem_of_In, filter_In. split; [|done].
          apply list_elem_of_In, list_elem_of_fmap. exists el.
          split; [by rewrite H1|by apply list_elem_of_In].
      - intros [(el1 & -> & Hin)|(el & -> & Hin)].
        + apply list_elem_of_In, filter_In in Hin as [Hin Hheld].
          apply list_elem_of_In, list_elem_of_fmap in Hin as (el & -> & Hin).
          destruct (held_by [t] el) eqn:H1.
          * by rewrite held_by_lifted in Hheld.
          * exists el. split; [done|].
            apply list_elem_of_In, filter_In. split; [by apply list_elem_of_In|].
            by rewrite (held_by_cons t (identifier <$> ts)), H1.
        + apply list_elem_of_In, filter_In in Hin as [Hin Hheld].
          exists el. split; [done|].
          apply list_elem_of_In, filter_In. split; [done|].
          by rewrite (held_by_cons t (identifier <$> ts)), Hheld. }
    repeat case_bool_decide; try done; exfalso; tauto.
Qed.

(** ** The life of the cache worker *)

Section WorkerLifeFacts.

Context {Request Response : Type}.
Context (request_matches : Request → Request → bool).
Context (new_Request : string → Request).
Context (ok : Response → bool).

Implicit Types (caches : CacheStorage Request Response)
  (cache : list (Request * Response)).

Lemma activate_fold (names : list string) caches :
  foldl (fun caches cacheName =>
           if negb (String.eqb cacheName CACHE_NAME)
           then caches_delete cacheName caches
           else caches)
        caches names
  = List.filter (fun named => String.eqb named.1 CACHE_NAME
                              || negb (bool_decide (named.1 ∈ names)))
                caches.
Proof.
  revert caches. induction names as [|name names IH]; intros caches.
  - simpl. induction caches as [|named caches IHc]; [done|]. simpl.
    rewrite orb_true_r. by f_equal.
  - cbn [foldl]. rewrite IH. clear IH.
    destruct (String.eqb_spec name CACHE_NAME) as [->|Hne]; simpl.
    + apply filter_ext. intros [n c]. simpl.
      destruct (String.eqb_spec n CACHE_NAME) as [->|Hn]; [done|]. simpl.
      f_equal. apply bool_decide_ext. rewrite elem_of_cons.
      split; [by right|by intros [?|?]].
    + unfold caches_delete.
      induction caches as [|[n c] caches IHc]; [done|]. simpl.
      destruct (String.eqb_spec n name) as [->|Hn]; simpl.
      * rewrite (proj2 (String.eqb_neq _ _) Hne). simpl.
        rewrite (bool_decide_eq_true_2 (name ∈ name :: names)) by left.
        simpl. apply IHc.
      * rewrite IHc.
        assert (bool_decide (n ∈ name :: names) = bool_decide (n ∈ names))
          as ->.
        { apply bool_decide_ext. rewrite elem_of_cons.
          split; [by intros [?|?]|by right]. }
        done.
Qed.

(** X19. The activation keeps the caches named [CACHE_NAME], with their
    entries and in their order, and deletes all the others; a fetch after it
    is answered from what the kept caches hold, or else by the network. *)
Theorem activate_keeps_current_cache caches
  (network : Request → settled Response) (request : Request) :
  let kept := List.filter (fun named => String.eqb named.1 CACHE_NAME) caches in
  on_activate caches = kept
  ∧ Forall (fun named => named.1 = CACHE_NAME) (on_activate caches)
  ∧ settle request_matches (on_activate caches) network (on_fetch request)
    = match caches_match request_matches request kept with
      | Some response => ([CacheLookup request], Fulfilled response)
      | None => ([CacheLookup request; NetworkRequest request],
                 network request)
      end.
Proof.
  intros kept.
  assert (on_activate caches = kept) as Heq.
  { unfold on_activate, caches_keys, kept. rewrite activate_fold.
    apply filter_ext_in. intros [n c] Hin. simpl.
    rewrite (bool_decide_eq_true_2 (n ∈ caches.*1)).
    - by rewrite orb_false_r.
    - apply list_elem_of_fmap. exists (n, c). split; [done|].
      by apply list_elem_of_In. }
  split_and!; [done| |].
  - rewrite Heq. apply Forall_forall. intros named Hin%list_elem_of_In.
    apply filter_In in Hin as [_ Hn]. by apply String.eqb_eq.
  - rewrite Heq. simpl.
    destruct (caches_match request_matches request kept); [done|].
    simpl. by destruct (network request).
Qed.

Lemma caches_match_app request caches caches' :
  caches_match request_matches request (caches ++ caches')
  = match caches_match request_matches request caches with
    | Some response => Some response
    | None => caches_match request_matches request caches'
    end.
Proof.
  induction caches as [|[n c] caches IH]; [done|]. simpl.
  by destruct (cache_match request_matches request c).
Qed.

Lemma caches_match_open request (name : string) caches :
  caches_match request_matches request (caches_open name caches)
  = caches_match request_matches request caches.
Proof.
  unfold caches_open. case_bool_decide; [done|].
  rewrite caches_match_app. simpl.
  by destruct (caches_match request_matches request caches).
Qed.

Lemma fetch_all_rejected (network : Request → settled Response)
  (urls : list string) (url : string) :
  url ∈ urls →
  (∀ response, network (new_Request url) = Fulfilled response →
               ok response = false) →
  fetch_all new_Request ok network urls = Rejected.
Proof.
  intros Hin Hbad. induction urls as [|u urls IH]; [by apply elem_of_nil in Hin|].
  simpl. apply elem_of_cons in Hin as [<-|Hin].
  - destruct (network (new_Request url)) as [response|] eqn:Hn; [|done].
    by rewrite (Hbad response).
  - rewrite (IH Hin). destruct (network (new_Request u)); [|done].
    by destruct (ok _).
Qed.

(** X20. An installation during which the fetch of one of the listed URLs
    is rejected, or answered with a status that is not ok, is rejected as a
    whole and stores nothing: every request is matched afterwards exactly as
    it was before. *)
Theorem failed_install_stores_nothing caches
  (network : Request → settled Response) (url : string) (request : Request) :
  url ∈ urlsToCache →
  (∀ response, network (new_Request url) = Fulfilled response →
               ok response = false) →
  (on_install request_matches new_Request ok network caches).2 = Rejected
  ∧ caches_match request_matches request
      (on_install request_matches new_Request ok network caches).1
    = caches_match request_matches request caches.
Proof.
  intros Hin Hbad. unfold on_install.
  rewrite (fetch_all_rejected network urlsToCache url Hin Hbad). simpl.
  split; [done|]. apply caches_match_open.
Qed.

Section Matching.

(** Matching is taken to be an equivalence between requests, as it is
    between the requests the list of URLs stands for. *)
Hypothesis matches_refl : ∀ a, request_matches a a = true.
Hypothesis matches_sym :
  ∀ a b, request_matches a b = true → request_matches b a = true.
Hypothesis matches_trans :
  ∀ a b c, request_matches a b = true → request_matches b c = true →
           request_matches a c = true.

Lemma cache_put_answers request response cache :
  answers request_matches (cache_put request_matches request response cache) request.
Proof.
  exists (request, response). split; [|apply matches_refl].
  unfold cache_put. apply elem_of_app. right. by left.
Qed.

Lemma cache_put_keeps_answer request response cache (request0 : Request) :
  answers request_matches cache request0 →
  answers request_matches (cache_put request_matches request response cache) request0.
Proof.
  intros (entry & Hin & Hm).
  destruct (request_matches entry.1 request) eqn:Hr.
  - exists (request, response). split.
    + unfold cache_put. apply elem_of_app. right. by left.
    + simpl. eapply matches_trans; [|exact Hm]. by apply matches_sym.
  - exists entry. split; [|done].
    unfold cache_put. apply elem_of_app. left.
    apply list_elem_of_In, filter_In. split; [by apply list_elem_of_In|].
    by rewrite Hr.
Qed.

Lemma puts_keep_answer (entries : list (Request * Response)) cache
  (request0 : Request) :
  answers request_matches cache request0 →
  answers request_matches (foldl (fun cache entry =>
                    cache_put request_matches entry.1 entry.2 cache)
                 cache entries)
          request0.
Proof.
  revert cache. induction entries as [|e entries IH]; intros cache Ha; [done|].
  cbn [foldl]. by apply IH, cache_put_keeps_answer.
Qed.

Lemma puts_answer (entries : list (Request * Response)) cache
  (request0 : Request) :
  request0 ∈ entries.*1 →
  answers request_matches (foldl (fun cache entry =>
                    cache_put request_matches entry.1 entry.2 cache)
                 cache entries)
          request0.
Proof.
  revert cache. induction entries as [|e entries IH]; intros cache Hin.
  { by apply elem_of_nil in Hin. }
  cbn [foldl]. rewrite fmap_cons in Hin.
  apply elem_of_cons in Hin as [->|Hin]; [|by apply IH].
  apply puts_keep_answer, cache_put_answers.
Qed.

Lemma cache_match_answers request cache :
  answers request_matches cache request →
  is_Some (cache_match request_matches request cache).
Proof.
  intros (entry & Hin%list_elem_of_In & Hm). unfold cache_match.
  destruct (List.find _ cache) as [found|] eqn:Hf; [by eexists|].
  by rewrite (find_none _ _ Hf entry Hin) in Hm.
Qed.

Lemma caches_match_with_cache request (name : string)
  (f : list (Request * Response) → list (Request * Response)) caches :
  name ∈ caches.*1 →
  (∀ cache, answers request_matches (f cache) request) →
  is_Some (caches_match request_matches request (with_cache name f caches)).
Proof.
  intros Hin Hf. induction caches as [|[n c] caches IH].
  { by apply elem_of_nil in Hin. }
  simpl. destruct (String.eqb_spec n name) as [->|Hne]; simpl.
  - destruct (cache_match_answers request (f c) (Hf c)) as [r ->]. by eexists.
  - destruct (cache_match request_matches request c); [by eexists|].
    apply IH. rewrite fmap_cons in Hin.
    apply elem_of_cons in Hin as [?|?]; [by subst|done].
Qed.

Lemma fetch_all_fulfilled (network : Request → settled Response)
  (urls : list string) :
  (∀ url, url ∈ urls →
          ∃ response, network (new_Request url) = Fulfilled response
                      ∧ ok response = true) →
  ∃ entries,
    fetch_all new_Request ok network urls = Fulfilled entries
    ∧ entries.*1 = new_Request <$> urls.
Proof.
  induction urls as [|u urls IH]; intros Hok; [by exists []|].
  destruct (Hok u) as (response & Hn & Hr); [left|].
  destruct IH as (entries & Hf & He).
  { intros url Hin. apply Hok. by right. }
  exists ((new_Request u, response) :: entries). cbn [fetch_all].
  rewrite Hn, Hr, Hf. split; [done|]. by rewrite !fmap_cons, He.
Qed.

Lemma caches_open_has (name : string) caches :
  name ∈ (caches_open name caches).*1.
Proof.
  unfold caches_open. case_bool_decide; [done|].
  rewrite fmap_app. apply elem_of_app. right. by left.
Qed.

(** X21. With matching an equivalence between requests: when the network
    answers every listed URL with an ok status, the installation is
    fulfilled, and from then on a fetch of any of the listed URLs is answered
    from the cache storage without the network being asked, whatever the
    network would do. *)
Theorem install_makes_urls_available caches
  (network : Request → settled Response) (url : string) :
  (∀ url, url ∈ urlsToCache →
          ∃ response, network (new_Request url) = Fulfilled response
                      ∧ ok response = true) →
  url ∈ urlsToCache →
  (on_install request_matches new_Request ok network caches).2 = Fulfilled tt
  ∧ ∃ response,
      ∀ network' : Request → settled Response,
        settle request_matches
          (on_install request_matches new_Request ok network caches).1
          network' (on_fetch (new_Request url))
        = ([CacheLookup (new_Request url)], Fulfilled response).
Proof.
  intros Hok Hin. unfold on_install.
  destruct (fetch_all_fulfilled network urlsToCache Hok) as (entries & -> & He).
  split; [done|]. cbn [fst].
  destruct (caches_match_with_cache (new_Request url) CACHE_NAME
              (fun cache =>
                 foldl (fun cache entry =>
                          cache_put request_matches entry.1 entry.2 cache)
                       cache entries)
              (caches_open CACHE_NAME caches)) as [response Hm].
  - apply caches_open_has.
  - intros cache. apply puts_answer. rewrite He.
    apply list_elem_of_fmap. by exists url.
  - exists response. intros network'. simpl. by rewrite Hm.
Qed.

End Matching.

End WorkerLifeFacts.

Lemma failed_install_stores_nothing_witness :
  let network (request : string) : settled string :=
    if String.eqb request "icon-72.png" then Rejected
    else Fulfilled ("body of " +:+ request) in
  (on_install String.eqb (fun url => url) (fun _ => true) network []).2
  = Rejected
  ∧ caches_match String.eqb "/"
      (on_install String.eqb (fun url => url) (fun _ => true) network []).1
    = caches_match String.eqb "/" [].
Proof.
  intros network.
  apply (failed_install_stores_nothing String.eqb (fun url => url)
           (fun _ => true) [] network "icon-72.png" "/").
  - apply (bool_decide_unpack _). vm_compute. exact I.
  - intros response Hr. vm_compute in Hr. discriminate Hr.
Defined.

Lemma install_makes_urls_available_witness :
  let network (request : string) : settled string :=
    Fulfilled ("body of " +:+ request) in
  (on_install String.eqb (fun url => url) (fun _ => true) network []).2
  = Fulfilled tt
  ∧ ∃ response,
      ∀ network' : string → settled string,
        settle String.eqb
          (on_install String.eqb (fun url => url) (fun _ => true) network []).1
          network' (on_fetch "index.html")
        = ([CacheLookup "index.html"], Fulfilled response).
Proof.
  intros network.
  apply (install_makes_urls_available String.eqb (fun url => url)
           (fun _ => true) String.eqb_refl
           (fun a b H => eq_trans (String.eqb_sym b a) H)
           (fun a b c Hab Hbc =>
              eq_ind_r (fun x => String.eqb x c = true) Hbc
                       (proj1 (String.eqb_eq a b) Hab))
           [] network "index.html").
  - intros url _. exists ("body of " +:+ url). split; reflexivity.
  - apply (bool_decide_unpack _). vm_compute. exact I.
Defined.

(** *** Two fingers *)

Lemma voice_key_inj_NOTES (n1 n2 : string) (o1 o2 : Z) :
  n1 ∈ NOTES → n2 ∈ NOTES → voice_key n1 o1 = voice_key n2 o2 →
  n1 = n2 ∧ o1 = o2.
Proof.
  intros H1 H2 Heq. unfold voice_key in Heq.
  apply note_octave_split in Heq as [-> Ho];
    auto using NOTES_no_numeric, pretty_Z_starts_numeric.
  by apply (inj pretty) in Ho as ->.
Qed.

Lemma rendered_key_note_in_NOTES (startOctave : Z) (i : nat) :
  data_note (rendered_key startOctave i) ∈ NOTES.
Proof.
  unfold rendered_key. cbn [data_note].
  assert (i mod 12 < 12)%nat as Hlt by (apply Nat.mod_upper_bound; lia).
  destruct (i mod 12)%nat as [|n];
    [apply (bool_decide_unpack _); vm_compute; exact I|].
  do 11 (destruct n as [|n];
         [apply (bool_decide_unpack _); vm_compute; exact I|]).
  lia.
Qed.

(** In a piano that shows the keys of its octave, two keys are two
    identities. *)
Lemma well_rendered_identities (s : PianoUI) (i j : nat) (a b : KeyElement) :
  well_rendered s → piano s !! i = Some a → piano s !! j = Some b →
  identity_key a = identity_key b → i = j.
Proof.
  intros Hs Ha Hb Heq.
  assert (length (piano s) = 13%nat) as Hlen.
  { by rewrite <- (length_fmap key_data), Hs. }
  assert (i < 13)%nat as Hi by (rewrite <- Hlen; by eapply lookup_lt_Some).
  assert (j < 13)%nat as Hj by (rewrite <- Hlen; by eapply lookup_lt_Some).
  destruct (well_rendered_lookup s i Hs Hi) as (a' & Ha' & Hda).
  destruct (well_rendered_lookup s j Hs Hj) as (b' & Hb' & Hdb).
  assert (a' = a) as -> by congruence. assert (b' = b) as -> by congruence.
  assert (data_note a = data_note (rendered_key (octave s) i)) as Hna
    by (by apply (f_equal (fun p => p.1.1)) in Hda).
  assert (data_octave a = data_octave (rendered_key (octave s) i)) as Hoa
    by (by apply (f_equal (fun p => p.1.2)) in Hda).
  assert (data_note b = data_note (rendered_key (octave s) j)) as Hnb
    by (by apply (f_equal (fun p => p.1.1)) in Hdb).
  assert (data_octave b = data_octave (rendered_key (octave s) j)) as Hob
    by (by apply (f_equal (fun p => p.1.2)) in Hdb).
  pose proof (semitones_rendered_key (octave s) i Hi) as Hsi.
  pose proof (semitones_rendered_key (octave s) j Hj) as Hsj.
  rewrite <- Hna, <- Hoa in Hsi. rewrite <- Hnb, <- Hob in Hsj.
  unfold identity_key in Heq.
  apply voice_key_inj_NOTES in Heq as [Hn Ho].
  - rewrite Hn, Ho in Hsi. lia.
  - rewrite Hna. apply rendered_key_note_in_NOTES.
  - rewrite Hnb. apply rendered_key_note_in_NOTES.
Qed.

Lemma contains_active_add (el : KeyElement) :
  classList_contains "active" (classList_add "active" el) = true.
Proof.
  unfold classList_add.
  destruct (classList_contains "active" el) eqn:Ha; [done|].
  unfold classList_contains. simpl. apply bool_decide_eq_true_2.
  apply elem_of_app. right. by left.
Qed.

Lemma is_key_Some (k : nat) (el : KeyElement) (s : PianoUI) :
  piano s !! k = Some el → classList_contains "key" el = true →
  is_key (Some k) s = Some k.
Proof. intros Hel Hk. unfold is_key. by rewrite Hel, Hk. Qed.

Lemma touchstart_cons (touch : Touch) (ts : list Touch) (k : nat)
  (el : KeyElement) (s : PianoUI) :
  elementFromPoint touch = Some k →
  piano s !! k = Some el → classList_contains "key" el = true →
  touchstart (touch :: ts) s
  = touchstart ts (touched (identifier touch) k el s).
Proof.
  intros Hp Hel Hk. unfold touchstart. cbn [forEach].
  unfold bind at 1. unfold bind at 1, get. rewrite Hp.
  rewrite (is_key_Some k el s Hel Hk).
  unfold bind at 1. by rewrite (playKey_eq _ _ _ Hel).
Qed.

(** X22. In a state the piano reaches, two fingers come down on two
    different keys and the first is lifted. Both touches trigger; the end of
    the first touch lifts its key and takes its identity off the table, and
    leaves the key of the second marked, tagged, registered and live. *)
Theorem two_touches_release_one
  (now : Q) (st : context_state) (readout : string) (evs : list event)
  (k1 k2 : nat) (t1 t2 : Z) (x : option nat) :
  let s := run evs (final_state (new_PianoUI now st readout)) in
  (k1 < 13)%nat → (k2 < 13)%nat → k1 ≠ k2 → t1 ≠ t2 →
  let s' :=
    run [ TouchStart [ {| identifier := t1; elementFromPoint := Some k1 |};
                       {| identifier := t2; elementFromPoint := Some k2 |} ];
          TouchEnd [ {| identifier := t1; elementFromPoint := x |} ] ] s in
  ∃ el1 el2 v,
    piano s !! k1 = Some el1
    ∧ piano s !! k2 = Some el2
    ∧ piano s' !! k1 = Some (lifted (classList_add "active" el1))
    ∧ piano s' !! k2 = Some (set_touchId (Some t2) (classList_add "active" el2))
    ∧ oscillators (engine s') !! identity_key el1 = None
    ∧ oscillators (engine s') !! identity_key el2 = Some v
    ∧ osc v = S (length (osc_nodes (engine s)))
    ∧ live (engine s') (osc v) = true.
Proof.
  intros s Hk1 Hk2 Hne Htne s'.
  assert (well_rendered s) as Hs by (by apply well_rendered_run).
  destruct (well_rendered_lookup s k1 Hs Hk1) as (el1 & Hel1 & Hd1).
  destruct (well_rendered_lookup s k2 Hs Hk2) as (el2 & Hel2 & Hd2).
  assert (classList_contains "key" el1 = true) as Hkey1 by (by injection Hd1).
  assert (classList_contains "key" el2 = true) as Hkey2 by (by injection Hd2).
  set (touch1 := {| identifier := t1; elementFromPoint := Some k1 |}).
  set (touch2 := {| identifier := t2; elementFromPoint := Some k2 |}).
  set (s1 := touched t1 k1 el1 s).
  assert (piano s1 !! k2 = Some el2) as Hel2'.
  { unfold s1, touched, played. cbn [piano set_piano].
    by rewrite !list_lookup_alter_ne. }
  set (s2 := touched t2 k2 el2 s1).
  assert (touchstart [touch1; touch2] s = Normal tt s2) as Hstart.
  { rewrite (touchstart_cons touch1 [touch2] k1 el1 s eq_refl Hel1 Hkey1).
    change (touched (identifier touch1) k1 el1 s) with s1.
    by rewrite (touchstart_cons touch2 [] k2 el2 s1 eq_refl Hel2' Hkey2). }
  assert (well_rendered s2) as Hs2.
  { pose proof (well_rendered_step (TouchStart [touch1; touch2]) s Hs) as H.
    simpl in H. by rewrite Hstart in H. }
  assert (piano s2 !! k1
          = Some (set_touchId (Some t1) (classList_add "active" el1))) as Hp1.
  { unfold s2, touched, played. cbn [piano set_piano].
    rewrite !list_lookup_alter_ne by done.
    unfold s1, touched, played. cbn [piano set_piano].
    by rewrite !list_lookup_alter_eq, Hel1. }
  assert (piano s2 !! k2
          = Some (set_touchId (Some t2) (classList_add "active" el2))) as Hp2.
  { unfold s2, touched, played. cbn [piano set_piano].
    by rewrite !list_lookup_alter_eq, Hel2'. }
  destruct (touch_end_one t1 s2) as (s3 & Hend & Hn3 & Hp3 & Ht3).
  apply (touchend_single t1 x) in Hend.
  assert (s' = s3) as Hs'.
  { unfold s'.
    change (final_state
              (touchend [{| identifier := t1; elementFromPoint := x |}]
                 (final_state (touchstart [touch1; touch2] s))) = s3).
    rewrite Hstart. cbn [final_state]. by rewrite Hend. }
  clearbody s'. subst s'.
  assert (held_by [t1] (set_touchId (Some t1) (classList_add "active" el1))
          = true) as Hheld1.
  { unfold held_by.
    change (classList_contains "key" (set_touchId (Some t1) (classList_add "active" el1)))
      with (classList_contains "key" (classList_add "active" el1)).
    change (classList_contains "active" (set_touchId (Some t1) (classList_add "active" el1)))
      with (classList_contains "active" (classList_add "active" el1)).
    rewrite contains_key_add_active, Hkey1, contains_active_add. simpl.
    apply bool_decide_eq_true_2. by left. }
  assert (held_by [t1] (set_touchId (Some t2) (classList_add "active" el2))
          = false) as Hheld2.
  { unfold held_by. simpl.
    rewrite (bool_decide_eq_false_2 (t2 ∈ [t1])); [by rewrite andb_false_r|].
    intros ?%list_elem_of_singleton. done. }
  exists el1, el2,
    {| osc := length (osc_nodes (final_state (resume (engine s1))));
       gain_ref := length (gain_nodes (final_state (resume (engine s1)))) |}.
  assert (oscillators (engine s3) !! identity_key el2
          = Some {| osc := length (osc_nodes (final_state (resume (engine s1))));
                    gain_ref :=
                      length (gain_nodes (final_state (resume (engine s1)))) |})
    as Hv.
  { rewrite Ht3. rewrite bool_decide_eq_false_2.
    - exact (retriggered_lookup (final_state (resume (engine s1)))
               (voice_key (data_note el2) (data_octave el2))
               (getFrequency (data_note el2) (data_octave el2))).
    - intros (el & Hid & Hin)%list_elem_of_fmap.
      apply list_elem_of_In, filter_In in Hin as [Hin Hheld].
      apply list_elem_of_In, list_elem_of_lookup in Hin as [j Hj].
      assert (j = k2) as ->.
      { eapply (well_rendered_identities s2); [done|exact Hj|exact Hp2|].
        by rewrite <- Hid. }
      rewrite Hp2 in Hj. injection Hj as <-. congruence. }
  split_and!.
  - done.
  - done.
  - by rewrite Hp3, list_lookup_fmap, Hp1; simpl; rewrite Hheld1.
  - by rewrite Hp3, list_lookup_fmap, Hp2; simpl; rewrite Hheld2.
  - rewrite Ht3. rewrite bool_decide_eq_true_2; [done|].
    apply list_elem_of_fmap.
    exists (set_touchId (Some t1) (classList_add "active" el1)).
    split; [done|]. apply list_elem_of_In, filter_In. split; [|done].
    by apply list_elem_of_In, list_elem_of_lookup_2 with k1.
  - exact Hv.
  - cbn [osc]. destruct (resume_nodes (engine s1)) as (-> & _).
    unfold s1, touched, played. cbn [engine set_piano].
    rewrite length_osc_retriggered.
    by destruct (resume_nodes (engine s)) as (-> & _).
  - destruct (piano_table_inv now st readout
                (evs ++ [TouchStart [touch1; touch2];
                         TouchEnd [{| identifier := t1; elementFromPoint := x |}]]))
      as [owner Hinv].
    rewrite run_app in Hinv. fold s in Hinv.
    assert (run [TouchStart [touch1; touch2];
                 TouchEnd [{| identifier := t1; elementFromPoint := x |}]] s
            = s3) as Hrun.
    { change (final_state
                (touchend [{| identifier := t1; elementFromPoint := x |}]
                   (final_state (touchstart [touch1; touch2] s))) = s3).
      rewrite Hstart. cbn [final_state]. by rewrite Hend. }
    rewrite Hrun in Hinv.
    by destruct (inv_registered _ _ Hinv _ _ Hv).
Qed.

Lemma two_touches_release_one_witness :
  let s := run [] (final_state (new_PianoUI 0 Suspended "Octave: 4")) in
  let s' :=
    run [ TouchStart [ {| identifier := 1; elementFromPoint := Some 0%nat |};
                       {| identifier := 2; elementFromPoint := Some 4%nat |} ];
          TouchEnd [ {| identifier := 1; elementFromPoint := None |} ] ] s in
  ∃ el1 el2 v,
    piano s !! 0%nat = Some el1
    ∧ piano s !! 4%nat = Some el2
    ∧ piano s' !! 0%nat = Some (lifted (classList_add "active" el1))
    ∧ piano s' !! 4%nat
      = Some (set_touchId (Some 2) (classList_add "active" el2))
    ∧ oscillators (engine s') !! identity_key el1 = None
    ∧ oscillators (engine s') !! identity_key el2 = Some v
    ∧ osc v = S (length (osc_nodes (engine s)))
    ∧ live (engine s') (osc v) = true.
Proof.
  intros s s'.
  apply (two_touches_release_one 0 Suspended "Octave: 4" [] 0 4 1 2 None);
    [lia|lia|lia|lia].
Defined.

(** *** Press and release *)

Lemma well_rendered_played (k : nat) (el : KeyElement) (s : PianoUI) :
  well_rendered s → well_rendered (played k el s).
Proof.
  intros Hs. unfold well_rendered, played. cbn [piano octave].
  rewrite map_key_data_alter; [done|apply key_data_add_active].
Qed.

Lemma run_ticks (dts : list Q) (s : PianoUI) :
  let s' := run (ClockTick <$> dts) s in
  piano s' = piano s ∧ octave s' = octave s
  ∧ oscillators (engine s') = oscillators (engine s)
  ∧ osc_nodes (engine s') = osc_nodes (engine s)
  ∧ gain_nodes (engine s') = gain_nodes (engine s)
  ∧ currentTime (engine s') = foldl Qplus (currentTime (engine s)) dts.
Proof.
  revert s. induction dts as [|dt dts IH]; intros s; [done|].
  specialize (IH (set_engine (advance_clock dt (engine s)) s)).
  exact IH.
Qed.

(** X23. In a state that shows the keys of its octave, a mapped physical key
    is pressed, held while the audio clock moves on by any amounts, and let
    go. Both listeners return; afterwards the table is the one before the
    press without the identity of the key, the rendered key carries no mark,
    and the one oscillator the press created, set to the frequency of the
    identity at the time of the press, has its stop scheduled 0.1 s after
    the time of the release. *)
Theorem key_press_release_round_trip (e e' : KeyboardEvent)
  (noteBase : string) (dts : list Q) (s : PianoUI) :
  well_rendered s → repeat e = false →
  KEY_MAP !! toLowerCase (key e) = Some noteBase →
  toLowerCase (key e') = toLowerCase (key e) →
  let note := (resolve noteBase (octave s)).1 in
  let oct := (resolve noteBase (octave s)).2 in
  let pressed_at := currentTime (engine s) in
  let released_at := foldl Qplus pressed_at dts in
  ∃ s1 s' k el o,
    handle (KeyDown e) s = Normal tt s1
    ∧ currentTime (engine (run (ClockTick <$> dts) s1)) = released_at
    ∧ handle (KeyUp e') (run (ClockTick <$> dts) s1) = Normal tt s'
    ∧ piano s !! k = Some el
    ∧ key_data el = (note, oct, true)
    ∧ piano s' !! k
      = Some (classList_remove "active" (classList_add "active" el))
    ∧ oscillators (engine s')
      = delete (voice_key note oct) (oscillators (engine s))
    ∧ length (osc_nodes (engine s')) = S (length (osc_nodes (engine s)))
    ∧ osc_nodes (engine s') !! length (osc_nodes (engine s)) = Some o
    ∧ frequency o = [(getFrequency note oct, pressed_at)]
    ∧ stop_time o = Some (released_at + 0.1)%Q.
Proof.
  intros Hs Hr Hk Hlow note oct pressed_at released_at.
  destruct (keydown_played e noteBase s Hs Hr Hk) as (k & el & Hdown & Hel & Hd).
  fold note oct in Hd.
  assert (data_note el = note) as Hn by (by injection Hd).
  assert (data_octave el = oct) as Ho by (by injection Hd).
  set (s1 := played k el s).
  assert (well_rendered s1) as Hs1 by (by apply well_rendered_played).
  (* the clock moves on *)
  set (s2 := run (ClockTick <$> dts) s1).
  destruct (run_ticks dts s1) as (Hp2 & Ho2 & Htab2 & Hosc2 & Hgain2 & Hnow2).
  fold s2 in Hp2, Ho2, Htab2, Hosc2, Hgain2, Hnow2.
  assert (well_rendered s2) as Hs2 by (by apply well_rendered_run).
  rewrite <- Hlow in Hk.
  destruct (keyup_stopped e' noteBase s2 Hs2 Hk) as (k' & el' & Hup & Hel' & Hd').
  rewrite Ho2 in Hd'. change (octave s1) with (octave s) in Hd'.
  fold note oct in Hd'.
  assert (data_note el' = note) as Hn' by (by injection Hd').
  assert (data_octave el' = oct) as Ho' by (by injection Hd').
  assert (piano s1 !! k = Some (classList_add "active" el)) as Hel1.
  { unfold s1, played. cbn [piano]. by rewrite list_lookup_alter_eq, Hel. }
  rewrite Hp2 in Hel'.
  assert (k' = k) as ->.
  { eapply (well_rendered_identities s1); [done|exact Hel'|exact Hel1|].
    unfold identity_key. rewrite Hn', Ho'.
    change (data_note (classList_add "active" el)) with (data_note el).
    change (data_octave (classList_add "active" el)) with (data_octave el).
    by rewrite Hn, Ho. }
  assert (el' = classList_add "active" el) as -> by congruence.
  (* the engine at the press and at the release *)
  set (e0 := final_state (resume (engine s))).
  destruct (resume_nodes (engine s)) as (Hosc & Hgain & Hnow & Htable).
  fold e0 in Hosc, Hgain, Hnow, Htable.
  set (v := {| osc := length (osc_nodes e0); gain_ref := length (gain_nodes e0) |}).
  assert (engine s1
          = retriggered (voice_key note oct) (getFrequency note oct) e0) as He1.
  { unfold s1, played. cbn [engine]. by rewrite Hn, Ho. }
  pose proof (retriggered_lookup e0 (voice_key note oct) (getFrequency note oct))
    as Hv. fold v in Hv. rewrite <- He1, <- Htab2 in Hv.
  destruct (retriggered_table e0 (voice_key note oct) (getFrequency note oct))
    as [Htab Hnow0]. rewrite <- He1 in Htab, Hnow0.
  assert (currentTime (engine s2) = released_at) as Hrel.
  { rewrite Hnow2, Hnow0, Hnow. done. }
  assert (engine (stopped k (classList_add "active" el) s2)
          = released (voice_key note oct) v (engine s2)) as He2.
  { change (final_state
              (stopTone (voice_key (data_note el) (data_octave el)) (engine s2))
            = released (voice_key note oct) v (engine s2)).
    rewrite Hn, Ho. by rewrite (stopTone_own _ _ _ Hv). }
  set (o := osc_stop (released_at + 0.1)
              (new_oscillator (getFrequency note oct) pressed_at
                 (length (gain_nodes (engine s))))).
  exists s1, (stopped k (classList_add "active" el) s2), k, el, o.
  rewrite He2.
  split_and!.
  - exact Hdown.
  - exact Hrel.
  - exact Hup.
  - done.
  - done.
  - unfold stopped. cbn [piano]. by rewrite list_lookup_alter_eq, Hp2, Hel1.
  - cbn [oscillators released]. by rewrite Htab2, Htab, Htable.
  - cbn [osc_nodes released].
    by rewrite length_alter, Hosc2, He1, length_osc_retriggered, Hosc.
  - cbn [osc_nodes released]. unfold v. cbn [osc].
    rewrite <- Hosc, list_lookup_alter_eq, Hosc2, He1, retriggered_new_node.
    unfold o. by rewrite Hrel, Hnow, Hgain.
  - done.
  - done.
Qed.

Lemma key_press_release_round_trip_witness :
  let s := final_state (new_PianoUI 0 Suspended "Octave: 4") in
  ∃ s1 s' k el o,
    handle (KeyDown {| key := "h"; repeat := false |}) s = Normal tt s1
    ∧ currentTime (engine (run (ClockTick <$> [1; 0.5]%Q) s1))
      = (0 + 1 + 0.5)%Q
    ∧ handle (KeyUp {| key := "H"; repeat := false |})
        (run (ClockTick <$> [1; 0.5]%Q) s1)
      = Normal tt s'
    ∧ piano s !! k = Some el
    ∧ key_data el = ("A", 4, true)
    ∧ piano s' !! k
      = Some (classList_remove "active" (classList_add "active" el))
    ∧ oscillators (engine s') = delete (voice_key "A" 4) (oscillators (engine s))
    ∧ length (osc_nodes (engine s')) = S (length (osc_nodes (engine s)))
    ∧ osc_nodes (engine s') !! length (osc_nodes (engine s)) = Some o
    ∧ frequency o = [(getFrequency "A" 4, 0%Q)]
    ∧ stop_time o = Some (0 + 1 + 0.5 + 0.1)%Q.
Proof.
  intros s.
  apply (key_press_release_round_trip
           {| key := "h"; repeat := false |} {| key := "H"; repeat := false |}
           "A" [1; 0.5]%Q s).
  - reflexivity.
  - reflexivity.
  - vm_compute. reflexivity.
  - reflexivity.
Defined.

(** X24. A pointer-down on a key followed by a pointer-up anywhere: both
    listeners return, the dragging is over, no key is marked active, the
    identity of the key has no entry in the table, and exactly one oscillator
    has been created. *)
Theorem mouse_press_release_round_trip (k : nat) (el : KeyElement)
  (s : PianoUI) :
  piano s !! k = Some el → classList_contains "key" el = true →
  ∃ s1 s',
    handle (MouseDown (Some k)) s = Normal tt s1
    ∧ handle MouseUp s1 = Normal tt s'
    ∧ isDragging s1 = true
    ∧ piano s1 !! k = Some (classList_add "active" el)
    ∧ isDragging s' = false
    ∧ querySelectorAll_key_active s' = []
    ∧ oscillators (engine s') !! identity_key el = None
    ∧ length (osc_nodes (engine s')) = S (length (osc_nodes (engine s))).
Proof.
  intros Hel Hkey.
  set (s1 := set_isDragging true (played k el s)).
  assert (mousedown (Some k) s = Normal tt s1) as Hdown.
  { unfold mousedown, bind, get. rewrite (is_key_Some k el s Hel Hkey).
    by rewrite (playKey_eq _ _ _ Hel). }
  destruct (mouseup_shape s1) as (s2 & Hup & Hdrag & Hact & Hlen & Hrel).
  assert (piano s1 !! k = Some (classList_add "active" el)) as Hel1.
  { unfold s1, played. cbn [piano set_isDragging].
    by rewrite list_lookup_alter_eq, Hel. }
  exists s1, s2.
  split_and!; [exact Hdown|exact Hup|done|done|done|done| |].
  - apply (Hrel k (classList_add "active" el)); [|done]. apply active_elem.
    exists (classList_add "active" el). split_and!; [done| |].
    + by rewrite contains_key_add_active.
    + apply contains_active_add.
  - rewrite Hlen. unfold s1, played. cbn [engine set_isDragging].
    rewrite length_osc_retriggered.
    by destruct (resume_nodes (engine s)) as (-> & _).
Qed.

Lemma mouse_press_release_round_trip_witness :
  let s := final_state (new_PianoUI 0 Suspended "Octave: 4") in
  ∃ s1 s',
    handle (MouseDown (Some 9%nat)) s = Normal tt s1
    ∧ handle MouseUp s1 = Normal tt s'
    ∧ isDragging s1 = true
    ∧ piano s1 !! 9%nat = Some (classList_add "active" (rendered_key 4 9))
    ∧ isDragging s' = false
    ∧ querySelectorAll_key_active s' = []
    ∧ oscillators (engine s') !! identity_key (rendered_key 4 9) = None
    ∧ length (osc_nodes (engine s')) = S (length (osc_nodes (engine s))).
Proof.
  intros s.
  apply (mouse_press_release_round_trip 9 (rendered_key 4 9) s);
    reflexivity.
Defined.

(** *** Dragging *)

(** X25. The pointer goes down on a key, leaves it and enters another key
    of a different identity. Each of the three listeners returns; the
    dragging is on, the first key has lost its mark and its identity has left
    the table, the second key is marked and its identity is registered with
    the second of the two oscillators created. *)
Theorem drag_from_key_to_key (k1 k2 : nat) (el1 el2 : KeyElement)
  (s : PianoUI) :
  piano s !! k1 = Some el1 → piano s !! k2 = Some el2 →
  classList_contains "key" el1 = true → classList_contains "key" el2 = true →
  identity_key el1 ≠ identity_key el2 →
  ∃ s1 s2 s',
    handle (MouseDown (Some k1)) s = Normal tt s1
    ∧ handle (MouseOut (Some k1)) s1 = Normal tt s2
    ∧ handle (MouseOver (Some k2)) s2 = Normal tt s'
    ∧ isDragging s' = true
    ∧ piano s' !! k1
      = Some (classList_remove "active" (classList_add "active" el1))
    ∧ piano s' !! k2 = Some (classList_add "active" el2)
    ∧ oscillators (engine s') !! identity_key el1 = None
    ∧ oscillators (engine s') !! identity_key el2
      = Some {| osc := S (length (osc_nodes (engine s)));
                gain_ref := S (length (gain_nodes (engine s))) |}
    ∧ length (osc_nodes (engine s')) = S (S (length (osc_nodes (engine s)))).
Proof.
  intros Hel1 Hel2 Hkey1 Hkey2 Hid.
  assert (k1 ≠ k2) as Hne by (intros ->; congruence).
  (* the pointer goes down *)
  set (s1 := set_isDragging true (played k1 el1 s)).
  assert (mousedown (Some k1) s = Normal tt s1) as Hdown.
  { unfold mousedown, bind, get. rewrite (is_key_Some k1 el1 s Hel1 Hkey1).
    by rewrite (playKey_eq _ _ _ Hel1). }
  assert (piano s1 !! k1 = Some (classList_add "active" el1)) as Hp1.
  { unfold s1, played. cbn [piano set_isDragging].
    by rewrite list_lookup_alter_eq, Hel1. }
  (* it leaves the first key *)
  set (s2 := stopped k1 (classList_add "active" el1) s1).
  assert (mouseout (Some k1) s1 = Normal tt s2) as Hout.
  { unfold mouseout, bind, get.
    rewrite (is_key_Some k1 _ s1 Hp1) by (by rewrite contains_key_add_active).
    change (isDragging s1) with true. cbn iota.
    by apply stopKey_eq. }
  assert (piano s2 !! k2 = Some el2) as Hp2.
  { unfold s2, stopped, s1, played. cbn [piano set_isDragging].
    by rewrite !list_lookup_alter_ne. }
  (* it enters the second key *)
  set (s3 := played k2 el2 s2).
  assert (mouseover (Some k2) s2 = Normal tt s3) as Hover.
  { unfold mouseover, bind, get. rewrite (is_key_Some k2 el2 s2 Hp2 Hkey2).
    change (isDragging s2) with true. cbn iota.
    by apply playKey_eq. }
  exists s1, s2, s3.
  split; [exact Hdown|]. split; [exact Hout|]. split; [exact Hover|].
  (* the engine along the way *)
  set (e0 := final_state (resume (engine s))).
  destruct (resume_nodes (engine s)) as (Hosc0 & Hgain0 & _ & _).
  fold e0 in Hosc0, Hgain0.
  set (e1 := retriggered (identity_key el1)
               (getFrequency (data_note el1) (data_octave el1)) e0).
  set (e2 := final_state (stopTone (identity_key el1) e1)).
  assert (engine s2 = e2) as He2 by done.
  destruct (stopTone_table e1 (data_note el1) (data_octave el1))
    as [Htab2 Hlen2].
  fold (identity_key el1) in Htab2, Hlen2. fold e2 in Htab2, Hlen2.
  assert (length (gain_nodes e2) = length (gain_nodes e1)) as Hglen2.
  { unfold e2. destruct (oscillators e1 !! identity_key el1) as [v|] eqn:Hv.
    - rewrite (stopTone_own _ _ _ Hv). simpl. by rewrite length_alter.
    - rewrite stopTone_none; [done..|]. apply voice_key_not_inherited. }
  assert (length (gain_nodes e1) = S (length (gain_nodes e0))) as Hglen1.
  { unfold e1, retriggered. destruct (oscillators e0 !! _); simpl;
      rewrite length_app, ?length_alter; simpl; lia. }
  set (e2' := final_state (resume e2)).
  destruct (resume_nodes e2) as (Hosc2 & Hgain2 & _ & Htab2').
  fold e2' in Hosc2, Hgain2, Htab2'.
  assert (engine s3
          = retriggered (identity_key el2)
              (getFrequency (data_note el2) (data_octave el2)) e2') as He3.
  { unfold s3, played. cbn [engine]. by rewrite He2. }
  split_and!.
  - done.
  - unfold s3, played. cbn [piano]. rewrite list_lookup_alter_ne by done.
    unfold s2, stopped. cbn [piano]. by rewrite list_lookup_alter_eq, Hp1.
  - unfold s3, played. cbn [piano]. by rewrite list_lookup_alter_eq, Hp2.
  - rewrite He3. unfold retriggered.
    assert (oscillators e2' !! identity_key el1 = None) as Hnone.
    { rewrite Htab2', Htab2. apply lookup_delete_eq. }
    destruct (oscillators e2' !! identity_key el2) as [v|]; simpl.
    + rewrite lookup_insert_ne, lookup_delete_ne by done. exact Hnone.
    + rewrite lookup_insert_ne by done. exact Hnone.
  - rewrite He3, retriggered_lookup. rewrite Hosc2, Hgain2, Hlen2, Hglen2, Hglen1.
    unfold e1. by rewrite length_osc_retriggered, Hosc0, Hgain0.
  - rewrite He3, length_osc_retriggered, Hosc2, Hlen2. unfold e1.
    by rewrite length_osc_retriggered, Hosc0.
Qed.

Lemma drag_from_key_to_key_witness :
  let s := final_state (new_PianoUI 0 Suspended "Octave: 4") in
  ∃ s1 s2 s',
    handle (MouseDown (Some 0%nat)) s = Normal tt s1
    ∧ handle (MouseOut (Some 0%nat)) s1 = Normal tt s2
    ∧ handle (MouseOver (Some 2%nat)) s2 = Normal tt s'
    ∧ isDragging s' = true
    ∧ piano s' !! 0%nat
      = Some (classList_remove "active"
                (classList_add "active" (rendered_key 4 0)))
    ∧ piano s' !! 2%nat = Some (classList_add "active" (rendered_key 4 2))
    ∧ oscillators (engine s') !! identity_key (rendered_key 4 0) = None
    ∧ oscillators (engine s') !! identity_key (rendered_key 4 2)
      = Some {| osc := S (length (osc_nodes (engine s)));
                gain_ref := S (length (gain_nodes (engine s))) |}
    ∧ length (osc_nodes (engine s')) = S (S (length (osc_nodes (engine s)))).
Proof.
  intros s.
  apply (drag_from_key_to_key 0 2 (rendered_key 4 0) (rendered_key 4 2) s);
    [reflexivity|reflexivity|reflexivity|reflexivity|].
  vm_compute. discriminate.
Defined.
